(** * Blockwise relabelling of connected components

    A shallow embedding of [funlib/segment/arrays/relabel_connected_components.py],
    the properties its specification states about it, and further
    properties of its four functions.

    Conventions of the embedding:
    - regions are measured in voxels (the array's [voxel_size] is one unit
      per axis), so a block's read region is its write region grown by one
      voxel on every side;
    - a dense [numpy] array is a shape, a dtype and a function from relative
      indices to values; it is flattened in C order;
    - an integer dtype is its width in bits [w] and its signedness; a
      value cast to the dtype is the integer of the range of the dtype
      that is congruent to it modulo [2 ^ w], the range being [0, 2 ^ w)
      for an unsigned dtype and [- 2 ^ (w - 1), 2 ^ (w - 1)) for a signed
      one (two's complement); the destination array is taken to have the
      dtype of the input, so that it holds every such value unchanged;
    - the blockwise executor is a schedule: the list of steps the workers
      perform, in the order in which the shared array and the scratch
      directory see them. *)

From Stdlib Require Import ZArith List Lia Bool Sorted Permutation.
Import ListNotations.
Open Scope Z_scope.

(* ================================================================== *)
(** * Part I: the embedding *)
(* ================================================================== *)

(** ** Exceptions *)

Inductive exn := IndexError | ValueError | NotImplementedError.

Inductive result (A : Type) :=
| Ok (a : A)
| Raise (e : exn).
Arguments Ok {A} a.
Arguments Raise {A} e.

(** ** Coordinates and regions ([daisy.Coordinate], [daisy.Roi]) *)

Definition Coordinate := (Z * Z * Z)%type.

Definition cadd (p q : Coordinate) : Coordinate :=
  let '(a, b, c) := p in let '(x, y, z) := q in (a + x, b + y, c + z).

Definition csub (p q : Coordinate) : Coordinate :=
  let '(a, b, c) := p in let '(x, y, z) := q in (a - x, b - y, c - z).

Definition axis (d : nat) (p : Coordinate) : Z :=
  let '(a, b, c) := p in
  match d with O => a | S O => b | _ => c end.

Definition unit_vec (d : nat) : Coordinate :=
  match d with O => (1, 0, 0) | S O => (0, 1, 0) | _ => (0, 0, 1) end.

Definition ones : Coordinate := (1, 1, 1).

Definition coord_eqb (p q : Coordinate) : bool :=
  let '(a, b, c) := p in let '(x, y, z) := q in
  (a =? x) && (b =? y) && (c =? z).

Record Roi := mkRoi { roi_offset : Coordinate; roi_shape : Coordinate }.

(** [Roi.grow(amount_neg, amount_pos)] *)
Definition grow (r : Roi) (amount_neg amount_pos : Coordinate) : Roi :=
  mkRoi (csub (roi_offset r) amount_neg)
        (cadd (cadd (roi_shape r) amount_neg) amount_pos).

(** [0 <= i < shape] on every axis *)
Definition in_bounds (sh i : Coordinate) : bool :=
  let '(sx, sy, sz) := sh in let '(x, y, z) := i in
  (0 <=? x) && (x <? sx) && (0 <=? y) && (y <? sy) && (0 <=? z) && (z <? sz).

Definition contains (r : Roi) (p : Coordinate) : bool :=
  in_bounds (roi_shape r) (csub p (roi_offset r)).

(** [Roi.size()]: the number of voxels *)
Definition size (r : Roi) : Z :=
  let '(sx, sy, sz) := roi_shape r in sx * sy * sz.

Definition roi_eqb (r s : Roi) : bool :=
  coord_eqb (roi_offset r) (roi_offset s) && coord_eqb (roi_shape r) (roi_shape s).

(** ** Dense arrays ([numpy.ndarray]) *)

(** An integer dtype: its width in bits and whether it is signed. *)
Record dtype := mk_dtype { dt_bits : Z; dt_signed : bool }.

Definition uint8 : dtype := mk_dtype 8 false.
Definition int8 : dtype := mk_dtype 8 true.
Definition uint16 : dtype := mk_dtype 16 false.
Definition int64 : dtype := mk_dtype 64 true.

(** The least and the largest value of a dtype. *)
Definition dtype_min (dt : dtype) : Z :=
  if dt_signed dt then - 2 ^ (dt_bits dt - 1) else 0.

Definition dtype_max (dt : dtype) : Z :=
  if dt_signed dt then 2 ^ (dt_bits dt - 1) - 1 else 2 ^ dt_bits dt - 1.

Record ndarray := mk_ndarray {
  nd_shape : Coordinate;
  nd_dtype : dtype;
  nd_get : Coordinate -> Z
}.

Definition zrange (n : Z) : list Z := map Z.of_nat (seq 0 (Z.to_nat n)).

(** All indices of an array of the given shape, in C order. *)
Definition indices (sh : Coordinate) : list Coordinate :=
  let '(sx, sy, sz) := sh in
  flat_map (fun x =>
    flat_map (fun y => map (fun z => (x, y, z)) (zrange sz)) (zrange sy))
    (zrange sx).

(** The position of an index in the flattened array. *)
Definition ravel (sh i : Coordinate) : Z :=
  let '(_, sy, sz) := sh in let '(x, y, z) := i in (x * sy + y) * sz + z.

(** A value cast to a dtype, as C casts integers: the value of the dtype
    that is congruent to it modulo [2 ^ w]. *)
Definition wrap (dt : dtype) (x : Z) : Z :=
  if dt_signed dt
  then (x + 2 ^ (dt_bits dt - 1)) mod 2 ^ dt_bits dt - 2 ^ (dt_bits dt - 1)
  else x mod 2 ^ dt_bits dt.

(** [a.astype(dtype)] *)
Definition astype (a : ndarray) (dt : dtype) : ndarray :=
  mk_ndarray (nd_shape a) dt (fun i => wrap dt (nd_get a i)).

(** [a += c] for an integer [c], the result cast back to the dtype of
    [a]. The offsets of the module are nonnegative integers below
    [2 ^ 63] (block identifiers times a voxel count); for other integers
    the addition can raise. *)
Definition iadd (a : ndarray) (c : Z) : ndarray :=
  mk_ndarray (nd_shape a) (nd_dtype a)
             (fun i => wrap (nd_dtype a) (nd_get a i + c)).

(** [a[mask == 0] = 0] *)
Definition zero_where_zero (a mask : ndarray) : ndarray :=
  mk_ndarray (nd_shape a) (nd_dtype a)
             (fun i => if nd_get mask i =? 0 then 0 else nd_get a i).

(** [a[1:-1, 1:-1, 1:-1]] *)
Definition crop (a : ndarray) : ndarray :=
  let '(sx, sy, sz) := nd_shape a in
  mk_ndarray (Z.max 0 (sx - 2), Z.max 0 (sy - 2), Z.max 0 (sz - 2))
             (nd_dtype a) (fun i => nd_get a (cadd i ones)).

(** The indices selected by [slices_neg] ([pos = false]: [slice(0, 1)] on
    axis [d]) and by [slices_pos] ([pos = true]: [slice(-1, None)] on axis
    [d]), every other axis taken whole; in the order of [flatten()]. *)
Definition face (sh : Coordinate) (d : nat) (pos : bool) : list Coordinate :=
  filter (fun i => axis d i =? (if pos then axis d sh - 1 else 0)) (indices sh).

(** [np.array([a[s].flatten(), b[s].flatten()]).transpose()] *)
Definition pair_rows (a b : ndarray) (s : list Coordinate) : list (Z * Z) :=
  map (fun i => (nd_get a i, nd_get b i)) s.

(** [np.unique] on a flat array: the sorted distinct values. *)
Fixpoint insert_value (x : Z) (l : list Z) : list Z :=
  match l with
  | [] => [x]
  | y :: l' =>
      if x <? y then x :: l
      else if x =? y then l
      else y :: insert_value x l'
  end.

Definition unique (l : list Z) : list Z := fold_right insert_value [] l.

(** [np.unique(_, axis=0)] on rows of two: the sorted distinct rows. *)
Definition row_ltb (p q : Z * Z) : bool :=
  (fst p <? fst q) || ((fst p =? fst q) && (snd p <? snd q)).

Definition row_eqb (p q : Z * Z) : bool :=
  (fst p =? fst q) && (snd p =? snd q).

Fixpoint insert_row (p : Z * Z) (l : list (Z * Z)) : list (Z * Z) :=
  match l with
  | [] => [p]
  | q :: l' =>
      if row_ltb p q then p :: l
      else if row_eqb p q then l
      else q :: insert_row p l'
  end.

Definition unique_rows (l : list (Z * Z)) : list (Z * Z) :=
  fold_right insert_row [] l.

(** The values of a two-column array, row after row. *)
Definition endpoints (E : list (Z * Z)) : list Z :=
  flat_map (fun e => [fst e; snd e]) E.

(** ** Undirected graphs on labels, and a union-find by tables *)

(** Two labels are connected when a chain of edges, taken in either
    direction, leads from one to the other. *)
Inductive econn (E : list (Z * Z)) : Z -> Z -> Prop :=
| econn_refl : forall x, econn E x x
| econn_step : forall x y z,
    In (x, y) E \/ In (y, x) E -> econn E y z -> econn E x z.

Definition table := list (Z * Z).

Definition find_rep (t : table) (k : Z) : Z :=
  match find (fun kv => fst kv =? k) t with
  | Some kv => snd kv
  | None => k
  end.

Definition union (t : table) (e : Z * Z) : table :=
  let a := find_rep t (fst e) in
  let b := find_rep t (snd e) in
  let m := Z.min a b in
  map (fun kv => (fst kv, if (snd kv =? a) || (snd kv =? b) then m else snd kv)) t.

Definition init (keys : list Z) : table := map (fun k => (k, k)) keys.

Definition resolve (keys : list Z) (E : list (Z * Z)) : table :=
  fold_left union E (init keys).

(** The invariant of the table: every key is bound to the least label of
    its class. *)
Definition least_of_class (E : list (Z * Z)) (t : table) : Prop :=
  forall k r, In (k, r) t ->
    econn E k r /\ forall y, econn E k y -> r <= y.

(** ** The labelling primitive ([skimage.measure.label], connectivity 1)

    Face-adjacent elements of equal nonzero value are joined by a
    union-find over flat positions; each class is then numbered by the
    rank of its first element in C order, starting from 1, and the
    background (value 0) keeps 0. *)

Definition label_edges (a : ndarray) : list (Z * Z) :=
  let sh := nd_shape a in
  flat_map (fun i =>
    flat_map (fun d =>
      let j := cadd i (unit_vec d) in
      if in_bounds sh j && negb (nd_get a i =? 0) && (nd_get a i =? nd_get a j)
      then [(ravel sh i, ravel sh j)] else [])
      [0; 1; 2]%nat)
    (indices sh).

Definition label_roots (a : ndarray) (t : table) : list Coordinate :=
  let sh := nd_shape a in
  filter (fun i => negb (nd_get a i =? 0) && (find_rep t (ravel sh i) =? ravel sh i))
         (indices sh).

Definition label (a : ndarray) : ndarray :=
  let sh := nd_shape a in
  let t := resolve (map (ravel sh) (indices sh)) (label_edges a) in
  let roots := label_roots a t in
  mk_ndarray sh int64 (fun i =>
    if nd_get a i =? 0 then 0
    else 1 + Z.of_nat (length
           (filter (fun r => ravel sh r <? find_rep t (ravel sh i)) roots))).

(** ** Persistent arrays ([daisy.Array]) *)

Record Array := mkArray {
  arr_roi : Roi;
  arr_dtype : dtype;
  arr_data : Coordinate -> Z
}.

(** [array.to_ndarray(roi, fill_value)] *)
Definition to_ndarray (a : Array) (r : Roi) (fill_value : Z) : ndarray :=
  mk_ndarray (roi_shape r) (arr_dtype a)
    (fun i => let p := cadd (roi_offset r) i in
              if contains (arr_roi a) p then arr_data a p else fill_value).

(** [array[roi] = v], for a region inside the array, a value of the
    shape of the region and of the dtype of the array. *)
Definition setitem (a : Array) (r : Roi) (v : ndarray) : Array :=
  mkArray (arr_roi a) (arr_dtype a)
    (fun p => if contains r p then nd_get v (csub p (roi_offset r))
              else arr_data a p).

(** ** Blocks ([daisy.Block]) and the scratch directory *)

Record Block := mkBlock {
  block_id : Z;
  read_roi : Roi;
  write_roi : Roi
}.

Definition block_eqb (b c : Block) : bool :=
  (block_id b =? block_id c) && roi_eqb (read_roi b) (read_roi c)
  && roi_eqb (write_roi b) (write_roi c).

(** The content of a file [block_<id>.npz]. *)
Record npz := mk_npz { npz_nodes : list Z; npz_edges : list (Z * Z) }.

(** The scratch directory, in the order in which [glob] lists it. *)
Definition tmpdir := list (Z * npz).

(** [np.savez_compressed(path, ...)]: an existing file is replaced. *)
Fixpoint savez (t : tmpdir) (id : Z) (f : npz) : tmpdir :=
  match t with
  | [] => [(id, f)]
  | (id', f') :: t' =>
      if id' =? id then (id, f) :: t' else (id', f') :: savez t' id f
  end.

(** ** [find_components_in_block] *)

(** Lines 95 to 104: the block's labelling of its read region, offset
    into the block's range of labels. *)
Definition block_components (array_in : Array) (num_voxels_in_block : Z)
    (block : Block) : ndarray :=
  let labels := to_ndarray array_in (read_roi block) 0 in
  let components := astype (label labels) (nd_dtype labels) in
  let components := iadd components (block_id block * num_voxels_in_block) in
  zero_where_zero components labels.

(** Lines 117 to 145: the rows of [unique_pairs]. *)
Definition boundary_pairs (components neighbors : ndarray) : list (Z * Z) :=
  flat_map (fun d =>
    let pairs_neg := pair_rows components neighbors (face (nd_shape components) d false) in
    let pairs_pos := pair_rows components neighbors (face (nd_shape components) d true) in
    unique_rows (pairs_neg ++ pairs_pos))
    [0; 1; 2]%nat.

(** Lines 146 to 152 *)
Definition non_zero_filter (uv : Z * Z) : bool :=
  negb ((fst uv =? 0) || (snd uv =? 0)).

Definition block_edges (components neighbors : ndarray) : list (Z * Z) :=
  filter non_zero_filter (boundary_pairs components neighbors).

Definition find_components_in_block (array_in array_out : Array)
    (num_voxels_in_block : Z) (block : Block) (tmp : tmpdir)
    : Array * tmpdir :=
  let components := block_components array_in num_voxels_in_block block in
  let array_out := setitem array_out (write_roi block) (crop components) in
  let neighbors := to_ndarray array_out (read_roi block) 0 in
  let edges := block_edges components neighbors in
  let nodes := unique (endpoints edges) in
  (array_out, savez tmp (block_id block) (mk_npz nodes edges)).

(** The two halves of [find_components_in_block] that other workers can
    tell apart: up to the write at line 112, and from the read at line
    113 on. *)
Definition commit_block (array_in array_out : Array)
    (num_voxels_in_block : Z) (block : Block) : Array :=
  setitem array_out (write_roi block)
          (crop (block_components array_in num_voxels_in_block block)).

Definition observe_block (array_in array_out : Array)
    (num_voxels_in_block : Z) (block : Block) (tmp : tmpdir) : tmpdir :=
  let components := block_components array_in num_voxels_in_block block in
  let neighbors := to_ndarray array_out (read_roi block) 0 in
  let edges := block_edges components neighbors in
  savez tmp (block_id block) (mk_npz (unique (endpoints edges)) edges).

(** ** [read_cross_block_merges] *)

(** [np.concatenate] of a list of arrays: an empty list raises. *)
Definition concatenate {A : Type} (l : list (list A)) : result (list A) :=
  match l with
  | [] => Raise ValueError
  | _ => Ok (concat l)
  end.

Definition read_cross_block_merges (tmp : tmpdir)
    : result (list Z * list (Z * Z)) :=
  let nodes := map (fun f => npz_nodes (snd f)) tmp in
  let edges := map (fun f => npz_edges (snd f)) tmp in
  match concatenate nodes, concatenate edges with
  | Ok n, Ok e => Ok (n, e)
  | Raise x, _ => Raise x
  | _, Raise x => Raise x
  end.

(** ** The two helpers of the package that the module imports *)

(** Modelled from the spec: [find_components] of [funlib.segment.arrays.impl],
    whose source is not part of the module. The specification of the merge
    resolver: the connected components of the graph of all nodes and
    edges, by union-find; every node is given the canonical representative
    of its component, the least label of the component. The result is
    parallel to [nodes]. *)
Definition find_components (nodes : list Z) (edges : list (Z * Z)) : list Z :=
  let t := resolve nodes edges in
  map (find_rep t) nodes.

(** Modelled from the spec: [replace_values] of
    [funlib.segment.arrays.replace_values], whose source is not part of
    the module. The specification of the substitution primitive: every
    occurrence of an old value becomes the corresponding new value, and a
    value that is not listed passes through unchanged. *)
Definition replace_value (old_values new_values : list Z) (v : Z) : Z :=
  match find (fun on => fst on =? v) (combine old_values new_values) with
  | Some on => snd on
  | None => v
  end.

Definition replace_values (a : ndarray) (old_values new_values : list Z)
    : ndarray :=
  mk_ndarray (nd_shape a) (nd_dtype a)
             (fun i => replace_value old_values new_values (nd_get a i)).

(** ** [relabel_in_block]

    The read at line 166 has no fill value and raises for a region that
    is not inside the array: the executor hands out write regions that
    lie inside the array, and the function is modelled for those. *)

Definition relabel_in_block (array : Array) (old_values new_values : list Z)
    (block : Block) : Array :=
  let a := to_ndarray array (write_roi block) 0 in
  let a := replace_values a old_values new_values in
  setitem array (write_roi block) a.

(** ** The blockwise executor ([daisy.run_blockwise]) *)

(** What a worker does to the shared state, one step at a time. *)
Inductive event :=
| Commit (b : Block)
| Observe (b : Block).

Definition event_block (e : event) : Block :=
  match e with Commit b => b | Observe b => b end.

Definition is_observe (b : Block) (e : event) : bool :=
  match e with Observe c => block_eqb b c | Commit _ => false end.

Definition run_event (array_in : Array) (num_voxels_in_block : Z)
    (st : Array * tmpdir) (e : event) : Array * tmpdir :=
  match e with
  | Commit b => (commit_block array_in (fst st) num_voxels_in_block b, snd st)
  | Observe b => (fst st, observe_block array_in (fst st) num_voxels_in_block b (snd st))
  end.

Definition run_phase1 (array_in array_out : Array) (num_voxels_in_block : Z)
    (schedule : list event) : Array * tmpdir :=
  fold_left (run_event array_in num_voxels_in_block) schedule (array_out, []).

Definition run_phase3 (array_out : Array) (nodes components : list Z)
    (schedule : list Block) : Array :=
  fold_left (fun a b => relabel_in_block a nodes components b) schedule array_out.

(** A block run by one call of [find_components_in_block], undisturbed. *)
Definition sequential (order : list Block) : list event :=
  flat_map (fun b => [Commit b; Observe b]) order.

(** ** [relabel_connected_components]

    The two schedules stand for what the executor does with
    [num_workers] workers: the steps of phase 1 in the order in which the
    destination and the scratch directory see them, and the blocks of
    phase 3 in the order in which they are relabelled. *)

Definition num_voxels (block_size : Coordinate) : Z :=
  let write_roi := mkRoi (0, 0, 0) block_size in
  let read_roi := grow write_roi ones ones in
  size read_roi.

Definition relabel_connected_components (array_in array_out : Array)
    (block_size : Coordinate)
    (schedule1 : list event) (schedule3 : list Block) : result Array :=
  let num_voxels_in_block := num_voxels block_size in
  let '(array_out, tmp) :=
    run_phase1 array_in array_out num_voxels_in_block schedule1 in
  match read_cross_block_merges tmp with
  | Raise e => Raise e
  | Ok (nodes, edges) =>
      let components := find_components nodes edges in
      Ok (run_phase3 array_out nodes components schedule3)
  end.

(** ** Partitions and schedules *)

Definition coord_leb (p q : Coordinate) : bool :=
  let '(a, b, c) := p in let '(x, y, z) := q in
  (a <=? x) && (b <=? y) && (c <=? z).

(** The voxels of a region, in C order. *)
Definition voxels (r : Roi) : list Coordinate :=
  map (cadd (roi_offset r)) (indices (roi_shape r)).

Definition block_ok (vol : Roi) (block_size : Coordinate) (b : Block) : bool :=
  (0 <=? block_id b)
  && roi_eqb (read_roi b) (grow (write_roi b) ones ones)
  && coord_leb ones (roi_shape (write_roi b))
  && coord_leb (roi_shape (write_roi b)) block_size
  && forallb (contains vol) (voxels (write_roi b)).

Fixpoint distinct (l : list Z) : bool :=
  match l with
  | [] => true
  | x :: l' => negb (existsb (Z.eqb x) l') && distinct l'
  end.

(** The write regions tile the volume: they lie inside it, no larger than
    [block_size], every voxel of the volume is in exactly one of them, and
    the blocks have distinct identifiers. *)
Definition valid_partition (vol : Roi) (block_size : Coordinate)
    (blocks : list Block) : bool :=
  forallb (block_ok vol block_size) blocks
  && distinct (map block_id blocks)
  && forallb (fun p =>
       (length (filter (fun b => contains (write_roi b) p) blocks) =? 1)%nat)
       (voxels vol).

(** Every step belongs to a block of the partition, a block reads the
    destination only after its own write, and every block runs to its
    end. *)
Fixpoint program_order (committed : list Block) (es : list event) : bool :=
  match es with
  | [] => true
  | Commit b :: es' => program_order (b :: committed) es'
  | Observe b :: es' => existsb (block_eqb b) committed && program_order committed es'
  end.

Definition valid_schedule (blocks : list Block) (es : list event) : bool :=
  forallb (fun e => existsb (block_eqb (event_block e)) blocks) es
  && program_order [] es
  && forallb (fun b => existsb (is_observe b) es) blocks.

(** The blocks of phase 3 have the write regions of the partition (their
    read regions carry no halo, and [relabel_in_block] does not look at
    them); every write region is visited. *)
Definition same_write (b c : Block) : bool :=
  roi_eqb (write_roi b) (write_roi c).

Definition valid_schedule3 (blocks order : list Block) : bool :=
  forallb (fun b => existsb (same_write b) blocks) order
  && forallb (fun c => existsb (fun b => same_write b c) order) blocks.

(** The blocks of the second call of the executor: [read_roi = write_roi]. *)
Definition relabel_blocks (blocks : list Block) : list Block :=
  map (fun b => mkBlock (block_id b) (write_roi b) (write_roi b)) blocks.

(** The labels of all blocks fit the [w] bits of the dtype of the input:
    [(block_id + 1) * capacity < 2 ^ w] for every block, so that distinct
    labels stay distinct after the cast. *)
Definition labels_fit (dt : dtype) (block_size : Coordinate) (blocks : list Block) : bool :=
  forallb (fun b => (block_id b + 1) * num_voxels block_size <? 2 ^ dt_bits dt) blocks.

(** Every label of every block is a value of the dtype of the input: no
    label exceeds the largest value of the dtype. *)
Definition labels_representable (dt : dtype) (block_size : Coordinate)
    (blocks : list Block) : bool :=
  forallb (fun b => (block_id b + 1) * num_voxels block_size <=? dtype_max dt) blocks.

(** ** What the blocks write *)

(** An array over the same region, filled with zeros: the destination as
    the docstring requires it ("should initially be empty"). *)
Definition zeros_like (a : Array) : Array :=
  mkArray (arr_roi a) (arr_dtype a) (fun _ => 0).

(** The label that a block gives a voxel of its read region. *)
Definition block_label (array_in : Array) (num_voxels_in_block : Z)
    (b : Block) (p : Coordinate) : Z :=
  nd_get (block_components array_in num_voxels_in_block b)
         (csub p (roi_offset (read_roi b))).

(** The provisional label of a voxel: the one given by the block in whose
    write region the voxel lies. *)
Definition provisional (array_in : Array) (num_voxels_in_block : Z)
    (blocks : list Block) (p : Coordinate) : Z :=
  match find (fun b => contains (write_roi b) p) blocks with
  | Some b => block_label array_in num_voxels_in_block b p
  | None => 0
  end.

(** The blocks that a schedule has written, and those whose scratch file
    it has saved. *)
Definition commits (es : list event) : list Block :=
  flat_map (fun e => match e with Commit b => [b] | Observe _ => [] end) es.

Definition observes (es : list event) : list Block :=
  flat_map (fun e => match e with Observe b => [b] | Commit _ => [] end) es.

(** All edges of a scratch directory. *)
Definition all_edges (tmp : tmpdir) : list (Z * Z) :=
  concat (map (fun f => npz_edges (snd f)) tmp).

Definition all_nodes (tmp : tmpdir) : list Z :=
  concat (map (fun f => npz_nodes (snd f)) tmp).

(** An edge is sound when its two labels were given to one voxel of an
    outermost slice of a read region: the first by the block that reads
    the voxel, the second by the block that wrote it. *)
Definition sound_edge (array_in : Array) (num_voxels_in_block : Z)
    (blocks : list Block) (u v : Z) : Prop :=
  u <> 0 /\ v <> 0 /\
  exists c h, In c blocks /\ contains (read_roi c) h = true
              /\ u = block_label array_in num_voxels_in_block c h
              /\ v = provisional array_in num_voxels_in_block blocks h
              /\ exists d pos, (d < 3)%nat
                   /\ In (csub h (roi_offset (read_roi c)))
                         (face (roi_shape (read_roi c)) d pos).

(** The file of [c] holds the edge of every voxel that [c'] wrote on an
    outermost slice of the read region of [c]. *)
Definition sees (array_in : Array) (num_voxels_in_block : Z)
    (blocks : list Block) (tmp : tmpdir) (c c' : Block) : Prop :=
  forall h d pos, (d < 3)%nat ->
    contains (write_roi c') h = true ->
    In (csub h (roi_offset (read_roi c))) (face (roi_shape (read_roi c)) d pos) ->
    block_label array_in num_voxels_in_block c h <> 0 ->
    provisional array_in num_voxels_in_block blocks h <> 0 ->
    exists f, In (block_id c, f) tmp
              /\ In (block_label array_in num_voxels_in_block c h,
                     provisional array_in num_voxels_in_block blocks h)
                    (npz_edges f).

(** The scratch directory that phase 1 leaves, and the canonical label
    that phases 2 and 3 substitute for a provisional one. *)
Definition scratch (array_in : Array) (block_size : Coordinate)
    (schedule1 : list event) : tmpdir :=
  snd (run_phase1 array_in (zeros_like array_in) (num_voxels block_size) schedule1).

Definition canonical (tmp : tmpdir) (g : Z) : Z :=
  replace_value (all_nodes tmp)
                (find_components (all_nodes tmp) (all_edges tmp)) g.

(** ** Connectivity of the input *)

(** Face adjacency: the two voxels differ by one unit along one axis. *)
Definition face_adjacent (p q : Coordinate) : Prop :=
  exists d, (d < 3)%nat /\ (q = cadd p (unit_vec d) \/ p = cadd q (unit_vec d)).

(** The value of the input at a voxel; 0 outside the array. *)
Definition value_at (a : Array) (p : Coordinate) : Z :=
  if contains (arr_roi a) p then arr_data a p else 0.

(** [p] and [q] are joined by a path of face-adjacent positions of the
    domain [dom] that all carry the same nonzero value. *)
Inductive joined (dom : Coordinate -> bool) (val : Coordinate -> Z)
    : Coordinate -> Coordinate -> Prop :=
| joined_refl : forall p,
    dom p = true -> val p <> 0 -> joined dom val p p
| joined_step : forall p q s,
    dom p = true -> val p <> 0 ->
    face_adjacent p q -> val q = val p ->
    joined dom val q s -> joined dom val p s.

(** Connected inside a region of the input. *)
Definition connected_in (a : Array) (r : Roi) : Coordinate -> Coordinate -> Prop :=
  joined (contains r) (value_at a).

(** Connected in the input volume: the foreground blobs of the
    specification are the classes of this relation. *)
Definition connected (a : Array) : Coordinate -> Coordinate -> Prop :=
  connected_in a (arr_roi a).

(** ** Notions that the specification uses *)

(** The label that the labelling primitive gives a voxel of the read
    region of a block, before the offset of the block is added. *)
Definition local_label (array_in : Array) (b : Block) (p : Coordinate) : Z :=
  nd_get (label (to_ndarray array_in (read_roi b) 0))
         (csub p (roi_offset (read_roi b))).

(** A voxel inside a region that does not touch its border. *)
Definition interior (r : Roi) (p : Coordinate) : bool :=
  contains (mkRoi (cadd (roi_offset r) ones) (csub (roi_shape r) (2, 2, 2))) p.

(** The value of the output at a voxel. *)
Definition output_at (r : result Array) (p : Coordinate) : result Z :=
  match r with
  | Ok a => Ok (arr_data a p)
  | Raise e => Raise e
  end.

(** The index [p] with its coordinate on the axis [d] set to [v]. *)
Definition set_axis (d : nat) (v : Z) (p : Coordinate) : Coordinate :=
  let '(x, y, z) := p in
  match d with O => (v, y, z) | S O => (x, v, z) | _ => (x, y, v) end.

(** The edge candidates as the specification words them: on every axis
    and face, the outermost slice of the cropped labels of the block,
    paired with the element of the outermost slice of the re-read array
    that lies across the face. *)
Definition pairs_as_specified (components neighbors : ndarray) : list (Z * Z) :=
  let cropped := crop components in
  let row d (pos : bool) :=
    map (fun j =>
           (nd_get cropped j,
            nd_get neighbors
              (set_axis d (if pos then axis d (nd_shape neighbors) - 1 else 0)
                        (cadd j ones))))
        (face (nd_shape cropped) d pos) in
  flat_map (fun d => unique_rows (row d false ++ row d true)) [0; 1; 2]%nat.

Definition block_edges_as_specified (components neighbors : ndarray)
    : list (Z * Z) :=
  filter non_zero_filter (pairs_as_specified components neighbors).

(** ** Arrays of any dimension

    The module takes the dimension from [len(block_size)], and
    [find_components_in_block] then indexes the block with three slices
    and loops over three axes. The entry point below follows a volume of
    any dimension up to that point. *)

Record ArrayN := mkArrayN {
  arrn_offset : list Z;
  arrn_shape : list Z;
  arrn_dtype : dtype;
  arrn_data : list Z -> Z
}.

Record BlockN := mkBlockN {
  blockn_id : Z;
  blockn_write_offset : list Z;
  blockn_write_shape : list Z
}.

Definition coordinate3 (l : list Z) : option Coordinate :=
  match l with
  | [x; y; z] => Some (x, y, z)
  | _ => None
  end.

Definition array3 (a : ArrayN) : option Array :=
  match coordinate3 (arrn_offset a), coordinate3 (arrn_shape a) with
  | Some o, Some s =>
      Some (mkArray (mkRoi o s) (arrn_dtype a)
                    (fun p => let '(x, y, z) := p in arrn_data a [x; y; z]))
  | _, _ => None
  end.

Definition arrayN (a : Array) : ArrayN :=
  let '(ox, oy, oz) := roi_offset (arr_roi a) in
  let '(sx, sy, sz) := roi_shape (arr_roi a) in
  mkArrayN [ox; oy; oz] [sx; sy; sz] (arr_dtype a)
           (fun l => match coordinate3 l with
                     | Some p => arr_data a p
                     | None => 0
                     end).

(** The block of the executor: the read region is the write region grown
    by one voxel. *)
Definition block3 (b : BlockN) : option Block :=
  match coordinate3 (blockn_write_offset b), coordinate3 (blockn_write_shape b) with
  | Some o, Some s =>
      Some (mkBlock (blockn_id b) (grow (mkRoi o s) ones ones) (mkRoi o s))
  | _, _ => None
  end.

(** [(read_roi / voxel_size).size()] *)
Definition num_voxels_nd (block_size : list Z) : Z :=
  fold_right Z.mul 1 (map (fun s => s + 2) block_size).

(** Indexing an array of [ndim] axes with [k] slices: more slices than
    axes raise [IndexError]. *)
Definition check_indices (ndim k : nat) : result unit :=
  if (ndim <? k)%nat then Raise IndexError else Ok tt.

(** [find_components_in_block] on a block of any dimension. The
    labelling primitive at line 96 handles arrays of up to three axes
    and raises [NotImplementedError] beyond. The lines before line 112
    change nothing outside the function. At line 112 the labels of the
    block are indexed with three slices, which raises [IndexError] on an
    array of fewer than three axes. With three axes the function runs
    as above; a destination or a block of another dimension cannot take
    the assignment. *)
Definition find_components_in_block_nd (array_in array_out : ArrayN)
    (num_voxels_in_block : Z) (block : BlockN) (tmp : tmpdir)
    : result (ArrayN * tmpdir) :=
  if (3 <? length (arrn_shape array_in))%nat then Raise NotImplementedError
  else
    match check_indices (length (arrn_shape array_in)) 3 with
    | Raise e => Raise e
    | Ok _ =>
        match array3 array_in, array3 array_out, block3 block with
        | Some a_in, Some a_out, Some b =>
            let '(a_out', tmp') :=
              find_components_in_block a_in a_out num_voxels_in_block b tmp in
            Ok (arrayN a_out', tmp')
        | _, _, _ => Raise ValueError
        end
    end.

Fixpoint contains_nd (offset shape p : list Z) : bool :=
  match offset, shape, p with
  | [], [], [] => true
  | o :: offset', s :: shape', x :: p' =>
      (o <=? x) && (x <? o + s) && contains_nd offset' shape' p'
  | _, _, _ => false
  end.

(** [relabel_in_block], which is written for any dimension. *)
Definition relabel_in_block_nd (array : ArrayN) (old_values new_values : list Z)
    (block : BlockN) : ArrayN :=
  mkArrayN (arrn_offset array) (arrn_shape array) (arrn_dtype array)
    (fun p => if contains_nd (blockn_write_offset block) (blockn_write_shape block) p
              then replace_value old_values new_values (arrn_data array p)
              else arrn_data array p).

(** The executor goes on after a block that raised: the block has
    failed, and has left neither labels nor a scratch file. *)
Definition run_block_nd (array_in : ArrayN) (num_voxels_in_block : Z)
    (st : ArrayN * tmpdir) (block : BlockN) : ArrayN * tmpdir :=
  match find_components_in_block_nd array_in (fst st) num_voxels_in_block
                                    block (snd st) with
  | Ok st' => st'
  | Raise _ => st
  end.

Definition relabel_connected_components_nd (array_in array_out : ArrayN)
    (block_size : list Z) (order1 order3 : list BlockN) : result ArrayN :=
  let num_voxels_in_block := num_voxels_nd block_size in
  let '(array_out, tmp) :=
    fold_left (run_block_nd array_in num_voxels_in_block) order1 (array_out, []) in
  match read_cross_block_merges tmp with
  | Raise e => Raise e
  | Ok (nodes, edges) =>
      let components := find_components nodes edges in
      Ok (fold_left (fun a b => relabel_in_block_nd a nodes components b)
                    order3 array_out)
  end.

(** ** Scenarios *)

(** A block of the executor in three dimensions. *)
Definition make_block (id : Z) (offset shape : Coordinate) : Block :=
  mkBlock id (grow (mkRoi offset shape) ones ones) (mkRoi offset shape).

(** The scenario of the specification, as a volume of 8 x 1 x 1 voxels
    of an unsigned 8-bit dtype in blocks of 4 x 1 x 1: the voxels listed in
    [foreground] carry the value 1. *)
Definition row8 : Roi := mkRoi (0, 0, 0) (8, 1, 1).

Definition row8_array (foreground : list Z) : Array :=
  mkArray row8 uint8
    (fun p => let '(x, _, _) := p in
              if existsb (Z.eqb x) foreground then 1 else 0).

Definition row8_blocks : list Block :=
  [make_block 0 (0, 0, 0) (4, 1, 1); make_block 1 (4, 0, 0) (4, 1, 1)].

(** A box of 6 x 3 x 3 voxels of a signed 8-bit dtype in two blocks of
    3 x 3 x 3, ids 0 and 1, whose read regions have 5 * 5 * 5 = 125
    voxels: three single voxels of value 1, two of them in the last
    layer of block 0 and the third in the inside of block 1, of whose
    read region it is the third component. The offset 125 of block 1 is
    a value of the dtype; the label 125 + 3 = 128 is not. *)
Definition box6 : Roi := mkRoi (0, 0, 0) (6, 3, 3).

Definition box6_values (p : Coordinate) : Z :=
  if coord_eqb p (2, 0, 0) || coord_eqb p (2, 0, 2) || coord_eqb p (4, 1, 1)
  then 1 else 0.

Definition box6_array : Array := mkArray box6 int8 box6_values.

Definition box6_blocks : list Block :=
  [make_block 0 (0, 0, 0) (3, 3, 3); make_block 1 (3, 0, 0) (3, 3, 3)].

(** The same scenario as the specification has it, in one dimension. *)
Definition line8_array (foreground : list Z) : ArrayN :=
  mkArrayN [0] [8] uint8
    (fun p => match p with
              | [x] => if existsb (Z.eqb x) foreground then 1 else 0
              | _ => 0
              end).

Definition line8_blocks : list BlockN :=
  [mkBlockN 0 [0] [4]; mkBlockN 1 [4] [4]].

(** The blocks of the three-dimensional row, for the entry point of any
    dimension. *)
Definition row8_blocks_nd : list BlockN :=
  [mkBlockN 0 [0; 0; 0] [4; 1; 1]; mkBlockN 1 [4; 0; 0] [4; 1; 1]].

(** A strip of 2 x 1 x 20 voxels of an unsigned 8-bit dtype in four blocks of
    2 x 1 x 5, ids 0 to 3, whose read regions have 4 * 3 * 7 = 84 voxels.
    The offsets of the blocks, 0, 84, 168 and 252, all fit the dtype. *)
Definition strip20 : Roi := mkRoi (0, 0, 0) (2, 1, 20).

Definition strip20_array (f : Coordinate -> Z) : Array := mkArray strip20 uint8 f.

Definition strip20_blocks : list Block :=
  map (fun k => make_block (Z.of_nat k) (0, 0, 5 * Z.of_nat k) (2, 1, 5))
      (seq 0 4).

(** Three single voxels of value 1 in the first row of block 3, and in
    the second row a run of two voxels of value 2 across the border of
    the blocks 2 and 3: the run is the fourth component of block 3. *)
Definition strip20_run (p : Coordinate) : Z :=
  let '(x, _, z) := p in
  if (x =? 0) && ((z =? 15) || (z =? 17) || (z =? 19)) then 1
  else if (x =? 1) && ((z =? 14) || (z =? 15)) then 2
  else 0.

(** A single voxel of value 1 in block 0; in block 3 three single voxels
    of value 2 in the first row and two single voxels of value 1 in the
    second row, the last of which is the fifth component of block 3. *)
Definition strip20_dots (p : Coordinate) : Z :=
  let '(x, _, z) := p in
  if (x =? 0) && (z =? 0) then 1
  else if (x =? 0) && ((z =? 15) || (z =? 17) || (z =? 19)) then 2
  else if (x =? 1) && ((z =? 15) || (z =? 17)) then 1
  else 0.

(** A plate of 8 x 4 x 5 voxels in two blocks of 4 x 4 x 5, ids 0 and 1,
    whose read regions have 6 * 6 * 7 = 252 voxels: a bar of value 1
    along the first axis through both blocks, a single voxel of value 3
    in the inside of block 0, and five single voxels of value 2 in the
    last layer of block 0. In block 0 the bar is the first component and
    the voxel in the inside the second; in block 1 the bar is the sixth
    component. *)
Definition plate8 : Roi := mkRoi (0, 0, 0) (8, 4, 5).

Definition plate8_values (p : Coordinate) : Z :=
  let '(x, y, z) := p in
  if (y =? 3) && (z =? 4) && (x <=? 4) then 1
  else if coord_eqb p (1, 1, 1) then 3
  else if (x =? 3)
          && (((y =? 0) && ((z =? 0) || (z =? 2) || (z =? 4)))
              || ((y =? 1) && ((z =? 1) || (z =? 3)))) then 2
  else 0.

Definition plate8_array (dt : dtype) : Array := mkArray plate8 dt plate8_values.

Definition plate8_blocks : list Block :=
  [make_block 0 (0, 0, 0) (4, 4, 5); make_block 1 (4, 0, 0) (4, 4, 5)].

(* ================================================================== *)
(** * Part II: properties *)
(* ================================================================== *)

(** ** Connectivity in a graph of labels *)

Section GraphFacts.

Variable E : list (Z * Z).

Lemma econn_trans x y z : econn E x y -> econn E y z -> econn E x z.
Proof.
  induction 1 as [x | x w y Hxw _ IH]; intros Hyz.
  - exact Hyz.
  - eapply econn_step; [exact Hxw | exact (IH Hyz)].
Qed.

Lemma econn_edge x y : In (x, y) E \/ In (y, x) E -> econn E x y.
Proof.
  intros H. eapply econn_step; [exact H | apply econn_refl].
Qed.

Lemma econn_sym x y : econn E x y -> econn E y x.
Proof.
  induction 1 as [x | x w y Hxw _ IH].
  - apply econn_refl.
  - eapply econn_trans; [exact IH |].
    apply econn_edge. tauto.
Qed.

(** A label that is on no edge is connected to itself only. *)
Lemma econn_isolated x y :
  ~ In x (endpoints E) -> econn E x y -> y = x.
Proof.
  intros Hx H. destruct H as [x | x w y Hxw _]; [reflexivity |].
  exfalso. apply Hx. unfold endpoints. apply in_flat_map.
  destruct Hxw as [Hin | Hin].
  - exists (x, w). split; [exact Hin | simpl; auto].
  - exists (w, x). split; [exact Hin | simpl; auto].
Qed.

(** Every label of a class other than the starting one is on an edge. *)
Lemma econn_endpoint x y :
  econn E x y -> y = x \/ In y (endpoints E).
Proof.
  induction 1 as [x | x w y Hxw Hwy IH]; [left; reflexivity |].
  right. destruct IH as [-> | Hin]; [| exact Hin].
  unfold endpoints. apply in_flat_map.
  destruct Hxw as [Hin | Hin].
  - exists (x, w). split; [exact Hin | simpl; auto].
  - exists (w, x). split; [exact Hin | simpl; auto].
Qed.

End GraphFacts.

Lemma econn_incl E E' x y :
  incl E E' -> econn E x y -> econn E' x y.
Proof.
  intros Hincl. induction 1 as [x | x w y Hxw _ IH].
  - apply econn_refl.
  - eapply econn_step; [| exact IH].
    destruct Hxw as [H | H]; [left | right]; apply Hincl; exact H.
Qed.

(** What one more edge adds to the classes. *)
Lemma econn_add u v E x y :
  econn ((u, v) :: E) x y ->
  econn E x y
  \/ (econn E x u /\ econn E v y)
  \/ (econn E x v /\ econn E u y).
Proof.
  induction 1 as [x | x w y Hxw _ IH].
  - left. apply econn_refl.
  - assert (Hcases : (x = u /\ w = v) \/ (x = v /\ w = u) \/ econn E x w).
    { destruct Hxw as [[Heq | Hin] | [Heq | Hin]].
      - inversion Heq. subst. left. split; reflexivity.
      - right. right. apply econn_edge. left. exact Hin.
      - inversion Heq. subst. right. left. split; reflexivity.
      - right. right. apply econn_edge. right. exact Hin. }
    destruct Hcases as [[-> ->] | [[-> ->] | Hxw']].
    + destruct IH as [H | [[_ H] | [_ H]]].
      * right. left. split; [apply econn_refl | exact H].
      * right. left. split; [apply econn_refl | exact H].
      * left. exact H.
    + destruct IH as [H | [[_ H] | [_ H]]].
      * right. right. split; [apply econn_refl | exact H].
      * left. exact H.
      * right. right. split; [apply econn_refl | exact H].
    + destruct IH as [H | [[H1 H2] | [H1 H2]]].
      * left. eapply econn_trans; eassumption.
      * right. left. split; [eapply econn_trans; eassumption | exact H2].
      * right. right. split; [eapply econn_trans; eassumption | exact H2].
Qed.

(** ** The union-find computes the least label of every class *)

Lemma find_rep_in t k :
  In k (map fst t) -> In (k, find_rep t k) t.
Proof.
  unfold find_rep. induction t as [| [k' r'] t IH]; simpl; intros Hin.
  - contradiction.
  - destruct (Z.eqb_spec k' k) as [-> | Hne].
    + left. reflexivity.
    + right. apply IH. destruct Hin as [Heq | Hin]; [contradiction | exact Hin].
Qed.

Lemma find_rep_absent t k :
  ~ In k (map fst t) -> find_rep t k = k.
Proof.
  unfold find_rep. induction t as [| [k' r'] t IH]; simpl; intros Hin.
  - reflexivity.
  - destruct (Z.eqb_spec k' k) as [-> | Hne].
    + exfalso. apply Hin. left. reflexivity.
    + apply IH. intros H. apply Hin. right. exact H.
Qed.

Lemma union_keys t e : map fst (union t e) = map fst t.
Proof.
  unfold union. rewrite map_map. simpl. reflexivity.
Qed.

Lemma fold_union_keys E t : map fst (fold_left union E t) = map fst t.
Proof.
  revert t. induction E as [| e E IH]; intros t; simpl.
  - reflexivity.
  - rewrite IH. apply union_keys.
Qed.

Lemma least_of_class_init keys : least_of_class [] (init keys).
Proof.
  intros k r Hin. unfold init in Hin. apply in_map_iff in Hin.
  destruct Hin as [k' [Heq _]]. inversion Heq. subst.
  split; [apply econn_refl |].
  intros y Hy. assert (y = r) by (apply (econn_isolated []); auto).
  lia.
Qed.

Lemma least_of_class_ext E E' t :
  incl E E' -> incl E' E -> least_of_class E t -> least_of_class E' t.
Proof.
  intros H1 H2 Hinv k r Hin. destruct (Hinv k r Hin) as [Hc Hmin].
  split.
  - eapply econn_incl; eassumption.
  - intros y Hy. apply Hmin. eapply econn_incl; eassumption.
Qed.

Lemma least_of_class_union E t u v :
  least_of_class E t ->
  In u (map fst t) -> In v (map fst t) ->
  least_of_class ((u, v) :: E) (union t (u, v)).
Proof.
  intros Hinv Hu Hv k r' Hin.
  unfold union in Hin. simpl in Hin.
  apply in_map_iff in Hin. destruct Hin as [[k0 r] [Heq Hin]].
  simpl in Heq. inversion Heq as [[Hk Hr]]. subst k0. clear Heq.
  set (a := find_rep t u) in *. set (b := find_rep t v) in *.
  destruct (Hinv u a (find_rep_in t u Hu)) as [Hua Hamin].
  destruct (Hinv v b (find_rep_in t v Hv)) as [Hvb Hbmin].
  destruct (Hinv k r Hin) as [Hkr Hrmin].
  assert (Hmono : forall x y, econn E x y -> econn ((u, v) :: E) x y).
  { intros x y. apply econn_incl. intros e He. right. exact He. }
  assert (Huv : econn ((u, v) :: E) u v).
  { apply econn_edge. left. left. reflexivity. }
  assert (Hm : forall y, econn ((u, v) :: E) k y ->
                 r <= y \/ (econn E k u /\ b <= y) \/ (econn E k v /\ a <= y)).
  { intros y Hy. apply econn_add in Hy.
    destruct Hy as [H | [[H1 H2] | [H1 H2]]]; auto. }
  destruct (Z.eqb_spec r a) as [Hra | Hra]; simpl.
  - (* the class of [k] is that of [u] *)
    subst r. assert (Hku : econn E k u).
    { eapply econn_trans; [exact Hkr | apply econn_sym; exact Hua]. }
    split.
    + destruct (Z.min_spec a b) as [[_ ->] | [_ ->]].
      * apply Hmono. exact Hkr.
      * eapply econn_trans; [apply Hmono; exact Hku |].
        eapply econn_trans; [exact Huv | apply Hmono; exact Hvb].
    + intros y Hy. destruct (Hm y Hy) as [H | [[_ H] | [_ H]]]; lia.
  - destruct (Z.eqb_spec r b) as [Hrb | Hrb]; simpl.
    + (* the class of [k] is that of [v] *)
      subst r. assert (Hkv : econn E k v).
      { eapply econn_trans; [exact Hkr | apply econn_sym; exact Hvb]. }
      split.
      * destruct (Z.min_spec a b) as [[_ ->] | [_ ->]].
        -- eapply econn_trans; [apply Hmono; exact Hkv |].
           eapply econn_trans; [apply econn_sym; exact Huv | apply Hmono; exact Hua].
        -- apply Hmono. exact Hkr.
      * intros y Hy. destruct (Hm y Hy) as [H | [[_ H] | [_ H]]]; lia.
    + (* the class of [k] is left alone *)
      assert (Hnu : ~ econn E k u).
      { intros Hku. apply Hra.
        assert (r <= a) by (apply Hrmin; eapply econn_trans; eassumption).
        assert (a <= r).
        { apply Hamin. eapply econn_trans; [apply econn_sym; exact Hku | exact Hkr]. }
        lia. }
      assert (Hnv : ~ econn E k v).
      { intros Hkv. apply Hrb.
        assert (r <= b) by (apply Hrmin; eapply econn_trans; eassumption).
        assert (b <= r).
        { apply Hbmin. eapply econn_trans; [apply econn_sym; exact Hkv | exact Hkr]. }
        lia. }
      split.
      * apply Hmono. exact Hkr.
      * intros y Hy. destruct (Hm y Hy) as [H | [[H _] | [H _]]];
          [exact H | contradiction | contradiction].
Qed.

Lemma least_of_class_fold E : forall P t,
  least_of_class P t ->
  incl (endpoints E) (map fst t) ->
  least_of_class (E ++ P) (fold_left union E t).
Proof.
  induction E as [| [u v] E IH]; intros E0 t Hinv Hkeys; simpl.
  - exact Hinv.
  - assert (Hu : In u (map fst t)) by (apply Hkeys; simpl; auto).
    assert (Hv : In v (map fst t)) by (apply Hkeys; simpl; auto).
    pose proof (least_of_class_union E0 t u v Hinv Hu Hv) as Hstep.
    assert (Hkeys' : incl (endpoints E) (map fst (union t (u, v)))).
    { rewrite union_keys. intros x Hx. apply Hkeys. simpl. auto. }
    pose proof (IH _ _ Hstep Hkeys') as Hfin.
    eapply least_of_class_ext; [| | exact Hfin].
    + intros e He. apply in_app_or in He. destruct He as [He | [He | He]].
      * right. apply in_or_app. left. exact He.
      * left. exact He.
      * right. apply in_or_app. right. exact He.
    + intros e [He | He].
      * apply in_or_app. right. left. exact He.
      * apply in_app_or in He. destruct He as [He | He].
        -- apply in_or_app. left. exact He.
        -- apply in_or_app. right. right. exact He.
Qed.

(** The representative that [resolve] gives a label: the least label of
    its class, also for a label outside the table. *)
Lemma resolve_least keys E k :
  incl (endpoints E) keys ->
  econn E k (find_rep (resolve keys E) k)
  /\ forall y, econn E k y -> find_rep (resolve keys E) k <= y.
Proof.
  intros Hkeys.
  assert (Hinv : least_of_class E (resolve keys E)).
  { unfold resolve.
    assert (H : least_of_class (E ++ []) (fold_left union E (init keys))).
    { apply least_of_class_fold; [apply least_of_class_init |].
      unfold init. rewrite map_map. simpl. rewrite map_id. exact Hkeys. }
    rewrite app_nil_r in H. exact H. }
  assert (Hk : map fst (resolve keys E) = keys).
  { unfold resolve. rewrite fold_union_keys. unfold init.
    rewrite map_map. simpl. apply map_id. }
  destruct (in_dec Z.eq_dec k keys) as [Hin | Hout].
  - apply Hinv. apply find_rep_in. rewrite Hk. exact Hin.
  - rewrite find_rep_absent by (rewrite Hk; exact Hout).
    split; [apply econn_refl |].
    intros y Hy. assert (y = k).
    { eapply econn_isolated; [| exact Hy]. intros H. apply Hout, Hkeys, H. }
    lia.
Qed.

Lemma resolve_same_class keys E x y :
  incl (endpoints E) keys ->
  (find_rep (resolve keys E) x = find_rep (resolve keys E) y <-> econn E x y).
Proof.
  intros Hkeys.
  destruct (resolve_least keys E x Hkeys) as [Hx Hxmin].
  destruct (resolve_least keys E y Hkeys) as [Hy Hymin].
  split.
  - intros Heq. eapply econn_trans; [exact Hx |].
    rewrite Heq. apply econn_sym. exact Hy.
  - intros Hxy.
    assert (find_rep (resolve keys E) x <= find_rep (resolve keys E) y).
    { apply Hxmin. eapply econn_trans; eassumption. }
    assert (find_rep (resolve keys E) y <= find_rep (resolve keys E) x).
    { apply Hymin. eapply econn_trans; [apply econn_sym; exact Hxy | exact Hx]. }
    lia.
Qed.

(** ** Sorted distinct values and rows *)

Lemma insert_value_in x y l : In x (insert_value y l) <-> x = y \/ In x l.
Proof.
  induction l as [| z l IH]; simpl.
  - intuition.
  - destruct (Z.ltb_spec y z); simpl; [intuition |].
    destruct (Z.eqb_spec y z) as [-> | Hne]; simpl; [intuition |].
    rewrite IH. intuition.
Qed.

Lemma unique_in x l : In x (unique l) <-> In x l.
Proof.
  induction l as [| z l IH]; simpl.
  - tauto.
  - unfold unique in *. simpl. rewrite insert_value_in, IH. intuition.
Qed.

Lemma row_eqb_eq p q : row_eqb p q = true -> p = q.
Proof.
  destruct p as [a b], q as [c d]. unfold row_eqb. simpl.
  intros H. apply andb_true_iff in H. destruct H as [H1 H2].
  apply Z.eqb_eq in H1, H2. subst. reflexivity.
Qed.

Lemma insert_row_in p q l : In p (insert_row q l) <-> p = q \/ In p l.
Proof.
  induction l as [| r l IH]; simpl.
  - intuition.
  - destruct (row_ltb q r); simpl; [intuition |].
    destruct (row_eqb q r) eqn:Heq; simpl.
    + apply row_eqb_eq in Heq. subst. intuition.
    + rewrite IH. intuition.
Qed.

Lemma unique_rows_in p l : In p (unique_rows l) <-> In p l.
Proof.
  induction l as [| r l IH]; simpl.
  - tauto.
  - unfold unique_rows in *. simpl. rewrite insert_row_in, IH. intuition.
Qed.

(** ** Indices, bounds and flat positions *)

Lemma zrange_in n z : In z (zrange n) <-> 0 <= z < n.
Proof.
  unfold zrange. rewrite in_map_iff. split.
  - intros [k [<- Hk]]. apply in_seq in Hk. lia.
  - intros Hz. exists (Z.to_nat z). split; [lia |]. apply in_seq. lia.
Qed.

Lemma in_bounds_iff sx sy sz x y z :
  in_bounds (sx, sy, sz) (x, y, z) = true
  <-> 0 <= x < sx /\ 0 <= y < sy /\ 0 <= z < sz.
Proof.
  unfold in_bounds. rewrite !andb_true_iff, !Z.leb_le, !Z.ltb_lt. lia.
Qed.

Lemma indices_in sh i : In i (indices sh) <-> in_bounds sh i = true.
Proof.
  destruct sh as [[sx sy] sz], i as [[x y] z].
  rewrite in_bounds_iff. unfold indices. rewrite in_flat_map. split.
  - intros [x' [Hx H]]. apply in_flat_map in H. destruct H as [y' [Hy H]].
    apply in_map_iff in H. destruct H as [z' [Heq Hz]].
    inversion Heq. subst. apply zrange_in in Hx, Hy, Hz. lia.
  - intros [Hx [Hy Hz]]. exists x. split; [apply zrange_in; lia |].
    apply in_flat_map. exists y. split; [apply zrange_in; lia |].
    apply in_map_iff. exists z. split; [reflexivity | apply zrange_in; lia].
Qed.

Lemma digits_unique n a b a' b' :
  a * n + b = a' * n + b' -> 0 <= b < n -> 0 <= b' < n -> a = a' /\ b = b'.
Proof.
  intros Heq Hb Hb'.
  assert (a = a') by nia. subst. lia.
Qed.

Lemma ravel_injective sh i j :
  in_bounds sh i = true -> in_bounds sh j = true ->
  ravel sh i = ravel sh j -> i = j.
Proof.
  destruct sh as [[sx sy] sz], i as [[x y] z], j as [[x' y'] z'].
  rewrite !in_bounds_iff. unfold ravel. intros Hi Hj Heq.
  apply digits_unique in Heq; [| lia | lia]. destruct Heq as [Heq ->].
  apply digits_unique in Heq; [| lia | lia]. destruct Heq as [-> ->].
  reflexivity.
Qed.

Lemma zrange_length n : 0 <= n -> Z.of_nat (length (zrange n)) = n.
Proof.
  intros Hn. unfold zrange. rewrite length_map, length_seq. lia.
Qed.

Lemma flat_map_length_const {A B : Type} (f : A -> list B) (l : list A) (n : nat) :
  (forall x, length (f x) = n) -> length (flat_map f l) = (length l * n)%nat.
Proof.
  intros Hf. induction l as [| x l IH]; simpl; [reflexivity |].
  rewrite length_app, Hf, IH. lia.
Qed.

Lemma indices_length sx sy sz :
  0 <= sx -> 0 <= sy -> 0 <= sz ->
  Z.of_nat (length (indices (sx, sy, sz))) = sx * sy * sz.
Proof.
  intros Hx Hy Hz. unfold indices.
  rewrite (flat_map_length_const _ _ (length (zrange sy) * length (zrange sz))%nat).
  - rewrite !Nat2Z.inj_mul, !zrange_length by lia. lia.
  - intros x. rewrite (flat_map_length_const _ _ (length (zrange sz))).
    + reflexivity.
    + intros y. apply length_map.
Qed.

Lemma face_in sh d pos i :
  In i (face sh d pos)
  <-> in_bounds sh i = true /\ axis d i = (if pos then axis d sh - 1 else 0).
Proof.
  unfold face. rewrite filter_In, indices_in, Z.eqb_eq. tauto.
Qed.

(** ** Counting with filters *)

Lemma filter_length_le {A : Type} (f : A -> bool) (l : list A) :
  (length (filter f l) <= length l)%nat.
Proof.
  induction l as [| x l IH]; simpl; [lia |].
  destruct (f x); simpl; lia.
Qed.

Lemma filter_length_lt {A : Type} (f g : A -> bool) (l : list A) (x : A) :
  (forall y, f y = true -> g y = true) ->
  In x l -> g x = true -> f x = false ->
  (length (filter f l) < length (filter g l))%nat.
Proof.
  intros Himp. induction l as [| y l IH]; simpl; intros Hin Hg Hf.
  - contradiction.
  - assert (Hle : (length (filter f l) <= length (filter g l))%nat).
    { clear -Himp. induction l as [| z l IH]; simpl; [lia |].
      destruct (f z) eqn:Hfz.
      - rewrite (Himp z Hfz). simpl. lia.
      - destruct (g z); simpl; lia. }
    destruct Hin as [-> | Hin].
    + rewrite Hf, Hg. simpl. lia.
    + specialize (IH Hin Hg Hf). destruct (f y) eqn:Hfy.
      * rewrite (Himp y Hfy). simpl. lia.
      * destruct (g y); simpl; lia.
Qed.

(** ** Paths of equal nonzero values *)

Lemma face_adjacent_sym p q : face_adjacent p q -> face_adjacent q p.
Proof.
  intros [d [Hd H]]. exists d. split; [exact Hd | tauto].
Qed.

Section JoinedFacts.

Variable dom : Coordinate -> bool.
Variable val : Coordinate -> Z.

Lemma joined_start p q : joined dom val p q -> dom p = true /\ val p <> 0.
Proof.
  intros H. destruct H; split; assumption.
Qed.

Lemma joined_end p q :
  joined dom val p q -> dom q = true /\ val q = val p.
Proof.
  induction 1 as [p Hd Hv | p q s Hd Hv Hadj Heq _ [IH1 IH2]].
  - split; [exact Hd | reflexivity].
  - split; [exact IH1 | congruence].
Qed.

Lemma joined_trans p q s :
  joined dom val p q -> joined dom val q s -> joined dom val p s.
Proof.
  induction 1 as [p Hd Hv | p q' s' Hd Hv Hadj Heq _ IH]; intros Hqs.
  - exact Hqs.
  - eapply joined_step; eauto.
Qed.

Lemma joined_sym p q : joined dom val p q -> joined dom val q p.
Proof.
  induction 1 as [p Hd Hv | p q s Hd Hv Hadj Heq Hqs IH].
  - apply joined_refl; assumption.
  - eapply joined_trans; [exact IH |].
    destruct (joined_start _ _ Hqs) as [Hdq Hvq].
    eapply joined_step; [exact Hdq | exact Hvq | | | apply joined_refl; assumption].
    + apply face_adjacent_sym. exact Hadj.
    + congruence.
Qed.

End JoinedFacts.

Arguments joined_start {dom val p q}.
Arguments joined_end {dom val p q}.

(** Paths are carried along a translation that respects the domain and
    the values. *)
Lemma joined_translate dom val dom' val' (f : Coordinate -> Coordinate) p q :
  (forall x, dom x = true -> dom' (f x) = true) ->
  (forall x, dom x = true -> val' (f x) = val x) ->
  (forall x y, face_adjacent x y -> face_adjacent (f x) (f y)) ->
  joined dom val p q -> joined dom' val' (f p) (f q).
Proof.
  intros Hdom Hval Hadj. induction 1 as [p Hd Hv | p q s Hd Hv Ha Heq Hqs IH].
  - apply joined_refl; [apply Hdom; exact Hd | rewrite Hval; assumption].
  - destruct (joined_start Hqs) as [Hdq _].
    eapply joined_step; [apply Hdom; exact Hd | rewrite Hval; assumption
                        | apply Hadj; exact Ha | | exact IH].
    rewrite !Hval; assumption.
Qed.

(** ** The labelling primitive meets its contract *)

Section LabelSpec.

Variable a : ndarray.

Let sh := nd_shape a.
Let E := label_edges a.
Let keys := map (ravel sh) (indices sh).
Let t := resolve keys E.
Let root (i : Coordinate) := find_rep t (ravel sh i).
Let roots := label_roots a t.
Let nconn := joined (in_bounds sh) (nd_get a).

Lemma label_edges_in x y :
  In (x, y) E <->
  exists i d, in_bounds sh i = true /\ (d < 3)%nat
    /\ in_bounds sh (cadd i (unit_vec d)) = true
    /\ nd_get a i <> 0 /\ nd_get a i = nd_get a (cadd i (unit_vec d))
    /\ x = ravel sh i /\ y = ravel sh (cadd i (unit_vec d)).
Proof.
  unfold E, label_edges. fold sh. rewrite in_flat_map. split.
  - intros [i [Hi H]]. apply in_flat_map in H. destruct H as [d [Hd H]].
    destruct (in_bounds sh (cadd i (unit_vec d))) eqn:Hb; simpl in H; [| contradiction].
    destruct (Z.eqb_spec (nd_get a i) 0) as [Hz | Hz]; simpl in H; [contradiction |].
    destruct (Z.eqb_spec (nd_get a i) (nd_get a (cadd i (unit_vec d)))) as [Hv | Hv];
      simpl in H; [| contradiction].
    destruct H as [H | []]. inversion H. subst.
    exists i, d. apply indices_in in Hi.
    repeat split; try assumption.
    simpl in Hd. lia.
  - intros [i [d [Hi [Hd [Hb [Hz [Hv [-> ->]]]]]]]].
    exists i. split; [apply indices_in; exact Hi |].
    apply in_flat_map. exists d. split.
    + simpl. lia.
    + rewrite Hb. simpl.
      destruct (Z.eqb_spec (nd_get a i) 0) as [Hz' | _]; [contradiction |]. simpl.
      destruct (Z.eqb_spec (nd_get a i) (nd_get a (cadd i (unit_vec d)))) as [_ | Hv'];
        [| contradiction].
      left. reflexivity.
Qed.

Lemma label_edges_keys : incl (endpoints E) keys.
Proof.
  intros k Hk. unfold endpoints in Hk. apply in_flat_map in Hk.
  destruct Hk as [[x y] [He Hk]]. apply label_edges_in in He.
  destruct He as [i [d [Hi [_ [Hb [_ [_ [-> ->]]]]]]]].
  unfold keys. simpl in Hk.
  destruct Hk as [<- | [<- | []]]; apply in_map; apply indices_in; assumption.
Qed.

Lemma econn_nconn k k' :
  econn E k k' ->
  forall i, k = ravel sh i -> in_bounds sh i = true -> nd_get a i <> 0 ->
  exists j, k' = ravel sh j /\ nconn i j.
Proof.
  induction 1 as [k | k y k' Hky _ IH]; intros i Hk Hi Hz.
  - exists i. split; [exact Hk | apply joined_refl; assumption].
  - destruct Hky as [He | He]; apply label_edges_in in He;
      destruct He as [i' [d [Hi' [Hd [Hb [Hz' [Hv [Hx Hy]]]]]]]].
    + assert (i' = i) by (apply (ravel_injective sh); congruence). subst i'.
      destruct (IH _ Hy Hb ltac:(congruence)) as [j [Hj Hpath]].
      exists j. split; [exact Hj |].
      eapply joined_step; [exact Hi | exact Hz | | | exact Hpath].
      * exists d. split; [exact Hd | left; reflexivity].
      * congruence.
    + assert (cadd i' (unit_vec d) = i) by (apply (ravel_injective sh); congruence).
      subst i.
      destruct (IH _ Hx Hi' Hz') as [j [Hj Hpath]].
      exists j. split; [exact Hj |].
      eapply joined_step; [exact Hb | exact Hz | | | exact Hpath].
      * exists d. split; [exact Hd | right; reflexivity].
      * congruence.
Qed.

Lemma nconn_econn i j : nconn i j -> econn E (ravel sh i) (ravel sh j).
Proof.
  induction 1 as [p Hd Hv | p q s Hd Hv Hadj Heq Hqs IH].
  - apply econn_refl.
  - eapply econn_step; [| exact IH].
    destruct (joined_start Hqs) as [Hdq Hvq].
    destruct Hadj as [d [Hlt [-> | ->]]].
    + left. apply label_edges_in. exists p, d.
      repeat split; try assumption. congruence.
    + right. apply label_edges_in. exists q, d.
      repeat split; try assumption.
Qed.

(** The root of a foreground element: the first element of its class. *)
Lemma root_is_root i :
  in_bounds sh i = true -> nd_get a i <> 0 ->
  exists i0, root i = ravel sh i0 /\ nconn i i0 /\ In i0 roots.
Proof.
  intros Hi Hz.
  destruct (resolve_least keys E (ravel sh i) label_edges_keys) as [Hc _].
  destruct (econn_nconn _ _ Hc i eq_refl Hi Hz) as [i0 [Hr Hpath]].
  exists i0. split; [exact Hr | split; [exact Hpath |]].
  destruct (joined_end Hpath) as [Hi0 Hv0].
  unfold roots, label_roots. fold sh. apply filter_In. split.
  - apply indices_in. exact Hi0.
  - apply andb_true_iff. split.
    + apply negb_true_iff. apply Z.eqb_neq. congruence.
    + apply Z.eqb_eq.
      transitivity (find_rep (resolve keys E) (ravel sh i)); [| exact Hr].
      apply resolve_same_class; [exact label_edges_keys |].
      apply econn_sym. apply nconn_econn. exact Hpath.
Qed.

Lemma label_get i :
  nd_get (label a) i =
  if nd_get a i =? 0 then 0
  else 1 + Z.of_nat (length (filter (fun r => ravel sh r <? root i) roots)).
Proof. reflexivity. Qed.

Lemma label_shape : nd_shape (label a) = nd_shape a.
Proof. reflexivity. Qed.

(** The background keeps 0. *)
Lemma label_background i : nd_get a i = 0 -> nd_get (label a) i = 0.
Proof.
  intros Hz. rewrite label_get, Hz. reflexivity.
Qed.

(** A foreground element gets a label between 1 and the number of
    elements. *)
Lemma label_range i :
  in_bounds sh i = true -> nd_get a i <> 0 ->
  1 <= nd_get (label a) i <= Z.of_nat (length (indices sh)).
Proof.
  intros Hi Hz. rewrite label_get.
  destruct (Z.eqb_spec (nd_get a i) 0) as [Hz' | _]; [contradiction |].
  destruct (root_is_root i Hi Hz) as [i0 [Hr [_ Hin]]].
  assert (Hlt : (length (filter (fun r => (ravel sh r <? root i)%Z) roots)
                 < length (filter (fun _ => true) roots))%nat).
  { apply filter_length_lt with (x := i0); auto.
    rewrite Hr. apply Z.ltb_irrefl. }
  pose proof (filter_length_le (fun _ : Coordinate => true) roots) as H1.
  assert (H2 : (length roots <= length (indices sh))%nat).
  { unfold roots, label_roots. fold sh. apply filter_length_le. }
  lia.
Qed.

(** Two foreground elements get the same label exactly when a path of
    equal values joins them. *)
Lemma label_same i j :
  in_bounds sh i = true -> nd_get a i <> 0 ->
  in_bounds sh j = true -> nd_get a j <> 0 ->
  (nd_get (label a) i = nd_get (label a) j <-> nconn i j).
Proof.
  intros Hi Hzi Hj Hzj. rewrite !label_get.
  destruct (Z.eqb_spec (nd_get a i) 0) as [Hz' | _]; [contradiction |].
  destruct (Z.eqb_spec (nd_get a j) 0) as [Hz' | _]; [contradiction |].
  destruct (root_is_root i Hi Hzi) as [i0 [Hri [Hpi Hini]]].
  destruct (root_is_root j Hj Hzj) as [j0 [Hrj [Hpj Hinj]]].
  assert (Hstrict : forall r0 m1 m2, In r0 roots -> m1 = ravel sh r0 -> m1 < m2 ->
     (length (filter (fun r => (ravel sh r <? m1)%Z) roots)
      < length (filter (fun r => (ravel sh r <? m2)%Z) roots))%nat).
  { intros r0 m1 m2 Hin Hm Hlt. apply filter_length_lt with (x := r0).
    - intros y Hy. apply Z.ltb_lt in Hy. apply Z.ltb_lt. lia.
    - exact Hin.
    - apply Z.ltb_lt. lia.
    - subst m1. apply Z.ltb_irrefl. }
  split.
  - intros Heq.
    assert (Hroot : root i = root j).
    { destruct (Z.lt_trichotomy (root i) (root j)) as [Hlt | [Heq' | Hgt]].
      - pose proof (Hstrict i0 _ _ Hini Hri Hlt). lia.
      - exact Heq'.
      - pose proof (Hstrict j0 _ _ Hinj Hrj Hgt). lia. }
    unfold root, t in Hroot.
    apply (resolve_same_class keys E _ _ label_edges_keys) in Hroot.
    destruct (econn_nconn _ _ Hroot i eq_refl Hi Hzi) as [j' [Hj' Hpath]].
    destruct (joined_end Hpath) as [Hbj' _].
    assert (j = j') by (apply (ravel_injective sh); assumption).
    subst j'. exact Hpath.
  - intros Hpath.
    assert (Hroot : root i = root j).
    { unfold root, t. apply resolve_same_class; [exact label_edges_keys |].
      apply nconn_econn. exact Hpath. }
    rewrite Hroot. reflexivity.
Qed.

End LabelSpec.

(** ** Coordinates *)

Ltac coords :=
  repeat match goal with
         | p : Coordinate |- _ => destruct p as [[? ?] ?]
         end.

Lemma csub_cadd o i : csub (cadd o i) o = i.
Proof. coords. simpl. f_equal; [f_equal |]; lia. Qed.

Lemma cadd_csub o p : cadd o (csub p o) = p.
Proof. coords. simpl. f_equal; [f_equal |]; lia. Qed.

Lemma cadd_assoc o i j : cadd (cadd o i) j = cadd o (cadd i j).
Proof. coords. simpl. f_equal; [f_equal |]; lia. Qed.

Lemma csub_cadd_distr p o u : csub (cadd p u) o = cadd (csub p o) u.
Proof. coords. simpl. f_equal; [f_equal |]; lia. Qed.

Lemma coord_eqb_eq p q : coord_eqb p q = true <-> p = q.
Proof.
  coords. unfold coord_eqb. rewrite !andb_true_iff, !Z.eqb_eq. split.
  - intros [[-> ->] ->]. reflexivity.
  - intros H. inversion H. auto.
Qed.

Lemma roi_eqb_eq r s : roi_eqb r s = true <-> r = s.
Proof.
  destruct r as [o1 s1], s as [o2 s2]. unfold roi_eqb. simpl.
  rewrite andb_true_iff, !coord_eqb_eq. split.
  - intros [-> ->]. reflexivity.
  - intros H. inversion H. auto.
Qed.

Lemma block_eqb_eq b c : block_eqb b c = true <-> b = c.
Proof.
  destruct b as [i1 r1 w1], c as [i2 r2 w2]. unfold block_eqb. simpl.
  rewrite !andb_true_iff, Z.eqb_eq, !roi_eqb_eq. split.
  - intros [[-> ->] ->]. reflexivity.
  - intros H. inversion H. auto.
Qed.

Lemma existsb_block_eqb b l : existsb (block_eqb b) l = true <-> In b l.
Proof.
  rewrite existsb_exists. split.
  - intros [c [Hin Heq]]. apply block_eqb_eq in Heq. subst. exact Hin.
  - intros Hin. exists b. split; [exact Hin | apply block_eqb_eq; reflexivity].
Qed.

Lemma face_adjacent_cadd o p q :
  face_adjacent p q -> face_adjacent (cadd o p) (cadd o q).
Proof.
  intros [d [Hd [-> | ->]]]; exists d; (split; [exact Hd |]).
  - left. symmetry. apply cadd_assoc.
  - right. symmetry. apply cadd_assoc.
Qed.

Lemma face_adjacent_csub o p q :
  face_adjacent p q -> face_adjacent (csub p o) (csub q o).
Proof.
  intros [d [Hd [-> | ->]]]; exists d; (split; [exact Hd |]).
  - left. apply csub_cadd_distr.
  - right. apply csub_cadd_distr.
Qed.

Lemma voxels_in r p : In p (voxels r) <-> contains r p = true.
Proof.
  unfold voxels, contains. rewrite in_map_iff. split.
  - intros [i [<- Hi]]. rewrite csub_cadd. apply indices_in. exact Hi.
  - intros H. exists (csub p (roi_offset r)). split.
    + apply cadd_csub.
    + apply indices_in. exact H.
Qed.

Lemma crop_get a i : nd_get (crop a) i = nd_get a (cadd i ones).
Proof.
  unfold crop. destruct (nd_shape a) as [[sx sy] sz]. reflexivity.
Qed.

(** ** Casts *)

(** A cast keeps the value modulo [2 ^ w]. *)
Lemma wrap_mod dt x : wrap dt x mod 2 ^ dt_bits dt = x mod 2 ^ dt_bits dt.
Proof.
  unfold wrap. destruct (dt_signed dt).
  - rewrite Zminus_mod_idemp_l. f_equal. lia.
  - apply Zmod_mod.
Qed.

(** A cast keeps a value of the range of the dtype. *)
Lemma wrap_small dt x : dtype_min dt <= x <= dtype_max dt -> wrap dt x = x.
Proof.
  unfold wrap, dtype_min, dtype_max. destruct (dt_signed dt); intros H.
  - destruct (Z.le_gt_cases 1 (dt_bits dt)) as [Hw | Hw].
    + assert (Hpow : 2 ^ dt_bits dt = 2 * 2 ^ (dt_bits dt - 1)).
      { rewrite <- Z.pow_succ_r by lia. f_equal. lia. }
      rewrite Z.mod_small by lia. lia.
    + rewrite Z.pow_neg_r in H by lia. lia.
  - apply Z.mod_small. lia.
Qed.

(** Casting the first summand before the addition changes nothing. *)
Lemma wrap_add dt x c : wrap dt (wrap dt x + c) = wrap dt (x + c).
Proof.
  unfold wrap. destruct (dt_signed dt).
  - f_equal.
    replace ((x + 2 ^ (dt_bits dt - 1)) mod 2 ^ dt_bits dt - 2 ^ (dt_bits dt - 1)
             + c + 2 ^ (dt_bits dt - 1))
      with ((x + 2 ^ (dt_bits dt - 1)) mod 2 ^ dt_bits dt + c) by lia.
    rewrite Zplus_mod_idemp_l. f_equal. lia.
  - apply Zplus_mod_idemp_l.
Qed.

Lemma dtype_max_lt dt : dtype_max dt < 2 ^ dt_bits dt.
Proof.
  unfold dtype_max. destruct (dt_signed dt); [| lia].
  destruct (Z.le_gt_cases 1 (dt_bits dt)) as [Hw | Hw].
  - assert (Hpow : 2 ^ dt_bits dt = 2 * 2 ^ (dt_bits dt - 1)).
    { rewrite <- Z.pow_succ_r by lia. f_equal. lia. }
    assert (0 < 2 ^ (dt_bits dt - 1)) by (apply Z.pow_pos_nonneg; lia). lia.
  - rewrite (Z.pow_neg_r 2 (dt_bits dt - 1)) by lia.
    pose proof (Z.pow_nonneg 2 (dt_bits dt)). lia.
Qed.

Lemma dtype_min_le dt : dtype_min dt <= 0.
Proof.
  unfold dtype_min. destruct (dt_signed dt); [| lia].
  pose proof (Z.pow_nonneg 2 (dt_bits dt - 1)). lia.
Qed.

(** ** What a block computes *)

Section BlockFacts.

Variable array_in : Array.
Variable nvox : Z.
Variable b : Block.

Let dt := arr_dtype array_in.
Let w := dt_bits dt.
Let labels := to_ndarray array_in (read_roi b) 0.
Let roff := roi_offset (read_roi b).

Lemma labels_get p : nd_get labels (csub p roff) = value_at array_in p.
Proof.
  unfold labels, to_ndarray, value_at. simpl. fold roff.
  rewrite cadd_csub. reflexivity.
Qed.

Lemma block_components_shape :
  nd_shape (block_components array_in nvox b) = roi_shape (read_roi b).
Proof. reflexivity. Qed.

Lemma block_label_unfold p :
  block_label array_in nvox b p =
  if value_at array_in p =? 0 then 0
  else wrap dt (wrap dt (nd_get (label labels) (csub p roff)) + block_id b * nvox).
Proof.
  unfold block_label, block_components. fold labels roff.
  unfold zero_where_zero, iadd, astype. cbn [nd_get nd_dtype nd_shape].
  rewrite labels_get. reflexivity.
Qed.

(** The background is never labelled. *)
Lemma block_label_background p :
  value_at array_in p = 0 -> block_label array_in nvox b p = 0.
Proof.
  intros H. rewrite block_label_unfold, H. reflexivity.
Qed.

(** Paths inside the read region, in the array of the block and in the
    volume. *)
Lemma labels_joined p q :
  joined (in_bounds (nd_shape labels)) (nd_get labels) (csub p roff) (csub q roff)
  <-> connected_in array_in (read_roi b) p q.
Proof.
  unfold connected_in. split; intros H.
  - apply (joined_translate (in_bounds (nd_shape labels)) (nd_get labels)
             (contains (read_roi b)) (value_at array_in) (cadd roff)) in H.
    + rewrite !cadd_csub in H. exact H.
    + intros x Hx. unfold contains. fold roff. rewrite csub_cadd. exact Hx.
    + intros x _. rewrite <- labels_get. rewrite csub_cadd. reflexivity.
    + intros x y. apply face_adjacent_cadd.
  - apply (joined_translate (contains (read_roi b)) (value_at array_in)
             (in_bounds (nd_shape labels)) (nd_get labels)
             (fun x => csub x roff)) in H.
    + exact H.
    + intros x Hx. exact Hx.
    + intros x _. apply labels_get.
    + intros x y. apply face_adjacent_csub.
Qed.

(** Voxels joined inside the read region get the same label, whatever
    the dtype does. *)
Lemma block_label_joined p q :
  connected_in array_in (read_roi b) p q ->
  block_label array_in nvox b p = block_label array_in nvox b q.
Proof.
  intros H. rewrite !block_label_unfold.
  destruct (joined_start H) as [Hp Hvp].
  destruct (joined_end H) as [Hq Hvq].
  rewrite Hvq.
  destruct (Z.eqb_spec (value_at array_in p) 0) as [| _]; [reflexivity |].
  assert (Heq : nd_get (label labels) (csub p roff)
                = nd_get (label labels) (csub q roff)).
  { apply label_same.
    - exact Hp.
    - rewrite labels_get. exact Hvp.
    - exact Hq.
    - rewrite labels_get. congruence.
    - apply labels_joined. exact H. }
  rewrite Heq. reflexivity.
Qed.

(** The label of a foreground voxel: the offset of the block plus the
    local label, cast to the dtype. *)
Lemma block_label_wrap p :
  value_at array_in p <> 0 ->
  block_label array_in nvox b p
  = wrap dt (block_id b * nvox + nd_get (label labels) (csub p roff)).
Proof.
  intros Hv. rewrite block_label_unfold.
  destruct (Z.eqb_spec (value_at array_in p) 0) as [| _]; [contradiction |].
  rewrite wrap_add. f_equal. lia.
Qed.

(** From here on the labels of the block fit the dtype. *)
Hypothesis Hid : 0 <= block_id b.
Hypothesis Hsize : Z.of_nat (length (indices (roi_shape (read_roi b)))) <= nvox.
Hypothesis Hfit : (block_id b + 1) * nvox < 2 ^ w.

Lemma local_label_range p :
  contains (read_roi b) p = true -> value_at array_in p <> 0 ->
  1 <= nd_get (label labels) (csub p roff) <= nvox.
Proof.
  intros Hp Hv.
  assert (Hr : 1 <= nd_get (label labels) (csub p roff)
               <= Z.of_nat (length (indices (nd_shape labels)))).
  { apply label_range; [exact Hp | rewrite labels_get; exact Hv]. }
  change (nd_shape labels) with (roi_shape (read_roi b)) in Hr. lia.
Qed.

(** The label of a foreground voxel, modulo [2 ^ w]: the offset of the
    block plus the local label. *)
Lemma block_label_mod p :
  contains (read_roi b) p = true -> value_at array_in p <> 0 ->
  block_label array_in nvox b p mod 2 ^ w
  = block_id b * nvox + nd_get (label labels) (csub p roff)
  /\ 1 <= nd_get (label labels) (csub p roff) <= nvox.
Proof.
  intros Hp Hv. pose proof (local_label_range p Hp Hv) as Hr.
  split; [| exact Hr]. rewrite block_label_unfold.
  destruct (Z.eqb_spec (value_at array_in p) 0) as [| _]; [contradiction |].
  unfold w. rewrite wrap_mod, <- Zplus_mod_idemp_l, wrap_mod, Zplus_mod_idemp_l.
  fold w. rewrite Z.mod_small by nia. lia.
Qed.

(** When the labels of the block are values of the dtype, the label of a
    foreground voxel is the offset of the block plus the local label. *)
Lemma block_label_exact p :
  (block_id b + 1) * nvox <= dtype_max dt ->
  contains (read_roi b) p = true -> value_at array_in p <> 0 ->
  block_label array_in nvox b p
  = block_id b * nvox + nd_get (label labels) (csub p roff)
  /\ 1 <= nd_get (label labels) (csub p roff) <= nvox.
Proof.
  intros Hrep Hp Hv. pose proof (local_label_range p Hp Hv) as Hr.
  split; [| exact Hr]. rewrite block_label_unfold.
  destruct (Z.eqb_spec (value_at array_in p) 0) as [| _]; [contradiction |].
  pose proof (dtype_min_le dt) as Hmin.
  rewrite (wrap_small dt (nd_get (label labels) (csub p roff))) by nia.
  rewrite wrap_small by nia. lia.
Qed.

(** A foreground voxel gets a label in the range of its block, modulo
    [2 ^ w]. *)
Lemma block_label_range p :
  contains (read_roi b) p = true -> value_at array_in p <> 0 ->
  block_id b * nvox < block_label array_in nvox b p mod 2 ^ w
                    <= (block_id b + 1) * nvox.
Proof.
  intros Hp Hv. destruct (block_label_mod p Hp Hv) as [-> Hr]. lia.
Qed.

(** Two foreground voxels of the read region with the same label are
    joined inside it. *)
Lemma block_label_same p q :
  contains (read_roi b) p = true -> value_at array_in p <> 0 ->
  contains (read_roi b) q = true -> value_at array_in q <> 0 ->
  block_label array_in nvox b p = block_label array_in nvox b q ->
  connected_in array_in (read_roi b) p q.
Proof.
  intros Hp Hvp Hq Hvq Heq.
  destruct (block_label_mod p Hp Hvp) as [Ep _].
  destruct (block_label_mod q Hq Hvq) as [Eq _].
  rewrite Heq in Ep.
  apply labels_joined. apply label_same.
  - exact Hp.
  - rewrite labels_get. exact Hvp.
  - exact Hq.
  - rewrite labels_get. exact Hvq.
  - lia.
Qed.

End BlockFacts.

(** ** Lists *)

Lemma distinct_injective {A : Type} (f : A -> Z) (l : list A) x y :
  distinct (map f l) = true -> In x l -> In y l -> f x = f y -> x = y.
Proof.
  induction l as [| z l IH]; simpl; intros Hd Hx Hy Heq; [contradiction |].
  apply andb_true_iff in Hd. destruct Hd as [Hz Hd].
  apply negb_true_iff in Hz.
  assert (Hfresh : forall u, In u l -> f z <> f u).
  { intros u Hu Hzu.
    assert (existsb (Z.eqb (f z)) (map f l) = true); [| congruence].
    apply existsb_exists. exists (f u). split; [apply in_map; exact Hu |].
    apply Z.eqb_eq. exact Hzu. }
  destruct Hx as [-> | Hx], Hy as [-> | Hy].
  - reflexivity.
  - exfalso. exact (Hfresh y Hy Heq).
  - exfalso. apply (Hfresh x Hx). congruence.
  - apply IH; assumption.
Qed.

Lemma filter_one_unique {A : Type} (f : A -> bool) (l : list A) x y :
  length (filter f l) = 1%nat ->
  In x l -> f x = true -> In y l -> f y = true -> x = y.
Proof.
  induction l as [| z l IH]; simpl; intros Hlen Hx Hfx Hy Hfy; [contradiction |].
  destruct (f z) eqn:Hfz.
  - simpl in Hlen.
    assert (Hnone : forall u, In u l -> f u = true -> False).
    { intros u Hu Hfu.
      assert (Hin : In u (filter f l)) by (apply filter_In; auto).
      destruct (filter f l); [contradiction | discriminate]. }
    destruct Hx as [-> | Hx]; [| exfalso; eauto].
    destruct Hy as [-> | Hy]; [reflexivity | exfalso; eauto].
  - destruct Hx as [-> | Hx]; [congruence |].
    destruct Hy as [-> | Hy]; [congruence |].
    apply IH; assumption.
Qed.

Lemma filter_one_exists {A : Type} (f : A -> bool) (l : list A) :
  length (filter f l) = 1%nat -> exists x, In x l /\ f x = true.
Proof.
  intros Hlen. destruct (filter f l) as [| x r] eqn:Hf; [discriminate |].
  exists x. apply filter_In. rewrite Hf. left. reflexivity.
Qed.

Lemma find_unique {A : Type} (f : A -> bool) (l : list A) x :
  In x l -> f x = true ->
  (forall y, In y l -> f y = true -> y = x) ->
  find f l = Some x.
Proof.
  induction l as [| z l IH]; simpl; intros Hx Hfx Hu; [contradiction |].
  destruct (f z) eqn:Hfz.
  - f_equal. apply Hu; auto.
  - destruct Hx as [-> | Hx]; [congruence |].
    apply IH; auto.
Qed.

Lemma savez_in t id f id' f' :
  In (id', f') (savez t id f) -> (id' = id /\ f' = f) \/ In (id', f') t.
Proof.
  induction t as [| [i g] t IH]; simpl.
  - intros [H | []]. inversion H. auto.
  - destruct (Z.eqb_spec i id) as [-> | Hne]; simpl.
    + intros [H | H]; [inversion H; auto | auto].
    + intros [H | H]; [auto |]. destruct (IH H); auto.
Qed.

Lemma savez_new t id f : In (id, f) (savez t id f).
Proof.
  induction t as [| [i g] t IH]; simpl.
  - left. reflexivity.
  - destruct (Z.eqb_spec i id) as [-> | Hne]; simpl; auto.
Qed.

Lemma savez_keep t id f id' f' :
  id' <> id -> In (id', f') t -> In (id', f') (savez t id f).
Proof.
  intros Hne. induction t as [| [i g] t IH]; simpl; [tauto |].
  destruct (Z.eqb_spec i id) as [-> | Hne']; simpl.
  - intros [H | H]; [inversion H; congruence | auto].
  - intros [H | H]; auto.
Qed.

Lemma savez_nonempty t id f : savez t id f <> [].
Proof.
  destruct t as [| [i g] t]; simpl; [discriminate |].
  destruct (i =? id); discriminate.
Qed.

(** ** What a block records *)

Lemma boundary_pairs_in components neighbors u v :
  In (u, v) (boundary_pairs components neighbors) <->
  exists d pos i, (d < 3)%nat
    /\ In i (face (nd_shape components) d pos)
    /\ u = nd_get components i /\ v = nd_get neighbors i.
Proof.
  unfold boundary_pairs. rewrite in_flat_map. split.
  - intros [d [Hd H]]. apply (proj1 (unique_rows_in _ _)) in H.
    apply in_app_or in H. unfold pair_rows in H.
    assert (Hd' : (d < 3)%nat) by (simpl in Hd; lia).
    destruct H as [H | H]; apply in_map_iff in H;
      destruct H as [i [Heq Hi]]; inversion Heq; subst.
    + exists d, false, i. auto.
    + exists d, true, i. auto.
  - intros [d [pos [i [Hd [Hi [-> ->]]]]]].
    exists d. split; [simpl; lia |].
    apply unique_rows_in. apply in_or_app. unfold pair_rows.
    destruct pos; [right | left]; apply in_map_iff; exists i; auto.
Qed.

Lemma block_edges_in components neighbors u v :
  In (u, v) (block_edges components neighbors) <->
  u <> 0 /\ v <> 0
  /\ exists d pos i, (d < 3)%nat
       /\ In i (face (nd_shape components) d pos)
       /\ u = nd_get components i /\ v = nd_get neighbors i.
Proof.
  unfold block_edges. rewrite filter_In, boundary_pairs_in.
  unfold non_zero_filter. simpl.
  rewrite negb_true_iff, orb_false_iff, !Z.eqb_neq. tauto.
Qed.

(** ** Regions and their halo *)

Lemma contains_iff r p :
  contains r p = true <->
  let '(ox, oy, oz) := roi_offset r in
  let '(sx, sy, sz) := roi_shape r in
  let '(x, y, z) := p in
  ox <= x < ox + sx /\ oy <= y < oy + sy /\ oz <= z < oz + sz.
Proof.
  destruct r as [[[ox oy] oz] [[sx sy] sz]], p as [[x y] z].
  unfold contains, csub. cbn [roi_offset roi_shape].
  rewrite in_bounds_iff. lia.
Qed.

Lemma contains_grow r p :
  contains r p = true -> contains (grow r ones ones) p = true.
Proof.
  rewrite !contains_iff.
  destruct r as [[[ox oy] oz] [[sx sy] sz]], p as [[x y] z]. simpl. lia.
Qed.

(** A voxel outside a region, next to a voxel inside it, lies on the
    outermost slice of the grown region along the axis that separates
    them. *)
Lemma halo_face r p q d :
  contains r q = true -> contains r p = false -> (d < 3)%nat ->
  q = cadd p (unit_vec d) \/ p = cadd q (unit_vec d) ->
  contains (grow r ones ones) p = true
  /\ exists pos, In (csub p (roi_offset (grow r ones ones)))
                    (face (roi_shape (grow r ones ones)) d pos).
Proof.
  intros Hq Hp Hd Hadj.
  apply not_true_iff_false in Hp.
  rewrite contains_iff in Hq, Hp |- *.
  destruct r as [[[ox oy] oz] [[sx sy] sz]], p as [[x y] z], q as [[x' y'] z'].
  simpl in *.
  assert (Hcase : d = 0%nat \/ d = 1%nat \/ d = 2%nat) by lia.
  destruct Hcase as [-> | [-> | ->]]; simpl in Hadj;
    destruct Hadj as [Heq | Heq]; inversion Heq; subst; clear Heq;
    (split; [lia |]);
    [ exists false | exists true | exists false | exists true
    | exists false | exists true ];
    apply face_in; rewrite in_bounds_iff; simpl; lia.
Qed.

(** ** Partitions *)

Section Partition.

Variable vol : Roi.
Variable block_size : Coordinate.
Variable blocks : list Block.

Hypothesis Hpart : valid_partition vol block_size blocks = true.

Lemma part_block_ok b : In b blocks -> block_ok vol block_size b = true.
Proof.
  intros Hb. pose proof Hpart as Hp. unfold valid_partition in Hp.
  apply andb_true_iff in Hp. destruct Hp as [H _].
  apply andb_true_iff in H. destruct H as [H _].
  rewrite forallb_forall in H. apply H. exact Hb.
Qed.

Lemma part_id b : In b blocks -> 0 <= block_id b.
Proof.
  intros Hb. pose proof (part_block_ok b Hb) as H. unfold block_ok in H.
  rewrite !andb_true_iff in H. apply Z.leb_le. tauto.
Qed.

Lemma part_read b : In b blocks -> read_roi b = grow (write_roi b) ones ones.
Proof.
  intros Hb. pose proof (part_block_ok b Hb) as H. unfold block_ok in H.
  rewrite !andb_true_iff in H. apply roi_eqb_eq. tauto.
Qed.

Lemma part_inside b p :
  In b blocks -> contains (write_roi b) p = true -> contains vol p = true.
Proof.
  intros Hb Hp. pose proof (part_block_ok b Hb) as H. unfold block_ok in H.
  rewrite !andb_true_iff in H. destruct H as [_ H].
  rewrite forallb_forall in H. apply H. apply voxels_in. exact Hp.
Qed.

Lemma part_write_read b p :
  In b blocks -> contains (write_roi b) p = true -> contains (read_roi b) p = true.
Proof.
  intros Hb Hp. rewrite (part_read b Hb). apply contains_grow. exact Hp.
Qed.

Lemma part_size b :
  In b blocks ->
  Z.of_nat (length (indices (roi_shape (read_roi b)))) <= num_voxels block_size.
Proof.
  intros Hb. pose proof (part_block_ok b Hb) as H. unfold block_ok in H.
  rewrite !andb_true_iff in H. destruct H as [[[_ H1] H2] _].
  rewrite (part_read b Hb).
  destruct (write_roi b) as [wo [[sx sy] sz]]. destruct block_size as [[bx by'] bz].
  unfold coord_leb, ones in H1, H2. cbn [roi_shape] in H1, H2.
  rewrite !andb_true_iff, !Z.leb_le in H1, H2.
  unfold num_voxels, size, grow, ones. cbn [roi_shape roi_offset cadd].
  rewrite indices_length by lia.
  assert ((sx + 1 + 1) * (sy + 1 + 1) <= (bx + 1 + 1) * (by' + 1 + 1)) by nia.
  nia.
Qed.

Lemma part_ids b c :
  In b blocks -> In c blocks -> block_id b = block_id c -> b = c.
Proof.
  pose proof Hpart as Hp. unfold valid_partition in Hp.
  apply andb_true_iff in Hp. destruct Hp as [H _].
  apply andb_true_iff in H. destruct H as [_ H].
  apply distinct_injective. exact H.
Qed.

Lemma part_count p :
  contains vol p = true ->
  length (filter (fun b => contains (write_roi b) p) blocks) = 1%nat.
Proof.
  intros Hp. pose proof Hpart as Hv. unfold valid_partition in Hv.
  apply andb_true_iff in Hv. destruct Hv as [_ H].
  rewrite forallb_forall in H. apply Nat.eqb_eq. apply H.
  apply voxels_in. exact Hp.
Qed.

Lemma part_cover p :
  contains vol p = true ->
  exists b, In b blocks /\ contains (write_roi b) p = true.
Proof.
  intros Hp. apply filter_one_exists. apply part_count. exact Hp.
Qed.

Lemma part_unique b c p :
  In b blocks -> contains (write_roi b) p = true ->
  In c blocks -> contains (write_roi c) p = true -> b = c.
Proof.
  intros Hb Hbp Hc Hcp.
  apply (filter_one_unique (fun b => contains (write_roi b) p) blocks); auto.
  apply part_count. eapply part_inside; eassumption.
Qed.

Lemma provisional_owner array_in nvox b p :
  In b blocks -> contains (write_roi b) p = true ->
  provisional array_in nvox blocks p = block_label array_in nvox b p.
Proof.
  intros Hb Hp. unfold provisional.
  rewrite (find_unique (fun b => contains (write_roi b) p) blocks b); auto.
  intros c Hc Hcp. eapply part_unique; eassumption.
Qed.

Lemma provisional_nowhere array_in nvox p :
  (forall b, In b blocks -> contains (write_roi b) p = false) ->
  provisional array_in nvox blocks p = 0.
Proof.
  intros H. unfold provisional.
  destruct (find (fun b => contains (write_roi b) p) blocks) as [b |] eqn:Hf;
    [| reflexivity].
  apply find_some in Hf. destruct Hf as [Hb Hp].
  rewrite (H b Hb) in Hp. discriminate.
Qed.

End Partition.

(** ** Schedules *)

Lemma commits_app es es' : commits (es ++ es') = commits es ++ commits es'.
Proof. unfold commits. apply flat_map_app. Qed.

Lemma observes_app es es' : observes (es ++ es') = observes es ++ observes es'.
Proof. unfold observes. apply flat_map_app. Qed.

Lemma program_order_prefix es : forall acc es',
  program_order acc (es ++ es') = true -> program_order acc es = true.
Proof.
  induction es as [| [b | b] es IH]; intros acc es' H; simpl in *.
  - reflexivity.
  - eapply IH. exact H.
  - apply andb_true_iff in H. destruct H as [H1 H2].
    rewrite H1. simpl. eapply IH. exact H2.
Qed.

(** A block that has saved its file has written its region before. *)
Lemma program_order_observes es : forall acc b,
  program_order acc es = true -> In b (observes es) ->
  In b acc \/ In b (commits es).
Proof.
  induction es as [| [c | c] es IH]; intros acc b H Hin; simpl in *.
  - contradiction.
  - destruct (IH _ _ H Hin) as [[<- | Hacc] | Hc]; auto.
  - apply andb_true_iff in H. destruct H as [H1 H2].
    destruct Hin as [<- | Hin].
    + left. apply existsb_block_eqb. exact H1.
    + apply (IH _ _ H2 Hin).
Qed.

Lemma run_phase1_snoc array_in array_out nvox es e :
  run_phase1 array_in array_out nvox (es ++ [e])
  = run_event array_in nvox (run_phase1 array_in array_out nvox es) e.
Proof.
  unfold run_phase1. rewrite fold_left_app. reflexivity.
Qed.

(** A block that runs undisturbed is one call of
    [find_components_in_block]. *)
Lemma find_components_in_block_steps array_in nvox st b :
  run_event array_in nvox (run_event array_in nvox st (Commit b)) (Observe b)
  = find_components_in_block array_in (fst st) nvox b (snd st).
Proof. reflexivity. Qed.

Lemma run_phase1_sequential array_in array_out nvox order :
  run_phase1 array_in array_out nvox (sequential order)
  = fold_left (fun st b => find_components_in_block array_in (fst st) nvox b (snd st))
              order (array_out, []).
Proof.
  unfold run_phase1. generalize (array_out, @nil (Z * npz)).
  induction order as [| b order IH]; intros st; simpl; [reflexivity |].
  rewrite IH. reflexivity.
Qed.

(** ** Phase 1 *)

Section Phase1.

Variable array_in : Array.
Variable block_size : Coordinate.
Variable blocks : list Block.

Let vol := arr_roi array_in.
Let nvox := num_voxels block_size.
Let lab := block_label array_in nvox.
Let prov := provisional array_in nvox blocks.
Let state (es : list event) := run_phase1 array_in (zeros_like array_in) nvox es.
Let written (es : list event) (p : Coordinate) :=
  existsb (fun c => contains (write_roi c) p) (commits es).

Hypothesis Hpart : valid_partition vol block_size blocks = true.

Let sound_edge := sound_edge array_in nvox blocks.
Let seen := sees array_in nvox blocks.

Lemma commit_block_data out b p :
  In b blocks ->
  arr_data (commit_block array_in out nvox b) p
  = if contains (write_roi b) p then prov p else arr_data out p.
Proof.
  intros Hb. unfold commit_block, setitem. cbn [arr_data].
  destruct (contains (write_roi b) p) eqn:Hp; [| reflexivity].
  rewrite crop_get. unfold prov.
  rewrite (provisional_owner vol block_size blocks Hpart array_in nvox b p Hb Hp).
  unfold block_label. f_equal.
  rewrite (part_read vol block_size blocks Hpart b Hb).
  destruct (write_roi b) as [[[ox oy] oz] ws], p as [[x y] z].
  unfold grow, ones, csub, cadd. cbn [roi_offset].
  f_equal; [f_equal |]; lia.
Qed.

(** The destination during phase 1: the provisional labels where a block
    has written, zeros elsewhere. *)
Lemma phase1_out es :
  (forall e, In e es -> In (event_block e) blocks) ->
  arr_roi (fst (state es)) = vol
  /\ forall p, arr_data (fst (state es)) p = if written es p then prov p else 0.
Proof.
  induction es as [| e es IH] using rev_ind; intros Hev.
  - split; reflexivity.
  - assert (Hev' : forall e', In e' es -> In (event_block e') blocks).
    { intros e' He'. apply Hev. apply in_or_app. left. exact He'. }
    assert (He : In (event_block e) blocks).
    { apply Hev. apply in_or_app. right. left. reflexivity. }
    destruct (IH Hev') as [IHr IHd].
    unfold state in *. rewrite run_phase1_snoc.
    destruct e as [b | b]; cbn [run_event fst snd event_block] in *.
    + split; [exact IHr |].
      intros p. rewrite commit_block_data by exact He.
      unfold written in *. rewrite commits_app, existsb_app. simpl.
      rewrite orb_false_r.
      destruct (contains (write_roi b) p); [rewrite orb_true_r; reflexivity |].
      rewrite orb_false_r. apply IHd.
    + split; [exact IHr |].
      intros p. unfold written in *. rewrite commits_app, existsb_app. simpl.
      rewrite orb_false_r. apply IHd.
Qed.

(** What a block finds when it reads the destination at line 113. *)
Lemma neighbors_get es b h :
  (forall e, In e es -> In (event_block e) blocks) ->
  nd_get (to_ndarray (fst (state es)) (read_roi b) 0)
         (csub h (roi_offset (read_roi b)))
  = if written es h then prov h else 0.
Proof.
  intros Hev. destruct (phase1_out es Hev) as [Hr Hd].
  unfold to_ndarray. cbn [nd_get]. rewrite cadd_csub, Hr, Hd.
  destruct (written es h) eqn:Hw; [| destruct (contains vol h); reflexivity].
  unfold written in Hw. apply existsb_exists in Hw.
  destruct Hw as [c [Hc Hh]].
  destruct (contains vol h) eqn:Hv; [reflexivity |].
  unfold prov. symmetry. apply provisional_nowhere.
  intros c' Hc'. destruct (contains (write_roi c') h) eqn:Hh'; [| reflexivity].
  rewrite (part_inside vol block_size blocks Hpart c' h Hc' Hh') in Hv.
  discriminate.
Qed.

Lemma observe_sound es b u v :
  (forall e, In e es -> In (event_block e) blocks) ->
  In b blocks ->
  In (u, v) (block_edges (block_components array_in nvox b)
                         (to_ndarray (fst (state es)) (read_roi b) 0)) ->
  sound_edge u v.
Proof.
  intros Hev Hb Hin. apply block_edges_in in Hin.
  destruct Hin as [Hu [Hv [d [pos [i [Hd [Hi [Eu Ev]]]]]]]].
  split; [exact Hu | split; [exact Hv |]].
  rewrite block_components_shape in Hi.
  pose proof (proj1 (face_in _ _ _ _) Hi) as [Hib _].
  set (h := cadd (roi_offset (read_roi b)) i).
  assert (Hih : csub h (roi_offset (read_roi b)) = i) by apply csub_cadd.
  exists b, h. split; [exact Hb |]. split.
  - unfold contains. rewrite Hih. exact Hib.
  - split; [| split].
    + unfold lab, block_label. rewrite Hih. exact Eu.
    + rewrite <- Hih in Ev. rewrite neighbors_get in Ev by exact Hev.
      destruct (written es h); [exact Ev | congruence].
    + exists d, pos. rewrite Hih. auto.
Qed.

(** Every file of the scratch directory belongs to a block, lists as
    nodes the labels of its edges, and holds sound edges only. *)
Lemma phase1_tmp es :
  (forall e, In e es -> In (event_block e) blocks) ->
  forall id f, In (id, f) (snd (state es)) ->
    npz_nodes f = unique (endpoints (npz_edges f))
    /\ forall u v, In (u, v) (npz_edges f) -> sound_edge u v.
Proof.
  induction es as [| e es IH] using rev_ind; intros Hev id f Hin.
  - contradiction.
  - assert (Hev' : forall e', In e' es -> In (event_block e') blocks).
    { intros e' He'. apply Hev. apply in_or_app. left. exact He'. }
    assert (He : In (event_block e) blocks).
    { apply Hev. apply in_or_app. right. left. reflexivity. }
    unfold state in *. rewrite run_phase1_snoc in Hin.
    destruct e as [b | b]; cbn [run_event fst snd event_block] in *.
    + apply (IH Hev' id f Hin).
    + unfold observe_block in Hin. apply savez_in in Hin.
      destruct Hin as [[_ ->] | Hin]; [| apply (IH Hev' id f Hin)].
      cbn [npz_nodes npz_edges]. split; [reflexivity |].
      intros u v Huv. eapply observe_sound; eassumption.
Qed.

Lemma observe_sees es b c' tmp :
  (forall e, In e es -> In (event_block e) blocks) ->
  In c' blocks -> In c' (commits es) ->
  seen (observe_block array_in (fst (state es)) nvox b tmp) b c'.
Proof.
  intros Hev Hc' Hcom h d pos Hd Hh Hface Hl Hp.
  unfold observe_block. eexists. split; [apply savez_new |].
  cbn [npz_edges]. apply block_edges_in.
  split; [exact Hl | split; [exact Hp |]].
  exists d, pos, (csub h (roi_offset (read_roi b))).
  split; [exact Hd |]. split; [exact Hface |]. split; [reflexivity |].
  rewrite neighbors_get by exact Hev.
  assert (Hw : written es h = true).
  { unfold written. apply existsb_exists. exists c'. auto. }
  rewrite Hw. reflexivity.
Qed.

(** Of two blocks that have saved their files, one has seen what the
    other wrote. *)
Lemma phase1_seen es :
  (forall e, In e es -> In (event_block e) blocks) ->
  program_order [] es = true ->
  forall c c', In c (observes es) -> In c' (observes es) ->
    seen (snd (state es)) c c' \/ seen (snd (state es)) c' c.
Proof.
  induction es as [| e es IH] using rev_ind; intros Hev Hpo c c' Hc Hc'.
  - contradiction.
  - assert (Hev' : forall e', In e' es -> In (event_block e') blocks).
    { intros e' He'. apply Hev. apply in_or_app. left. exact He'. }
    assert (He : In (event_block e) blocks).
    { apply Hev. apply in_or_app. right. left. reflexivity. }
    assert (Hpo' : program_order [] es = true).
    { eapply program_order_prefix. exact Hpo. }
    assert (Hcommitted : forall x, In x (observes (es ++ [e])) ->
                                   In x (commits es) /\ In x blocks).
    { intros x Hx. split.
      - destruct (program_order_observes _ _ _ Hpo Hx) as [[] | H].
        rewrite commits_app in H. apply in_app_or in H.
        destruct H as [H | H]; [exact H |].
        destruct e as [b | b]; simpl in H.
        + destruct H as [<- | []].
          rewrite observes_app in Hx. apply in_app_or in Hx.
          destruct Hx as [Hx | Hx]; [| simpl in Hx; contradiction].
          destruct (program_order_observes _ _ _ Hpo' Hx) as [[] | H']. exact H'.
        + contradiction.
      - unfold observes in Hx. apply in_flat_map in Hx.
        destruct Hx as [e' [He' Hx]]. destruct e' as [b' | b']; simpl in Hx.
        + contradiction.
        + destruct Hx as [<- | []]. apply (Hev (Observe b') He'). }
    unfold state in *. rewrite run_phase1_snoc.
    destruct e as [b | b]; cbn [run_event fst snd event_block] in *.
    + rewrite observes_app in Hc, Hc'. simpl in Hc, Hc'.
      rewrite app_nil_r in Hc, Hc'. apply IH; assumption.
    + destruct (Hcommitted c Hc) as [Hcc Hcb].
      destruct (Hcommitted c' Hc') as [Hcc' Hcb'].
      rewrite observes_app in Hc, Hc'. simpl in Hc, Hc'.
      apply in_app_or in Hc, Hc'.
      destruct Hc as [Hc | [<- | []]].
      * destruct Hc' as [Hc' | [<- | []]].
        -- assert (Hkeep : forall x y, In x blocks -> x <> b ->
                     seen (snd (run_phase1 array_in (zeros_like array_in) nvox es)) x y ->
                     seen (observe_block array_in
                             (fst (run_phase1 array_in (zeros_like array_in) nvox es))
                             nvox b
                             (snd (run_phase1 array_in (zeros_like array_in) nvox es))) x y).
           { intros x y Hx Hne Hs h d pos Hd Hh Hface Hl Hp.
             destruct (Hs h d pos Hd Hh Hface Hl Hp) as [f [Hf Hin]].
             exists f. split; [| exact Hin].
             unfold observe_block. apply savez_keep; [| exact Hf].
             intros Heq. apply Hne.
             apply (part_ids vol block_size blocks Hpart); assumption. }
           destruct (block_eqb c b) eqn:Ecb.
           ++ apply block_eqb_eq in Ecb. subst c.
              left. apply observe_sees; assumption.
           ++ destruct (block_eqb c' b) eqn:Ecb'.
              ** apply block_eqb_eq in Ecb'. subst c'.
                 right. apply observe_sees; assumption.
              ** assert (c <> b).
                 { intros ->. rewrite (proj2 (block_eqb_eq b b) eq_refl) in Ecb.
                   discriminate. }
                 assert (c' <> b).
                 { intros ->. rewrite (proj2 (block_eqb_eq b b) eq_refl) in Ecb'.
                   discriminate. }
                 destruct (IH Hev' Hpo' c c' Hc Hc') as [Hs | Hs];
                   [left | right]; apply Hkeep; assumption.
        -- right. apply observe_sees; assumption.
      * left. apply observe_sees; assumption.
Qed.

Lemma phase1_nonempty es :
  observes es <> [] -> snd (state es) <> [].
Proof.
  induction es as [| e es IH] using rev_ind; intros Hobs.
  - exfalso. apply Hobs. reflexivity.
  - unfold state in *. rewrite run_phase1_snoc.
    destruct e as [b | b]; cbn [run_event fst snd].
    + apply IH. rewrite observes_app in Hobs. simpl in Hobs.
      rewrite app_nil_r in Hobs. exact Hobs.
    + unfold observe_block. apply savez_nonempty.
Qed.

End Phase1.

(** ** Phases 2 and 3 *)

Lemma resolve_keys keys E : map fst (resolve keys E) = keys.
Proof.
  unfold resolve. rewrite fold_union_keys. unfold init.
  rewrite map_map. simpl. apply map_id.
Qed.

Lemma replace_value_map old (f : Z -> Z) v :
  replace_value old (map f old) v = if in_dec Z.eq_dec v old then f v else v.
Proof.
  unfold replace_value. induction old as [| x old IH]; simpl.
  - reflexivity.
  - destruct (Z.eqb_spec x v) as [-> | Hne]; simpl.
    + destruct (Z.eq_dec v v); [reflexivity | contradiction].
    + rewrite IH. destruct (Z.eq_dec x v); [contradiction |].
      destruct (in_dec Z.eq_dec v old); reflexivity.
Qed.

(** The substitution of phase 3 is the representative of the union-find. *)
Lemma canonical_find_rep tmp g :
  canonical tmp g = find_rep (resolve (all_nodes tmp) (all_edges tmp)) g.
Proof.
  unfold canonical, find_components. rewrite replace_value_map.
  destruct (in_dec Z.eq_dec g (all_nodes tmp)) as [Hin | Hout]; [reflexivity |].
  symmetry. apply find_rep_absent. rewrite resolve_keys. exact Hout.
Qed.

Lemma read_cross_block_merges_ok tmp :
  tmp <> [] -> read_cross_block_merges tmp = Ok (all_nodes tmp, all_edges tmp).
Proof.
  intros Hne. destruct tmp as [| f tmp]; [contradiction | reflexivity].
Qed.

Lemma all_edges_in tmp e :
  In e (all_edges tmp) <-> exists id f, In (id, f) tmp /\ In e (npz_edges f).
Proof.
  unfold all_edges. rewrite in_concat. split.
  - intros [l [Hl He]]. apply in_map_iff in Hl.
    destruct Hl as [[id f] [<- Hin]]. exists id, f. auto.
  - intros [id [f [Hin He]]]. exists (npz_edges f). split; [| exact He].
    apply in_map_iff. exists (id, f). auto.
Qed.

Lemma all_nodes_in tmp x :
  In x (all_nodes tmp) <-> exists id f, In (id, f) tmp /\ In x (npz_nodes f).
Proof.
  unfold all_nodes. rewrite in_concat. split.
  - intros [l [Hl He]]. apply in_map_iff in Hl.
    destruct Hl as [[id f] [<- Hin]]. exists id, f. auto.
  - intros [id [f [Hin He]]]. exists (npz_nodes f). split; [| exact He].
    apply in_map_iff. exists (id, f). auto.
Qed.

Lemma endpoints_in E x :
  In x (endpoints E) <-> exists u v, In (u, v) E /\ (x = u \/ x = v).
Proof.
  unfold endpoints. rewrite in_flat_map. split.
  - intros [[u v] [He Hx]]. exists u, v. simpl in Hx. intuition.
  - intros [u [v [He Hx]]]. exists (u, v). simpl. intuition.
Qed.

Lemma relabel_in_block_roi array old new b :
  arr_roi (relabel_in_block array old new b) = arr_roi array.
Proof. reflexivity. Qed.

Lemma relabel_in_block_data array old new b p :
  (contains (write_roi b) p = true -> contains (arr_roi array) p = true) ->
  arr_data (relabel_in_block array old new b) p
  = if contains (write_roi b) p then replace_value old new (arr_data array p)
    else arr_data array p.
Proof.
  intros Hin. unfold relabel_in_block, setitem, replace_values, to_ndarray.
  cbn [arr_data nd_get]. destruct (contains (write_roi b) p) eqn:Hp; [| reflexivity].
  rewrite cadd_csub, (Hin eq_refl). reflexivity.
Qed.

Lemma run_phase3_snoc array nodes components order b :
  run_phase3 array nodes components (order ++ [b])
  = relabel_in_block (run_phase3 array nodes components order) nodes components b.
Proof.
  unfold run_phase3. rewrite fold_left_app. reflexivity.
Qed.

(** Phase 3 substitutes once in every region that it visits, however
    often it visits it, when substituting twice changes nothing. *)
Lemma run_phase3_data array nodes components order :
  (forall b p, In b order -> contains (write_roi b) p = true ->
               contains (arr_roi array) p = true) ->
  (forall v, replace_value nodes components (replace_value nodes components v)
             = replace_value nodes components v) ->
  arr_roi (run_phase3 array nodes components order) = arr_roi array
  /\ forall p,
       arr_data (run_phase3 array nodes components order) p
       = if existsb (fun b => contains (write_roi b) p) order
         then replace_value nodes components (arr_data array p)
         else arr_data array p.
Proof.
  intros Hin Hidem. induction order as [| b order IH] using rev_ind.
  - split; reflexivity.
  - destruct IH as [IHr IHd].
    { intros c p Hc. apply Hin. apply in_or_app. left. exact Hc. }
    rewrite run_phase3_snoc. split.
    + rewrite relabel_in_block_roi. exact IHr.
    + intros p. rewrite relabel_in_block_data.
      * rewrite existsb_app. simpl. rewrite orb_false_r, IHd.
        destruct (contains (write_roi b) p); [| rewrite orb_false_r; reflexivity].
        rewrite orb_true_r.
        destruct (existsb (fun b0 => contains (write_roi b0) p) order);
          [apply Hidem | reflexivity].
      * rewrite IHr. apply Hin. apply in_or_app. right. left. reflexivity.
Qed.

Lemma joined_weaken dom dom' val p q :
  (forall x, dom x = true -> val x <> 0 -> dom' x = true) ->
  joined dom val p q -> joined dom' val p q.
Proof.
  intros Hdom. induction 1 as [p Hd Hv | p q s Hd Hv Ha Heq Hqs IH].
  - apply joined_refl; auto.
  - eapply joined_step; eauto.
Qed.

(** A path inside a region of the input is a path in the volume. *)
Lemma connected_in_volume array_in r p q :
  connected_in array_in r p q -> connected array_in p q.
Proof.
  apply joined_weaken. intros x _ Hx. unfold value_at in Hx.
  destruct (contains (arr_roi array_in) x); [reflexivity | contradiction].
Qed.

(** ** The pipeline *)

Section Pipeline.

Variable array_in : Array.
Variable block_size : Coordinate.
Variable blocks : list Block.
Variable es : list event.

Let vol := arr_roi array_in.
Let nvox := num_voxels block_size.
Let lab := block_label array_in nvox.
Let prov := provisional array_in nvox blocks.
Let tmp := scratch array_in block_size es.
Let E := all_edges tmp.

Hypothesis Hpart : valid_partition vol block_size blocks = true.
Hypothesis Hsched : valid_schedule blocks es = true.

Lemma sched_events e : In e es -> In (event_block e) blocks.
Proof.
  intros He. pose proof Hsched as Hs. unfold valid_schedule in Hs.
  rewrite !andb_true_iff in Hs. destruct Hs as [[H _] _].
  rewrite forallb_forall in H. apply existsb_block_eqb. apply H. exact He.
Qed.

Lemma sched_order : program_order [] es = true.
Proof.
  pose proof Hsched as Hs. unfold valid_schedule in Hs.
  rewrite !andb_true_iff in Hs. tauto.
Qed.

Lemma sched_observes b : In b blocks -> In b (observes es).
Proof.
  intros Hb. pose proof Hsched as Hs. unfold valid_schedule in Hs.
  rewrite !andb_true_iff in Hs. destruct Hs as [_ H].
  rewrite forallb_forall in H. specialize (H b Hb).
  apply existsb_exists in H. destruct H as [e [He Ho]].
  destruct e as [c | c]; simpl in Ho; [discriminate |].
  apply block_eqb_eq in Ho. subst c.
  unfold observes. apply in_flat_map. exists (Observe b). simpl. auto.
Qed.

Lemma sched_commits b : In b blocks -> In b (commits es).
Proof.
  intros Hb.
  destruct (program_order_observes _ _ _ sched_order (sched_observes b Hb))
    as [[] | H].
  exact H.
Qed.

(** When phase 1 ends, the destination holds the provisional label of
    every voxel. *)
Lemma phase1_final :
  arr_roi (fst (run_phase1 array_in (zeros_like array_in) nvox es)) = vol
  /\ forall p,
       arr_data (fst (run_phase1 array_in (zeros_like array_in) nvox es)) p
       = prov p.
Proof.
  destruct (phase1_out array_in block_size blocks Hpart es sched_events)
    as [Hr Hd].
  split; [exact Hr |]. intros p. rewrite Hd.
  destruct (existsb (fun c => contains (write_roi c) p) (commits es)) eqn:Hw;
    [reflexivity |].
  symmetry. apply provisional_nowhere. intros b Hb.
  destruct (contains (write_roi b) p) eqn:Hp; [| reflexivity].
  assert (existsb (fun c => contains (write_roi c) p) (commits es) = true);
    [| congruence].
  apply existsb_exists. exists b. split; [apply sched_commits; exact Hb | exact Hp].
Qed.

Lemma merge_sound u v : In (u, v) E -> sound_edge array_in nvox blocks u v.
Proof.
  intros Hin. apply all_edges_in in Hin. destruct Hin as [id [f [Hf Huv]]].
  destruct (phase1_tmp array_in block_size blocks Hpart es sched_events id f Hf)
    as [_ H].
  apply H. exact Huv.
Qed.

Lemma merge_nodes : incl (endpoints E) (all_nodes tmp).
Proof.
  intros x Hx. apply endpoints_in in Hx. destruct Hx as [u [v [Huv Hx]]].
  apply all_edges_in in Huv. destruct Huv as [id [f [Hf Huv]]].
  destruct (phase1_tmp array_in block_size blocks Hpart es sched_events id f Hf)
    as [Hn _].
  apply all_nodes_in. exists id, f. split; [exact Hf |].
  rewrite Hn. apply unique_in. apply endpoints_in. exists u, v. auto.
Qed.

Lemma merge_nonzero x : In x (endpoints E) -> x <> 0.
Proof.
  intros Hx. apply endpoints_in in Hx. destruct Hx as [u [v [Huv Hx]]].
  apply merge_sound in Huv. destruct Huv as [Hu [Hv _]].
  destruct Hx; subst; assumption.
Qed.

(** The canonical label: the least label of the class. *)
Lemma canonical_least g :
  econn E g (canonical tmp g) /\ forall y, econn E g y -> canonical tmp g <= y.
Proof.
  rewrite canonical_find_rep. apply resolve_least. exact merge_nodes.
Qed.

Lemma canonical_same x y : canonical tmp x = canonical tmp y <-> econn E x y.
Proof.
  rewrite !canonical_find_rep. apply resolve_same_class. exact merge_nodes.
Qed.

Lemma canonical_zero : canonical tmp 0 = 0.
Proof.
  destruct (canonical_least 0) as [H _].
  apply econn_isolated in H; [exact H |].
  intros Hin. apply merge_nonzero in Hin. contradiction.
Qed.

Lemma canonical_nonzero g : g <> 0 -> canonical tmp g <> 0.
Proof.
  intros Hg. destruct (canonical_least g) as [H _].
  apply econn_endpoint in H. destruct H as [-> | H]; [exact Hg |].
  apply merge_nonzero. exact H.
Qed.

Lemma canonical_idem g : canonical tmp (canonical tmp g) = canonical tmp g.
Proof.
  apply canonical_same. apply econn_sym. apply canonical_least.
Qed.

(** The output of the whole run: the canonical label of the provisional
    label, at every voxel. *)
Lemma pipeline_output order :
  valid_schedule3 blocks order = true -> blocks <> [] ->
  exists out,
    relabel_connected_components array_in (zeros_like array_in) block_size es order
    = Ok out
    /\ forall p, arr_data out p = canonical tmp (prov p).
Proof.
  intros Hord Hne.
  unfold relabel_connected_components. fold nvox.
  destruct phase1_final as [Hr Hd].
  assert (Htmp : snd (run_phase1 array_in (zeros_like array_in) nvox es) = tmp)
    by reflexivity.
  destruct (run_phase1 array_in (zeros_like array_in) nvox es) as [out1 tmp1].
  cbn [fst snd] in Hr, Hd, Htmp. subst tmp1.
  rewrite read_cross_block_merges_ok.
  - eexists. split; [reflexivity |].
    unfold valid_schedule3 in Hord. apply andb_true_iff in Hord.
    destruct Hord as [Hin Hall]. rewrite forallb_forall in Hin, Hall.
    destruct (run_phase3_data out1 (all_nodes tmp)
                (find_components (all_nodes tmp) (all_edges tmp)) order)
      as [_ Hd3].
    + intros b p Hb Hp. rewrite Hr.
      pose proof (Hin b Hb) as Hex. apply existsb_exists in Hex.
      destruct Hex as [c [Hc Hsame]]. apply roi_eqb_eq in Hsame.
      apply (part_inside vol block_size blocks Hpart c p); [exact Hc |].
      rewrite <- Hsame. exact Hp.
    + intros v. apply canonical_idem.
    + intros p. rewrite Hd3, Hd.
      destruct (existsb (fun b => contains (write_roi b) p) order) eqn:Hc;
        [reflexivity |].
      assert (Hz : prov p = 0).
      { apply provisional_nowhere. intros b Hb.
        destruct (contains (write_roi b) p) eqn:Hp; [| reflexivity].
        assert (existsb (fun b => contains (write_roi b) p) order = true);
          [| congruence].
        pose proof (Hall b Hb) as Hex. apply existsb_exists in Hex.
        destruct Hex as [c [Hin' Hsame]]. apply roi_eqb_eq in Hsame.
        apply existsb_exists. exists c. split; [exact Hin' |].
        rewrite Hsame. exact Hp. }
      rewrite Hz. symmetry. apply canonical_zero.
  - apply (phase1_nonempty array_in block_size es).
    assert (Hex : exists b, In b blocks).
    { clear - Hne. destruct blocks as [| b bs]; [contradiction |].
      exists b. left. reflexivity. }
    destruct Hex as [b Hb].
    intros Hnil. pose proof (sched_observes b Hb) as H.
    rewrite Hnil in H. contradiction.
Qed.

(** Two face-adjacent voxels of equal value end in one class, provided
    their provisional labels are not 0. *)
Lemma adjacent_merged p q :
  contains vol p = true -> contains vol q = true ->
  face_adjacent p q ->
  value_at array_in p <> 0 -> value_at array_in q = value_at array_in p ->
  prov p <> 0 -> prov q <> 0 ->
  econn E (prov p) (prov q).
Proof.
  intros Hp Hq Hadj Hvp Hvq Hpp Hpq.
  destruct (part_cover vol block_size blocks Hpart p Hp) as [c1 [Hc1 Hw1]].
  destruct (part_cover vol block_size blocks Hpart q Hq) as [c2 [Hc2 Hw2]].
  assert (Ep : prov p = lab c1 p) by (apply (provisional_owner vol block_size); auto).
  assert (Eq : prov q = lab c2 q) by (apply (provisional_owner vol block_size); auto).
  assert (Hr1 := part_write_read vol block_size blocks Hpart c1 p Hc1 Hw1).
  assert (Hr2 := part_write_read vol block_size blocks Hpart c2 q Hc2 Hw2).
  assert (Hstep : forall r x y, contains r x = true -> contains r y = true ->
            face_adjacent x y -> value_at array_in x <> 0 ->
            value_at array_in y = value_at array_in x ->
            connected_in array_in r x y).
  { intros r x y Hx Hy Ha Hv He. eapply joined_step; eauto.
    apply joined_refl; [exact Hy | congruence]. }
  destruct (contains (write_roi c2) p) eqn:Hp2.
  - (* one block wrote both *)
    assert (c1 = c2) by (eapply part_unique; eauto). subst c2.
    rewrite Ep, Eq. unfold lab.
    rewrite (block_label_joined array_in nvox c1 p q); [apply econn_refl |].
    apply Hstep; auto.
  - destruct (contains (write_roi c1) q) eqn:Hq1.
    { assert (c2 = c1) by (eapply part_unique; eauto). subst c2. congruence. }
    destruct Hadj as [d [Hd Hdir]].
    assert (Hadj : face_adjacent p q) by (exists d; auto).
    destruct (halo_face (write_roi c2) p q d Hw2 Hp2 Hd Hdir) as [Hin2 [pos2 Hf2]].
    destruct (halo_face (write_roi c1) q p d Hw1 Hq1 Hd) as [Hin1 [pos1 Hf1]];
      [tauto |].
    rewrite <- (part_read vol block_size blocks Hpart c2 Hc2) in Hin2, Hf2.
    rewrite <- (part_read vol block_size blocks Hpart c1 Hc1) in Hin1, Hf1.
    assert (L2 : lab c2 p = prov q).
    { rewrite Eq. unfold lab. apply block_label_joined. apply Hstep; auto. }
    assert (L1 : lab c1 q = prov p).
    { rewrite Ep. unfold lab. symmetry. apply block_label_joined.
      apply Hstep; auto. }
    destruct (phase1_seen array_in block_size blocks Hpart es sched_events
                sched_order c1 c2 (sched_observes c1 Hc1) (sched_observes c2 Hc2))
      as [Hs | Hs].
    + (* the first block saw the second *)
      destruct (Hs q d pos1 Hd Hw2 Hf1) as [f [Hf Hin]].
      * fold nvox lab. rewrite L1. exact Hpp.
      * exact Hpq.
      * apply econn_edge. left. apply all_edges_in.
        exists (block_id c1), f. split; [exact Hf |].
        fold nvox lab prov in Hin. rewrite L1 in Hin. exact Hin.
    + (* the second block saw the first *)
      destruct (Hs p d pos2 Hd Hw1 Hf2) as [f [Hf Hin]].
      * fold nvox lab. rewrite L2. exact Hpq.
      * exact Hpp.
      * apply econn_edge. right. apply all_edges_in.
        exists (block_id c2), f. split; [exact Hf |].
        fold nvox lab prov in Hin. rewrite L2 in Hin. exact Hin.
Qed.

End Pipeline.

(** ** The pipeline when the labels fit the dtype *)

Section PipelineFit.

Variable array_in : Array.
Variable block_size : Coordinate.
Variable blocks : list Block.
Variable es : list event.

Let vol := arr_roi array_in.
Let nvox := num_voxels block_size.
Let lab := block_label array_in nvox.
Let prov := provisional array_in nvox blocks.
Let tmp := scratch array_in block_size es.
Let E := all_edges tmp.

Hypothesis Hpart : valid_partition vol block_size blocks = true.
Hypothesis Hsched : valid_schedule blocks es = true.
Hypothesis Hfit : labels_fit (arr_dtype array_in) block_size blocks = true.

Lemma fit_block b :
  In b blocks -> (block_id b + 1) * nvox < 2 ^ dt_bits (arr_dtype array_in).
Proof.
  intros Hb. pose proof Hfit as H. unfold labels_fit in H.
  rewrite forallb_forall in H. apply Z.ltb_lt. apply H. exact Hb.
Qed.

Lemma lab_range c h :
  In c blocks -> contains (read_roi c) h = true -> value_at array_in h <> 0 ->
  block_id c * nvox < lab c h mod 2 ^ dt_bits (arr_dtype array_in)
                    <= (block_id c + 1) * nvox.
Proof.
  intros Hc Hh Hv. apply block_label_range; auto.
  - apply (part_id vol block_size blocks Hpart). exact Hc.
  - apply (part_size vol block_size blocks Hpart). exact Hc.
  - apply fit_block. exact Hc.
Qed.

Lemma lab_value c h : lab c h <> 0 -> value_at array_in h <> 0.
Proof.
  intros Hl Hv. apply Hl. apply block_label_background. exact Hv.
Qed.

Lemma prov_owner p :
  prov p <> 0 ->
  exists c, In c blocks /\ contains (write_roi c) p = true /\ prov p = lab c p.
Proof.
  unfold prov, provisional. intros H.
  destruct (find (fun b => contains (write_roi b) p) blocks) as [c |] eqn:Hf;
    [| contradiction].
  apply find_some in Hf. destruct Hf as [Hc Hp]. exists c. auto.
Qed.

(** No foreground voxel is given the provisional label 0. *)
Lemma prov_nonzero p :
  contains vol p = true -> value_at array_in p <> 0 -> prov p <> 0.
Proof.
  intros Hp Hv.
  destruct (part_cover vol block_size blocks Hpart p Hp) as [c [Hc Hw]].
  unfold prov. rewrite (provisional_owner vol block_size blocks Hpart _ _ c p Hc Hw).
  assert (Hr := part_write_read vol block_size blocks Hpart c p Hc Hw).
  pose proof (lab_range c p Hc Hr Hv) as H.
  pose proof (part_id vol block_size blocks Hpart c Hc).
  unfold lab in H.
  assert (0 <= nvox).
  { pose proof (part_size vol block_size blocks Hpart c Hc). unfold nvox. lia. }
  intros Hz. rewrite Hz, Zmod_0_l in H. nia.
Qed.

(** A nonzero label names one class of one block: two voxels that carry
    it are connected. *)
Lemma same_label_connected c c' h h' :
  In c blocks -> contains (read_roi c) h = true -> value_at array_in h <> 0 ->
  In c' blocks -> contains (read_roi c') h' = true -> value_at array_in h' <> 0 ->
  lab c h = lab c' h' -> connected array_in h h'.
Proof.
  intros Hc Hh Hv Hc' Hh' Hv' Heq.
  pose proof (lab_range c h Hc Hh Hv) as R1.
  pose proof (lab_range c' h' Hc' Hh' Hv') as R2.
  rewrite Heq in R1.
  assert (Hid : block_id c = block_id c') by nia.
  assert (c = c') by (apply (part_ids vol block_size blocks Hpart); assumption).
  subst c'.
  apply (connected_in_volume array_in (read_roi c)).
  apply (block_label_same array_in nvox c); auto.
  - apply (part_id vol block_size blocks Hpart). exact Hc.
  - apply (part_size vol block_size blocks Hpart). exact Hc.
  - apply fit_block. exact Hc.
Qed.

(** Along the merge graph the voxels stay in one blob. *)
Lemma class_connected g g' :
  econn E g g' ->
  forall c x, In c blocks -> contains (read_roi c) x = true ->
    value_at array_in x <> 0 -> lab c x = g ->
    exists c' y, In c' blocks /\ contains (read_roi c') y = true
      /\ value_at array_in y <> 0 /\ lab c' y = g' /\ connected array_in x y.
Proof.
  induction 1 as [g | g g1 g' Hedge _ IH]; intros c x Hc Hx Hv Hl.
  - exists c, x. repeat split; auto.
    apply joined_refl; [| exact Hv].
    unfold value_at in Hv.
    destruct (contains (arr_roi array_in) x); [reflexivity | contradiction].
  - assert (Hshare : exists c1 c2 h,
              In c1 blocks /\ contains (read_roi c1) h = true /\ lab c1 h = g
              /\ In c2 blocks /\ contains (read_roi c2) h = true /\ lab c2 h = g1
              /\ value_at array_in h <> 0).
    { destruct Hedge as [Hin | Hin];
        apply (merge_sound array_in block_size blocks es Hpart Hsched) in Hin;
        destruct Hin as [Hu [Hw [c1 [h [Hc1 [Hh [Eu [Ew _]]]]]]]];
        fold nvox lab prov in Eu, Ew;
        assert (Hvh : value_at array_in h <> 0) by (apply (lab_value c1); congruence);
        destruct (prov_owner h ltac:(congruence)) as [c2 [Hc2 [Hw2 Ep]]];
        assert (Hr2 := part_write_read vol block_size blocks Hpart c2 h Hc2 Hw2).
      - exists c1, c2, h. repeat split; auto; congruence.
      - exists c2, c1, h. repeat split; auto; congruence. }
    destruct Hshare as [c1 [c2 [h [Hc1 [Hh1 [El1 [Hc2 [Hh2 [El2 Hvh]]]]]]]]].
    destruct (IH c2 h Hc2 Hh2 Hvh El2) as [c' [y [Hc' [Hy [Hvy [Ely Hconn]]]]]].
    exists c', y. repeat split; auto.
    eapply joined_trans; [| exact Hconn].
    apply (same_label_connected c c1); auto. congruence.
Qed.

(** The characterisation of the output: two foreground voxels end with
    the same canonical label exactly when they are connected. *)
Lemma canonical_connected p q :
  contains vol p = true -> value_at array_in p <> 0 ->
  contains vol q = true -> value_at array_in q <> 0 ->
  (canonical tmp (prov p) = canonical tmp (prov q) <-> connected array_in p q).
Proof.
  intros Hp Hvp Hq Hvq.
  unfold tmp.
  rewrite (canonical_same array_in block_size blocks es Hpart Hsched).
  fold tmp E. split.
  - intros Hconn.
    destruct (part_cover vol block_size blocks Hpart p Hp) as [c1 [Hc1 Hw1]].
    destruct (part_cover vol block_size blocks Hpart q Hq) as [c2 [Hc2 Hw2]].
    assert (Hr1 := part_write_read vol block_size blocks Hpart c1 p Hc1 Hw1).
    assert (Hr2 := part_write_read vol block_size blocks Hpart c2 q Hc2 Hw2).
    assert (Ep : prov p = lab c1 p) by (apply (provisional_owner vol block_size); auto).
    assert (Eq : prov q = lab c2 q) by (apply (provisional_owner vol block_size); auto).
    destruct (class_connected _ _ Hconn c1 p Hc1 Hr1 Hvp (eq_sym Ep))
      as [c' [y [Hc' [Hy [Hvy [Ely Hpy]]]]]].
    eapply joined_trans; [exact Hpy |].
    apply (same_label_connected c' c2); auto. congruence.
  - intros Hconn. unfold connected, connected_in in Hconn.
    induction Hconn as [p Hd Hv | p q' s Hd Hv Ha Heq Hqs IH].
    + apply econn_refl.
    + destruct (joined_start Hqs) as [Hdq Hvq'].
      eapply econn_trans; [| apply IH; assumption].
      apply (adjacent_merged array_in block_size blocks es Hpart Hsched); auto;
        apply prov_nonzero; assumption.
Qed.

End PipelineFit.

(** ** Sorted distinct values *)

Lemma insert_value_sorted x l :
  StronglySorted Z.lt l -> StronglySorted Z.lt (insert_value x l).
Proof.
  induction 1 as [| y l Hs IH Hall]; simpl.
  - constructor; constructor.
  - destruct (Z.ltb_spec x y) as [Hlt | Hge].
    + constructor.
      * constructor; assumption.
      * constructor; [exact Hlt |].
        rewrite Forall_forall in Hall |- *. intros z Hz.
        specialize (Hall z Hz). lia.
    + destruct (Z.eqb_spec x y) as [Heq | Hne].
      * constructor; assumption.
      * constructor; [exact IH |].
        rewrite Forall_forall in Hall |- *. intros z Hz.
        apply insert_value_in in Hz. destruct Hz as [-> | Hz]; [lia | auto].
Qed.

Lemma unique_NoDup l : NoDup (unique l).
Proof.
  assert (Hs : StronglySorted Z.lt (unique l)).
  { induction l as [| x l IH]; simpl; [constructor |].
    apply insert_value_sorted. exact IH. }
  induction Hs as [| y r Hs IH Hall]; constructor; [| exact IH].
  intros Hin. rewrite Forall_forall in Hall. specialize (Hall y Hin). lia.
Qed.

(** ** Single voxels and the inside of a region *)

(** A voxel none of whose six neighbours carries its value is a blob of
    its own. *)
Lemma joined_single dom val p q :
  (forall d, (d < 3)%nat ->
     val (cadd p (unit_vec d)) <> val p /\ val (csub p (unit_vec d)) <> val p) ->
  joined dom val p q -> q = p.
Proof.
  intros Hn H. destruct H as [p _ _ | p q s _ _ Hadj Heq _]; [reflexivity |].
  exfalso. destruct Hadj as [d [Hd [-> | Hp]]].
  - destruct (Hn d Hd) as [H _]. contradiction.
  - assert (q = csub p (unit_vec d)).
    { rewrite Hp. destruct q as [[x y] z].
      destruct d as [| [| d]]; simpl; f_equal; try f_equal; lia. }
    subst q. destruct (Hn d Hd) as [_ H]. contradiction.
Qed.

Lemma interior_contains r p : interior r p = true -> contains r p = true.
Proof.
  unfold interior. rewrite !contains_iff.
  destruct r as [[[ox oy] oz] [[sx sy] sz]], p as [[x y] z]. simpl. lia.
Qed.

(** A voxel on an outermost slice of the read region of a block lies
    outside the write region of the block, within one voxel of it; so a
    voxel in the inside of a region has a voxel of the block next to it
    in that region. *)
Lemma face_near r rb h d pos :
  coord_leb ones (roi_shape r) = true -> (d < 3)%nat ->
  In (csub h (roi_offset (grow r ones ones)))
     (face (roi_shape (grow r ones ones)) d pos) ->
  contains r h = false
  /\ (interior rb h = true ->
      exists h', contains r h' = true /\ contains rb h' = true).
Proof.
  intros Hs Hd Hf. apply face_in in Hf. destruct Hf as [Hb Hax].
  destruct r as [[[ox oy] oz] [[sx sy] sz]], rb as [[[bx by'] bz] [[tx ty] tz]],
           h as [[x y] z].
  unfold coord_leb, ones in Hs. cbn [roi_shape] in Hs.
  rewrite !andb_true_iff, !Z.leb_le in Hs.
  unfold grow, ones, csub, cadd in Hb, Hax. cbn [roi_offset roi_shape] in Hb, Hax.
  rewrite in_bounds_iff in Hb.
  split.
  - apply not_true_iff_false. rewrite contains_iff. cbn [roi_offset roi_shape].
    assert (Hcase : d = 0%nat \/ d = 1%nat \/ d = 2%nat) by lia.
    destruct Hcase as [-> | [-> | ->]]; destruct pos; simpl in Hax; lia.
  - unfold interior. rewrite !contains_iff. cbn [roi_offset roi_shape cadd csub ones].
    intros Hi.
    exists (Z.max ox (Z.min x (ox + sx - 1)),
            Z.max oy (Z.min y (oy + sy - 1)),
            Z.max oz (Z.min z (oz + sz - 1))).
    rewrite !contains_iff. cbn [roi_offset roi_shape]. lia.
Qed.

(* ================================================================== *)
(** * Part III: the claims of the specification *)
(* ================================================================== *)

(** Two voxels next to each other along the axis [d], with the same
    nonzero value, are connected. *)
Lemma connected_neighbours array_in p d :
  (d < 3)%nat ->
  contains (arr_roi array_in) p = true ->
  contains (arr_roi array_in) (cadd p (unit_vec d)) = true ->
  value_at array_in p <> 0 ->
  value_at array_in (cadd p (unit_vec d)) = value_at array_in p ->
  connected array_in p (cadd p (unit_vec d)).
Proof.
  intros Hd Hp Hq Hv Heq. eapply joined_step; [exact Hp | exact Hv | | exact Heq |].
  - exists d. split; [exact Hd | left; reflexivity].
  - apply joined_refl; [exact Hq | congruence].
Qed.

(** ** C1: connected voxels receive the same label *)

(** C1, as amended. For every input volume, partition and execution
    order, provided the labels of all blocks fit the dtype of the input,
    two voxels joined by a path of face-adjacent voxels of equal nonzero
    value receive the same label in the final output, also when the path
    crosses block borders. *)
Theorem connected_voxels_same_label array_in block_size blocks es order p q :
  valid_partition (arr_roi array_in) block_size blocks = true ->
  valid_schedule blocks es = true ->
  valid_schedule3 blocks order = true ->
  labels_fit (arr_dtype array_in) block_size blocks = true ->
  connected array_in p q ->
  exists out,
    relabel_connected_components array_in (zeros_like array_in) block_size es order
    = Ok out
    /\ arr_data out p = arr_data out q.
Proof.
  intros Hpart Hs Hs3 Hfit Hconn.
  destruct (joined_start Hconn) as [Hp Hvp].
  destruct (joined_end Hconn) as [Hq Hvq].
  assert (Hne : blocks <> []).
  { destruct (part_cover _ _ _ Hpart p Hp) as [b [Hb _]].
    intros ->. contradiction. }
  destruct (pipeline_output array_in block_size blocks es Hpart Hs order Hs3 Hne)
    as [out [Hrun Hout]].
  exists out. split; [exact Hrun |]. rewrite !Hout.
  apply (canonical_connected array_in block_size blocks es Hpart Hs Hfit); auto.
  congruence.
Qed.

Lemma connected_voxels_same_label_witness :
  exists out,
    relabel_connected_components (row8_array [3; 4]) (zeros_like (row8_array [3; 4]))
      (4, 1, 1)
      [Commit (make_block 1 (4, 0, 0) (4, 1, 1));
       Commit (make_block 0 (0, 0, 0) (4, 1, 1));
       Observe (make_block 1 (4, 0, 0) (4, 1, 1));
       Observe (make_block 0 (0, 0, 0) (4, 1, 1))]
      (relabel_blocks row8_blocks) = Ok out
    /\ arr_data out (3, 0, 0) = arr_data out (4, 0, 0).
Proof.
  apply (connected_voxels_same_label (row8_array [3; 4]) (4, 1, 1) row8_blocks
           [Commit (make_block 1 (4, 0, 0) (4, 1, 1));
            Commit (make_block 0 (0, 0, 0) (4, 1, 1));
            Observe (make_block 1 (4, 0, 0) (4, 1, 1));
            Observe (make_block 0 (0, 0, 0) (4, 1, 1))]
           (relabel_blocks row8_blocks) (3, 0, 0) (4, 0, 0));
    try (vm_compute; reflexivity).
  apply (connected_neighbours (row8_array [3; 4]) (3, 0, 0) 0);
    vm_compute; try reflexivity; try lia; discriminate.
Defined.

(** C1 fails as stated: in the 8-bit strip the run of value 2 across the
    border of the blocks 2 and 3 is the fourth component of block 3,
    whose label 3 * 84 + 4 = 256 the dtype stores as 0. The pair that
    either block observes at the border has a 0 in it and is discarded,
    and the two voxels of the run end with 170 and 0. *)
Lemma connected_voxels_split_by_wrap :
  valid_partition strip20 (2, 1, 5) strip20_blocks = true
  /\ valid_schedule strip20_blocks (sequential strip20_blocks) = true
  /\ valid_schedule3 strip20_blocks strip20_blocks = true
  /\ connected (strip20_array strip20_run) (1, 0, 14) (1, 0, 15)
  /\ output_at
       (relabel_connected_components (strip20_array strip20_run)
          (zeros_like (strip20_array strip20_run)) (2, 1, 5)
          (sequential strip20_blocks) strip20_blocks) (1, 0, 14) = Ok 170
  /\ output_at
       (relabel_connected_components (strip20_array strip20_run)
          (zeros_like (strip20_array strip20_run)) (2, 1, 5)
          (sequential strip20_blocks) strip20_blocks) (1, 0, 15) = Ok 0.
Proof.
  repeat split; try (vm_compute; reflexivity).
  apply (connected_neighbours (strip20_array strip20_run) (1, 0, 14) 2);
    vm_compute; try reflexivity; try lia; discriminate.
Qed.

(** ** C2: disconnected voxels receive distinct labels *)

(** C2, as amended. For every input volume, partition and execution
    order, provided the labels of all blocks fit the dtype of the input,
    two foreground voxels that no path of face-adjacent voxels of equal
    value joins receive distinct nonzero labels in the final output. *)
Theorem disconnected_voxels_distinct_labels
    array_in block_size blocks es order p q :
  valid_partition (arr_roi array_in) block_size blocks = true ->
  valid_schedule blocks es = true ->
  valid_schedule3 blocks order = true ->
  labels_fit (arr_dtype array_in) block_size blocks = true ->
  contains (arr_roi array_in) p = true -> value_at array_in p <> 0 ->
  contains (arr_roi array_in) q = true -> value_at array_in q <> 0 ->
  ~ connected array_in p q ->
  exists out,
    relabel_connected_components array_in (zeros_like array_in) block_size es order
    = Ok out
    /\ arr_data out p <> arr_data out q
    /\ arr_data out p <> 0 /\ arr_data out q <> 0.
Proof.
  intros Hpart Hs Hs3 Hfit Hp Hvp Hq Hvq Hnc.
  assert (Hne : blocks <> []).
  { destruct (part_cover _ _ _ Hpart p Hp) as [b [Hb _]].
    intros ->. contradiction. }
  destruct (pipeline_output array_in block_size blocks es Hpart Hs order Hs3 Hne)
    as [out [Hrun Hout]].
  exists out. split; [exact Hrun |]. rewrite !Hout. split; [| split].
  - intros Heq. apply Hnc.
    apply (canonical_connected array_in block_size blocks es Hpart Hs Hfit); auto.
  - apply (canonical_nonzero array_in block_size blocks es Hpart Hs).
    apply (prov_nonzero array_in block_size blocks Hpart Hfit); assumption.
  - apply (canonical_nonzero array_in block_size blocks es Hpart Hs).
    apply (prov_nonzero array_in block_size blocks Hpart Hfit); assumption.
Qed.

(** The voxel at one end of the row is a blob of its own when no
    neighbour carries its value. *)
Lemma row8_end_single fg q :
  existsb (Z.eqb 0) fg = true -> existsb (Z.eqb 1) fg = false ->
  connected (row8_array fg) (0, 0, 0) q -> q = (0, 0, 0).
Proof.
  intros H0 H1. apply joined_single. intros d Hd.
  assert (Hv : value_at (row8_array fg) (0, 0, 0) = 1).
  { unfold value_at, row8_array, row8. cbn. rewrite H0. reflexivity. }
  rewrite Hv.
  assert (Hcase : d = 0%nat \/ d = 1%nat \/ d = 2%nat) by lia.
  destruct Hcase as [-> | [-> | ->]]; unfold value_at, row8_array, row8; cbn;
    rewrite ?H1; split; discriminate.
Qed.

Lemma disconnected_voxels_distinct_labels_witness :
  exists out,
    relabel_connected_components (row8_array [0; 7]) (zeros_like (row8_array [0; 7]))
      (4, 1, 1) (sequential row8_blocks) row8_blocks = Ok out
    /\ arr_data out (0, 0, 0) <> arr_data out (7, 0, 0)
    /\ arr_data out (0, 0, 0) <> 0 /\ arr_data out (7, 0, 0) <> 0.
Proof.
  apply (disconnected_voxels_distinct_labels (row8_array [0; 7]) (4, 1, 1)
           row8_blocks (sequential row8_blocks) row8_blocks (0, 0, 0) (7, 0, 0));
    try (vm_compute; reflexivity); try (vm_compute; discriminate).
  intros H. apply row8_end_single in H; [discriminate H | reflexivity | reflexivity].
Defined.

(** The voxel at the start of the strip is a blob of its own. *)
Lemma strip20_dots_apart :
  ~ connected (strip20_array strip20_dots) (0, 0, 0) (1, 0, 17).
Proof.
  intros H. apply joined_single in H; [discriminate H |].
  intros d Hd.
  assert (Hcase : d = 0%nat \/ d = 1%nat \/ d = 2%nat) by lia.
  destruct Hcase as [-> | [-> | ->]]; vm_compute; split; discriminate.
Qed.

(** C2 fails as stated: in the 8-bit strip the voxel at (1, 0, 17) is the
    fifth component of block 3, whose label 3 * 84 + 5 = 257 the dtype
    stores as 1, the label that block 0 gives the voxel at (0, 0, 0).
    The two voxels have the input value 1, are not connected, and both
    end with the label 1. *)
Lemma disconnected_voxels_merged_by_wrap :
  valid_partition strip20 (2, 1, 5) strip20_blocks = true
  /\ valid_schedule strip20_blocks (sequential strip20_blocks) = true
  /\ valid_schedule3 strip20_blocks strip20_blocks = true
  /\ value_at (strip20_array strip20_dots) (0, 0, 0) = 1
  /\ value_at (strip20_array strip20_dots) (1, 0, 17) = 1
  /\ ~ connected (strip20_array strip20_dots) (0, 0, 0) (1, 0, 17)
  /\ output_at
       (relabel_connected_components (strip20_array strip20_dots)
          (zeros_like (strip20_array strip20_dots)) (2, 1, 5)
          (sequential strip20_blocks) strip20_blocks) (0, 0, 0) = Ok 1
  /\ output_at
       (relabel_connected_components (strip20_array strip20_dots)
          (zeros_like (strip20_array strip20_dots)) (2, 1, 5)
          (sequential strip20_blocks) strip20_blocks) (1, 0, 17) = Ok 1.
Proof.
  repeat split; try (vm_compute; reflexivity).
  exact strip20_dots_apart.
Qed.

(** ** C3: the background stays 0 and the foreground does not become 0 *)

(** C3, as amended. After the full pipeline every voxel whose input value
    is 0 has the output value 0; and, provided the labels of all blocks
    fit the dtype of the input, no voxel with a nonzero input value has
    the output value 0. *)
Theorem zero_preserved array_in block_size blocks es order p :
  valid_partition (arr_roi array_in) block_size blocks = true ->
  valid_schedule blocks es = true ->
  valid_schedule3 blocks order = true ->
  contains (arr_roi array_in) p = true ->
  exists out,
    relabel_connected_components array_in (zeros_like array_in) block_size es order
    = Ok out
    /\ (value_at array_in p = 0 -> arr_data out p = 0)
    /\ (labels_fit (arr_dtype array_in) block_size blocks = true ->
        value_at array_in p <> 0 -> arr_data out p <> 0).
Proof.
  intros Hpart Hs Hs3 Hp.
  destruct (part_cover _ _ _ Hpart p Hp) as [b [Hb Hw]].
  assert (Hne : blocks <> []) by (intros ->; contradiction).
  destruct (pipeline_output array_in block_size blocks es Hpart Hs order Hs3 Hne)
    as [out [Hrun Hout]].
  exists out. split; [exact Hrun |]. rewrite Hout. split.
  - intros Hv.
    rewrite (provisional_owner _ _ _ Hpart array_in _ b p Hb Hw).
    rewrite block_label_background by exact Hv.
    apply (canonical_zero array_in block_size blocks es Hpart Hs).
  - intros Hfit Hv.
    apply (canonical_nonzero array_in block_size blocks es Hpart Hs).
    apply (prov_nonzero array_in block_size blocks Hpart Hfit); assumption.
Qed.

Lemma zero_preserved_witness :
  exists out,
    relabel_connected_components (row8_array [3; 4]) (zeros_like (row8_array [3; 4]))
      (4, 1, 1) (sequential row8_blocks) row8_blocks = Ok out
    /\ (value_at (row8_array [3; 4]) (3, 0, 0) = 0 -> arr_data out (3, 0, 0) = 0)
    /\ (labels_fit (arr_dtype (row8_array [3; 4])) (4, 1, 1) row8_blocks = true ->
        value_at (row8_array [3; 4]) (3, 0, 0) <> 0 -> arr_data out (3, 0, 0) <> 0).
Proof.
  apply (zero_preserved (row8_array [3; 4]) (4, 1, 1) row8_blocks
           (sequential row8_blocks) row8_blocks (3, 0, 0));
    vm_compute; reflexivity.
Defined.

(** C3 fails as stated: in the 8-bit strip the voxel at (1, 0, 15) has
    the input value 2, and its label 3 * 84 + 4 = 256 is stored as 0. *)
Lemma foreground_zeroed_by_wrap :
  valid_partition strip20 (2, 1, 5) strip20_blocks = true
  /\ valid_schedule strip20_blocks (sequential (rev strip20_blocks)) = true
  /\ valid_schedule3 strip20_blocks (rev strip20_blocks) = true
  /\ contains strip20 (1, 0, 15) = true
  /\ value_at (strip20_array strip20_run) (1, 0, 15) = 2
  /\ output_at
       (relabel_connected_components (strip20_array strip20_run)
          (zeros_like (strip20_array strip20_run)) (2, 1, 5)
          (sequential (rev strip20_blocks)) (rev strip20_blocks))
       (1, 0, 15) = Ok 0.
Proof.
  repeat split; vm_compute; reflexivity.
Qed.

(** ** C4: what does not depend on the execution order *)

(** The classes of the output: two voxels of the volume carry the same
    output value exactly when both are background, or both are
    foreground and connected. *)
Lemma output_classes array_in block_size blocks es p q :
  valid_partition (arr_roi array_in) block_size blocks = true ->
  valid_schedule blocks es = true ->
  labels_fit (arr_dtype array_in) block_size blocks = true ->
  contains (arr_roi array_in) p = true ->
  contains (arr_roi array_in) q = true ->
  (canonical (scratch array_in block_size es)
     (provisional array_in (num_voxels block_size) blocks p)
   = canonical (scratch array_in block_size es)
       (provisional array_in (num_voxels block_size) blocks q)
   <-> (value_at array_in p = 0 /\ value_at array_in q = 0)
       \/ (value_at array_in p <> 0 /\ value_at array_in q <> 0
           /\ connected array_in p q)).
Proof.
  intros Hpart Hs Hfit Hp Hq.
  assert (Hzero : forall x, contains (arr_roi array_in) x = true ->
            value_at array_in x = 0 ->
            canonical (scratch array_in block_size es)
              (provisional array_in (num_voxels block_size) blocks x) = 0).
  { intros x Hx Hv.
    destruct (part_cover _ _ _ Hpart x Hx) as [b [Hb Hw]].
    rewrite (provisional_owner _ _ _ Hpart array_in _ b x Hb Hw).
    rewrite block_label_background by exact Hv.
    apply (canonical_zero array_in block_size blocks es Hpart Hs). }
  assert (Hnz : forall x, contains (arr_roi array_in) x = true ->
            value_at array_in x <> 0 ->
            canonical (scratch array_in block_size es)
              (provisional array_in (num_voxels block_size) blocks x) <> 0).
  { intros x Hx Hv.
    apply (canonical_nonzero array_in block_size blocks es Hpart Hs).
    apply (prov_nonzero array_in block_size blocks Hpart Hfit); assumption. }
  destruct (Z.eq_dec (value_at array_in p) 0) as [Hvp | Hvp];
    destruct (Z.eq_dec (value_at array_in q) 0) as [Hvq | Hvq].
  - rewrite (Hzero p Hp Hvp), (Hzero q Hq Hvq). tauto.
  - rewrite (Hzero p Hp Hvp). pose proof (Hnz q Hq Hvq). split.
    + intros H'. congruence.
    + intros [[_ H'] | [H' _]]; contradiction.
  - rewrite (Hzero q Hq Hvq). pose proof (Hnz p Hp Hvp). split.
    + intros H'. congruence.
    + intros [[H' _] | [_ [H' _]]]; contradiction.
  - rewrite (canonical_connected array_in block_size blocks es Hpart Hs Hfit
               p q Hp Hvp Hq Hvq).
    tauto.
Qed.

(** C4, as amended. For a fixed input volume and a fixed partition, the
    final output of a given phase-1 schedule is the same for every order
    of phase 3; and, provided the labels of all blocks fit the dtype of
    the input, the outputs of any two phase-1 schedules agree up to the
    names of the labels: the same voxels are 0 and the same pairs of
    voxels carry equal labels. The values of the labels themselves
    depend on the order in which adjacent blocks run. *)
Theorem output_up_to_renaming array_in block_size blocks es es' order order' :
  valid_partition (arr_roi array_in) block_size blocks = true ->
  valid_schedule blocks es = true -> valid_schedule blocks es' = true ->
  valid_schedule3 blocks order = true -> valid_schedule3 blocks order' = true ->
  blocks <> [] ->
  exists out1 out2 out',
    relabel_connected_components array_in (zeros_like array_in) block_size es order
    = Ok out1
    /\ relabel_connected_components array_in (zeros_like array_in) block_size es order'
       = Ok out2
    /\ relabel_connected_components array_in (zeros_like array_in) block_size es' order'
       = Ok out'
    /\ (forall p, arr_data out1 p = arr_data out2 p)
    /\ (labels_fit (arr_dtype array_in) block_size blocks = true ->
        forall p q,
          contains (arr_roi array_in) p = true ->
          contains (arr_roi array_in) q = true ->
          (arr_data out1 p = 0 <-> arr_data out' p = 0)
          /\ (arr_data out1 p = arr_data out1 q <-> arr_data out' p = arr_data out' q)).
Proof.
  intros Hpart Hs Hs' Hs3 Hs3' Hne.
  destruct (pipeline_output array_in block_size blocks es Hpart Hs order Hs3 Hne)
    as [out1 [Hrun1 Hout1]].
  destruct (pipeline_output array_in block_size blocks es Hpart Hs order' Hs3' Hne)
    as [out2 [Hrun2 Hout2]].
  destruct (pipeline_output array_in block_size blocks es' Hpart Hs' order' Hs3' Hne)
    as [out' [Hrun' Hout']].
  exists out1, out2, out'.
  split; [exact Hrun1 |]. split; [exact Hrun2 |]. split; [exact Hrun' |]. split.
  - intros p. rewrite Hout1, Hout2. reflexivity.
  - intros Hfit p q Hp Hq. rewrite !Hout1, !Hout'. split.
    + destruct (Z.eq_dec (value_at array_in p) 0) as [Hv | Hv].
      * destruct (part_cover _ _ _ Hpart p Hp) as [b [Hb Hw]].
        rewrite (provisional_owner _ _ _ Hpart array_in _ b p Hb Hw).
        rewrite block_label_background by exact Hv.
        rewrite (canonical_zero array_in block_size blocks es Hpart Hs).
        rewrite (canonical_zero array_in block_size blocks es' Hpart Hs').
        tauto.
      * pose proof (prov_nonzero array_in block_size blocks Hpart Hfit p Hp Hv) as Hn.
        pose proof (canonical_nonzero array_in block_size blocks es Hpart Hs _ Hn).
        pose proof (canonical_nonzero array_in block_size blocks es' Hpart Hs' _ Hn).
        tauto.
    + rewrite (output_classes array_in block_size blocks es p q Hpart Hs Hfit Hp Hq).
      rewrite (output_classes array_in block_size blocks es' p q Hpart Hs' Hfit Hp Hq).
      tauto.
Qed.

Lemma output_up_to_renaming_witness :
  exists out1 out2 out',
    relabel_connected_components (row8_array [3; 4]) (zeros_like (row8_array [3; 4]))
      (4, 1, 1) (sequential row8_blocks) row8_blocks = Ok out1
    /\ relabel_connected_components (row8_array [3; 4]) (zeros_like (row8_array [3; 4]))
         (4, 1, 1) (sequential row8_blocks) (rev (relabel_blocks row8_blocks))
       = Ok out2
    /\ relabel_connected_components (row8_array [3; 4]) (zeros_like (row8_array [3; 4]))
         (4, 1, 1) (sequential (rev row8_blocks)) (rev (relabel_blocks row8_blocks))
       = Ok out'
    /\ (forall p, arr_data out1 p = arr_data out2 p)
    /\ (labels_fit (arr_dtype (row8_array [3; 4])) (4, 1, 1) row8_blocks = true ->
        forall p q,
          contains (arr_roi (row8_array [3; 4])) p = true ->
          contains (arr_roi (row8_array [3; 4])) q = true ->
          (arr_data out1 p = 0 <-> arr_data out' p = 0)
          /\ (arr_data out1 p = arr_data out1 q <-> arr_data out' p = arr_data out' q)).
Proof.
  apply (output_up_to_renaming (row8_array [3; 4]) (4, 1, 1) row8_blocks
           (sequential row8_blocks) (sequential (rev row8_blocks))
           row8_blocks (rev (relabel_blocks row8_blocks)));
    try (vm_compute; reflexivity).
  discriminate.
Defined.

(** C4 fails as stated: with a single foreground voxel at index 4, next
    to the border of the two blocks, block 0 labels the voxel 1 in its
    halo and block 1 writes the label 55. When block 0 runs last it
    records the edge (1, 55), and the voxel ends with 1; when block 1
    runs last no edge is recorded, and the voxel ends with 55. *)
Lemma output_depends_on_order :
  valid_partition row8 (4, 1, 1) row8_blocks = true
  /\ valid_schedule row8_blocks (sequential row8_blocks) = true
  /\ valid_schedule row8_blocks (sequential (rev row8_blocks)) = true
  /\ valid_schedule3 row8_blocks row8_blocks = true
  /\ output_at
       (relabel_connected_components (row8_array [4]) (zeros_like (row8_array [4]))
          (4, 1, 1) (sequential row8_blocks) row8_blocks) (4, 0, 0) = Ok 55
  /\ output_at
       (relabel_connected_components (row8_array [4]) (zeros_like (row8_array [4]))
          (4, 1, 1) (sequential (rev row8_blocks)) row8_blocks) (4, 0, 0) = Ok 1.
Proof.
  repeat split; vm_compute; reflexivity.
Qed.

(** ** C5: the ranges of the blocks *)




(** ** C6: the file of a block *)

(** C6, as amended. For each of the three axes and each of its two
    faces, the edge candidates pair, element by element, the outermost
    slice of the block's own offset labels over the whole read region
    (the slice in the halo, not a slice of the cropped labels) with the
    same slice of the destination array re-read after the block's own
    write; the pairs with a 0 on either side are discarded. The edges of
    the file are the retained pairs over all axes and faces, and its
    nodes are exactly the distinct values that appear in them. *)
Theorem block_file_contents array_in array_out nvox b tmp :
  exists f,
    In (block_id b, f)
       (snd (find_components_in_block array_in array_out nvox b tmp))
    /\ (forall u v,
          In (u, v) (npz_edges f) <->
          u <> 0 /\ v <> 0
          /\ exists d pos i, (d < 3)%nat
               /\ In i (face (roi_shape (read_roi b)) d pos)
               /\ u = nd_get (block_components array_in nvox b) i
               /\ v = nd_get (to_ndarray
                                (fst (find_components_in_block
                                        array_in array_out nvox b tmp))
                                (read_roi b) 0) i)
    /\ (forall x,
          In x (npz_nodes f) <->
          exists u v, In (u, v) (npz_edges f) /\ (x = u \/ x = v))
    /\ NoDup (npz_nodes f).
Proof.
  unfold find_components_in_block. cbn [fst snd].
  eexists. split; [apply savez_new |]. cbn [npz_edges npz_nodes].
  split; [| split].
  - intros u v. rewrite block_edges_in, block_components_shape. reflexivity.
  - intros x. rewrite unique_in, endpoints_in. reflexivity.
  - apply unique_NoDup.
Qed.

(** C6 fails as stated: with a single foreground voxel at index 4 of the
    row, written by block 1 before block 0 runs, the cropped labels of
    block 0 are all 0, so that pairing their outermost slices with the
    re-read array retains nothing; the file of block 0 holds the edge
    (1, 55), whose first label is the one block 0 gave the voxel in its
    halo. *)
Lemma block_file_uses_halo_labels :
  let array_in := row8_array [4] in
  let b0 := make_block 0 (0, 0, 0) (4, 1, 1) in
  let b1 := make_block 1 (4, 0, 0) (4, 1, 1) in
  let after_b1 := commit_block array_in (zeros_like array_in) 54 b1 in
  let run_b0 := find_components_in_block array_in after_b1 54 b0 [] in
  snd run_b0 = [(0, mk_npz [1; 55] [(1, 55)])]
  /\ block_edges_as_specified (block_components array_in 54 b0)
       (to_ndarray (fst run_b0) (read_roi b0) 0) = []
  /\ map (nd_get (crop (block_components array_in 54 b0)))
         (indices (nd_shape (crop (block_components array_in 54 b0))))
     = [0; 0; 0; 0].
Proof.
  repeat split; vm_compute; reflexivity.
Qed.

(** ** C7: a blob in the inside of a block *)

Lemma part_shape vol block_size blocks b :
  valid_partition vol block_size blocks = true -> In b blocks ->
  coord_leb ones (roi_shape (write_roi b)) = true.
Proof.
  intros Hpart Hb. pose proof (part_block_ok vol block_size blocks Hpart b Hb) as H.
  unfold block_ok in H. rewrite !andb_true_iff in H. tauto.
Qed.

(** The nodes of the scratch directory are the labels of its edges. *)
Lemma merge_nodes_endpoints array_in block_size blocks es x :
  valid_partition (arr_roi array_in) block_size blocks = true ->
  valid_schedule blocks es = true ->
  In x (all_nodes (scratch array_in block_size es)) ->
  In x (endpoints (all_edges (scratch array_in block_size es))).
Proof.
  intros Hpart Hs Hx. apply all_nodes_in in Hx. destruct Hx as [id [f [Hf Hx]]].
  destruct (phase1_tmp array_in block_size blocks Hpart es
              (sched_events blocks es Hs) id f Hf) as [Hn _].
  rewrite Hn in Hx. apply (proj1 (unique_in _ _)) in Hx.
  apply (proj1 (endpoints_in _ _)) in Hx.
  destruct Hx as [u [v [Huv Hx]]].
  apply endpoints_in. exists u, v. split; [| exact Hx].
  apply all_edges_in. exists id, f. auto.
Qed.

(** C7, as amended. Provided the labels of all blocks fit the dtype of
    the input, a connected foreground blob that lies in the inside of
    the write region of one block, touching no border of it, keeps its
    offset provisional label through the relabel pass: the label is
    [block_id * capacity + L] cast to the dtype of the input (the
    integer itself when no label exceeds the largest value of the
    dtype), it is on no recorded edge and in no recorded node list, the
    canonical mapping leaves it alone, and the output carries it
    unchanged. *)
Theorem interior_blob_keeps_label array_in block_size blocks es order b p :
  valid_partition (arr_roi array_in) block_size blocks = true ->
  valid_schedule blocks es = true ->
  valid_schedule3 blocks order = true ->
  labels_fit (arr_dtype array_in) block_size blocks = true ->
  In b blocks -> value_at array_in p <> 0 ->
  (forall q, connected array_in p q -> interior (write_roi b) q = true) ->
  exists out,
    relabel_connected_components array_in (zeros_like array_in) block_size es order
    = Ok out
    /\ provisional array_in (num_voxels block_size) blocks p
       = wrap (arr_dtype array_in)
           (block_id b * num_voxels block_size + local_label array_in b p)
    /\ (labels_representable (arr_dtype array_in) block_size blocks = true ->
        provisional array_in (num_voxels block_size) blocks p
        = block_id b * num_voxels block_size + local_label array_in b p)
    /\ ~ In (provisional array_in (num_voxels block_size) blocks p)
            (endpoints (all_edges (scratch array_in block_size es)))
    /\ ~ In (provisional array_in (num_voxels block_size) blocks p)
            (all_nodes (scratch array_in block_size es))
    /\ arr_data out p = provisional array_in (num_voxels block_size) blocks p.
Proof.
  intros Hpart Hs Hs3 Hfit Hb Hv Hblob.
  set (nvox := num_voxels block_size).
  set (tmp := scratch array_in block_size es).
  assert (Hne : blocks <> []) by (intros ->; contradiction).
  assert (Hvol : contains (arr_roi array_in) p = true).
  { unfold value_at in Hv.
    destruct (contains (arr_roi array_in) p); [reflexivity | contradiction]. }
  assert (Hw : contains (write_roi b) p = true).
  { apply interior_contains. apply Hblob. apply joined_refl; assumption. }
  assert (Hr := part_write_read _ _ _ Hpart b p Hb Hw).
  assert (Ep : provisional array_in nvox blocks p = block_label array_in nvox b p).
  { apply (provisional_owner _ _ _ Hpart); assumption. }
  assert (Hnot : ~ In (provisional array_in nvox blocks p)
                      (endpoints (all_edges tmp))).
  { intros Hin. apply endpoints_in in Hin. destruct Hin as [u [v [Huv Hg]]].
    apply (merge_sound array_in block_size blocks es Hpart Hs) in Huv.
    destruct Huv as [Hu [Hv' [c [h [Hc [Hh [Eu [Ev [d [pos [Hd Hface]]]]]]]]]]].
    fold nvox in Eu, Ev.
    assert (Hvh : value_at array_in h <> 0).
    { apply (lab_value array_in block_size c). fold nvox. congruence. }
    assert (Hconn : connected array_in p h).
    { destruct Hg as [Hg | Hg].
      - apply (same_label_connected array_in block_size blocks Hpart Hfit b c);
          auto. fold nvox. congruence.
      - destruct (prov_owner array_in block_size blocks h) as [c2 [Hc2 [Hw2 E2]]].
        { fold nvox. congruence. }
        fold nvox in E2.
        apply (same_label_connected array_in block_size blocks Hpart Hfit b c2);
          auto.
        + apply (part_write_read _ _ _ Hpart); assumption.
        + fold nvox. congruence. }
    pose proof (Hblob h Hconn) as Hint.
    rewrite (part_read _ _ _ Hpart c Hc) in Hface.
    destruct (face_near (write_roi c) (write_roi b) h d pos
                (part_shape _ _ _ c Hpart Hc) Hd Hface) as [Hout Hnear].
    destruct (Hnear Hint) as [h' [Hc' Hb']].
    assert (c = b) by (eapply part_unique; eauto). subst c.
    rewrite (interior_contains _ _ Hint) in Hout. discriminate. }
  destruct (pipeline_output array_in block_size blocks es Hpart Hs order Hs3 Hne)
    as [out [Hrun Hout]].
  exists out. split; [exact Hrun |].
  split; [| split; [| split; [exact Hnot | split]]].
  - rewrite Ep. apply block_label_wrap. exact Hv.
  - intros Hrep. unfold labels_representable in Hrep.
    rewrite forallb_forall in Hrep. specialize (Hrep b Hb).
    apply Z.leb_le in Hrep. rewrite Ep.
    apply (block_label_exact array_in nvox b (part_id _ _ _ Hpart b Hb)
             (part_size _ _ _ Hpart b Hb) p Hrep Hr Hv).
  - intros Hin. apply Hnot.
    apply (merge_nodes_endpoints array_in block_size blocks es); assumption.
  - rewrite Hout.
    destruct (canonical_least array_in block_size blocks es Hpart Hs
                (provisional array_in nvox blocks p)) as [Hc _].
    apply econn_isolated in Hc; [exact Hc | exact Hnot].
Qed.

(** The voxel in the inside of block 0 of the plate is a blob of its own. *)
Lemma plate8_single dt q :
  connected (plate8_array dt) (1, 1, 1) q -> q = (1, 1, 1).
Proof.
  apply joined_single. intros d Hd.
  assert (Hcase : d = 0%nat \/ d = 1%nat \/ d = 2%nat) by lia.
  destruct Hcase as [-> | [-> | ->]]; vm_compute; split; discriminate.
Qed.

Lemma interior_blob_keeps_label_witness :
  exists out,
    relabel_connected_components (plate8_array uint16) (zeros_like (plate8_array uint16))
      (4, 4, 5) (sequential plate8_blocks) plate8_blocks = Ok out
    /\ provisional (plate8_array uint16) (num_voxels (4, 4, 5)) plate8_blocks (1, 1, 1)
       = wrap (arr_dtype (plate8_array uint16))
           (block_id (make_block 0 (0, 0, 0) (4, 4, 5)) * num_voxels (4, 4, 5)
            + local_label (plate8_array uint16) (make_block 0 (0, 0, 0) (4, 4, 5))
                (1, 1, 1))
    /\ (labels_representable (arr_dtype (plate8_array uint16)) (4, 4, 5) plate8_blocks
        = true ->
        provisional (plate8_array uint16) (num_voxels (4, 4, 5)) plate8_blocks (1, 1, 1)
        = block_id (make_block 0 (0, 0, 0) (4, 4, 5)) * num_voxels (4, 4, 5)
          + local_label (plate8_array uint16) (make_block 0 (0, 0, 0) (4, 4, 5))
              (1, 1, 1))
    /\ ~ In (provisional (plate8_array uint16) (num_voxels (4, 4, 5)) plate8_blocks (1, 1, 1))
            (endpoints (all_edges (scratch (plate8_array uint16) (4, 4, 5)
                                           (sequential plate8_blocks))))
    /\ ~ In (provisional (plate8_array uint16) (num_voxels (4, 4, 5)) plate8_blocks (1, 1, 1))
            (all_nodes (scratch (plate8_array uint16) (4, 4, 5)
                                (sequential plate8_blocks)))
    /\ arr_data out (1, 1, 1)
       = provisional (plate8_array uint16) (num_voxels (4, 4, 5)) plate8_blocks (1, 1, 1).
Proof.
  apply (interior_blob_keeps_label (plate8_array uint16) (4, 4, 5) plate8_blocks
           (sequential plate8_blocks) plate8_blocks
           (make_block 0 (0, 0, 0) (4, 4, 5)) (1, 1, 1));
    try (vm_compute; reflexivity).
  - left. reflexivity.
  - vm_compute. discriminate.
  - intros q Hq. apply plate8_single in Hq. subst q. vm_compute. reflexivity.
Defined.

(** C7 fails as stated: with an 8-bit dtype the bar of the plate is the
    sixth component of block 1, whose label 252 + 6 = 258 the dtype
    stores as 2, the provisional label of the single voxel in the inside
    of block 0. Block 1 records the edge (2, 1) where the bar crosses
    the border, the label 2 is among the nodes, and the voxel in the
    inside ends with the label 1 of the bar. *)
Lemma interior_blob_relabelled_by_wrap :
  valid_partition plate8 (4, 4, 5) plate8_blocks = true
  /\ valid_schedule plate8_blocks (sequential plate8_blocks) = true
  /\ valid_schedule3 plate8_blocks plate8_blocks = true
  /\ (forall q, connected (plate8_array uint8) (1, 1, 1) q ->
                interior (write_roi (make_block 0 (0, 0, 0) (4, 4, 5))) q = true)
  /\ provisional (plate8_array uint8) (num_voxels (4, 4, 5)) plate8_blocks (1, 1, 1) = 2
  /\ npz_edges (snd (nth 1 (scratch (plate8_array uint8) (4, 4, 5)
                                    (sequential plate8_blocks))
                         (0, mk_npz [] [])))
     = [(1, 7); (2, 1); (253, 3); (254, 4); (255, 5)]
  /\ output_at
       (relabel_connected_components (plate8_array uint8) (zeros_like (plate8_array uint8))
          (4, 4, 5) (sequential plate8_blocks) plate8_blocks) (1, 1, 1) = Ok 1.
Proof.
  repeat split; try (vm_compute; reflexivity).
  intros q Hq. apply plate8_single in Hq. subst q. vm_compute. reflexivity.
Qed.

(** ** C8: the dimension of the volume *)

(** A background voxel of the volume ends with 0. *)
Lemma canonical_background array_in block_size blocks es p :
  valid_partition (arr_roi array_in) block_size blocks = true ->
  valid_schedule blocks es = true ->
  contains (arr_roi array_in) p = true -> value_at array_in p = 0 ->
  canonical (scratch array_in block_size es)
    (provisional array_in (num_voxels block_size) blocks p) = 0.
Proof.
  intros Hpart Hs Hp Hv.
  destruct (part_cover _ _ _ Hpart p Hp) as [b [Hb Hw]].
  rewrite (provisional_owner _ _ _ Hpart array_in _ b p Hb Hw).
  rewrite block_label_background by exact Hv.
  apply (canonical_zero array_in block_size blocks es Hpart Hs).
Qed.

(** C8, as amended. The pipeline handles volumes of three dimensions. On
    a volume of 8 x 1 x 1 voxels with blocks of 4 x 1 x 1 (two blocks,
    ids 0 and 1) and a single run of 1-valued voxels at the indices 3
    and 4 of the first axis, it produces, for every execution order, one
    nonzero label at the indices 3 and 4 and 0 everywhere else. *)
Theorem row_scenario_one_label es order :
  valid_schedule row8_blocks es = true ->
  valid_schedule3 row8_blocks order = true ->
  exists out l,
    relabel_connected_components (row8_array [3; 4]) (zeros_like (row8_array [3; 4]))
      (4, 1, 1) es order = Ok out
    /\ l <> 0
    /\ forall x, 0 <= x < 8 ->
         arr_data out (x, 0, 0) = if (x =? 3) || (x =? 4) then l else 0.
Proof.
  intros Hs Hs3.
  assert (Hpart : valid_partition (arr_roi (row8_array [3; 4])) (4, 1, 1) row8_blocks
                  = true) by (vm_compute; reflexivity).
  assert (Hfit : labels_fit (arr_dtype (row8_array [3; 4])) (4, 1, 1) row8_blocks
                 = true) by (vm_compute; reflexivity).
  assert (Hne : row8_blocks <> []) by discriminate.
  destruct (pipeline_output _ _ _ es Hpart Hs order Hs3 Hne) as [out [Hrun Hout]].
  exists out, (arr_data out (3, 0, 0)). split; [exact Hrun |]. split.
  - rewrite Hout.
    apply (canonical_nonzero _ _ _ es Hpart Hs).
    apply (prov_nonzero _ _ _ Hpart Hfit); vm_compute; [reflexivity | discriminate].
  - intros x Hx.
    assert (Hcase : x = 0 \/ x = 1 \/ x = 2 \/ x = 3 \/ x = 4 \/ x = 5 \/ x = 6 \/ x = 7)
      by lia.
    assert (Hbg : forall y, contains row8 (y, 0, 0) = true ->
              value_at (row8_array [3; 4]) (y, 0, 0) = 0 ->
              arr_data out (y, 0, 0) = 0).
    { intros y Hy Hv. rewrite Hout.
      apply (canonical_background _ _ _ es (y, 0, 0) Hpart Hs Hy Hv). }
    destruct Hcase as [-> | [-> | [-> | [-> | [-> | [-> | [-> | ->]]]]]]];
      cbn [Z.eqb Pos.eqb orb];
      try (apply Hbg; vm_compute; reflexivity).
    + reflexivity.
    + rewrite !Hout. symmetry.
      apply (canonical_connected _ _ _ es Hpart Hs Hfit);
        try (vm_compute; reflexivity); try (vm_compute; discriminate).
      apply (connected_neighbours (row8_array [3; 4]) (3, 0, 0) 0);
        vm_compute; try reflexivity; try lia; discriminate.
Qed.

Lemma row_scenario_one_label_witness :
  exists out l,
    relabel_connected_components (row8_array [3; 4]) (zeros_like (row8_array [3; 4]))
      (4, 1, 1) (sequential (rev row8_blocks)) row8_blocks = Ok out
    /\ l <> 0
    /\ forall x, 0 <= x < 8 ->
         arr_data out (x, 0, 0) = if (x =? 3) || (x =? 4) then l else 0.
Proof.
  apply (row_scenario_one_label (sequential (rev row8_blocks)) row8_blocks);
    vm_compute; reflexivity.
Defined.

(** The entry point of any dimension, on the three-dimensional row. *)
Lemma row_scenario_nd :
  match relabel_connected_components_nd
          (arrayN (row8_array [3; 4])) (arrayN (zeros_like (row8_array [3; 4])))
          [4; 1; 1] row8_blocks_nd row8_blocks_nd with
  | Ok out => map (fun x => arrn_data out [x; 0; 0]) (zrange 8)
              = [0; 0; 0; 1; 1; 0; 0; 0]
  | Raise _ => False
  end.
Proof. vm_compute. reflexivity. Qed.

(** C8 fails as stated: on the one-dimensional volume of length 8 every
    block raises [IndexError] at line 112, where the one-dimensional
    array is indexed with three slices; no block leaves a scratch file,
    [np.concatenate] raises on the empty list, and the pipeline produces
    no output. *)
Lemma line_scenario_raises :
  find_components_in_block_nd (line8_array [3; 4]) (line8_array [])
    (num_voxels_nd [4]) (mkBlockN 0 [0] [4]) [] = Raise IndexError
  /\ find_components_in_block_nd (line8_array [3; 4]) (line8_array [])
       (num_voxels_nd [4]) (mkBlockN 1 [4] [4]) [] = Raise IndexError
  /\ relabel_connected_components_nd (line8_array [3; 4]) (line8_array [])
       [4] line8_blocks line8_blocks = Raise ValueError.
Proof.
  repeat split; vm_compute; reflexivity.
Qed.

(** ** C9: a block without a scratch file *)

(** C9, as amended. When the scratch entry of some block is missing and
    at least one block file exists, the collection reads exactly the
    files that exist and raises no error: it returns their nodes and
    their edges, concatenated, whatever blocks were expected. The merge
    then proceeds without the nodes and edges of the missing block: in
    the row with the run at the indices 3 and 4, the two voxels of the
    run have the provisional labels 1 and 55; the complete run collects
    the edge (55, 1) from the file of block 1, and the run in which
    block 1 fails after its write, before it saves its file, collects no
    edge at all. (With no file at all, the collection raises.) *)
Theorem missing_file_goes_unnoticed tmp (expected : list Z) :
  tmp <> [] ->
  (exists id, In id expected /\ ~ In id (map fst tmp)) ->
  read_cross_block_merges tmp = Ok (all_nodes tmp, all_edges tmp)
  /\ (let array_in := row8_array [3; 4] in
      let b0 := make_block 0 (0, 0, 0) (4, 1, 1) in
      let b1 := make_block 1 (4, 0, 0) (4, 1, 1) in
      connected array_in (3, 0, 0) (4, 0, 0)
      /\ provisional array_in 54 row8_blocks (3, 0, 0) = 1
      /\ provisional array_in 54 row8_blocks (4, 0, 0) = 55
      /\ read_cross_block_merges
           (scratch array_in (4, 1, 1) [Commit b0; Observe b0; Commit b1; Observe b1])
         = Ok ([1; 55], [(55, 1)])
      /\ map fst (scratch array_in (4, 1, 1) [Commit b0; Observe b0; Commit b1])
         = [0]
      /\ read_cross_block_merges
           (scratch array_in (4, 1, 1) [Commit b0; Observe b0; Commit b1])
         = Ok ([], [])).
Proof.
  intros Hne _. split; [apply read_cross_block_merges_ok; exact Hne |].
  repeat split; try (vm_compute; reflexivity).
  apply (connected_neighbours (row8_array [3; 4]) (3, 0, 0) 0);
    vm_compute; try reflexivity; try lia; discriminate.
Qed.

Lemma missing_file_goes_unnoticed_witness :
  read_cross_block_merges [(0, mk_npz [] [])]
  = Ok (all_nodes [(0, mk_npz [] [])], all_edges [(0, mk_npz [] [])])
  /\ (let array_in := row8_array [3; 4] in
      let b0 := make_block 0 (0, 0, 0) (4, 1, 1) in
      let b1 := make_block 1 (4, 0, 0) (4, 1, 1) in
      connected array_in (3, 0, 0) (4, 0, 0)
      /\ provisional array_in 54 row8_blocks (3, 0, 0) = 1
      /\ provisional array_in 54 row8_blocks (4, 0, 0) = 55
      /\ read_cross_block_merges
           (scratch array_in (4, 1, 1) [Commit b0; Observe b0; Commit b1; Observe b1])
         = Ok ([1; 55], [(55, 1)])
      /\ map fst (scratch array_in (4, 1, 1) [Commit b0; Observe b0; Commit b1])
         = [0]
      /\ read_cross_block_merges
           (scratch array_in (4, 1, 1) [Commit b0; Observe b0; Commit b1])
         = Ok ([], [])).
Proof.
  apply (missing_file_goes_unnoticed [(0, mk_npz [] [])] [0; 1]).
  - discriminate.
  - exists 1. split; [simpl; auto | simpl; lia].
Defined.

(** C9 fails as stated: when the only files that could exist are
    missing, here because both blocks of the row failed after writing
    their labels, the collection does raise: [np.concatenate] refuses
    the empty list. *)
Lemma no_file_raises :
  scratch (row8_array [3; 4]) (4, 1, 1)
    [Commit (make_block 0 (0, 0, 0) (4, 1, 1));
     Commit (make_block 1 (4, 0, 0) (4, 1, 1))] = []
  /\ read_cross_block_merges
       (scratch (row8_array [3; 4]) (4, 1, 1)
          [Commit (make_block 0 (0, 0, 0) (4, 1, 1));
           Commit (make_block 1 (4, 0, 0) (4, 1, 1))])
     = Raise ValueError.
Proof.
  split; vm_compute; reflexivity.
Qed.

(** What the pipeline returns in the two runs above: with the file of
    block 1 missing the two voxels of the run are left with their
    provisional labels; with no file the pipeline raises. *)
Lemma missing_file_under_merges :
  let array_in := row8_array [3; 4] in
  let b0 := make_block 0 (0, 0, 0) (4, 1, 1) in
  let b1 := make_block 1 (4, 0, 0) (4, 1, 1) in
  let run es := relabel_connected_components array_in (zeros_like array_in)
                  (4, 1, 1) es row8_blocks in
  output_at (run [Commit b0; Observe b0; Commit b1]) (3, 0, 0) = Ok 1
  /\ output_at (run [Commit b0; Observe b0; Commit b1]) (4, 0, 0) = Ok 55
  /\ output_at (run [Commit b0; Observe b0; Commit b1; Observe b1]) (3, 0, 0) = Ok 1
  /\ output_at (run [Commit b0; Observe b0; Commit b1; Observe b1]) (4, 0, 0) = Ok 1
  /\ run [Commit b0; Commit b1] = Raise ValueError.
Proof.
  repeat split; vm_compute; reflexivity.
Qed.

(** ** C10: the stored label *)

(** C10. For every block whose offset [block_id * num_voxels_in_block]
    is a nonnegative integer below [2 ^ 63], and a destination of the
    dtype of the input, the label stored for a foreground voxel of the
    write region is [block_id * num_voxels_in_block + local_label]
    reduced modulo [2 ^ w] into the range of the dtype of the input, [w]
    being its bit width: the local labels are cast to that dtype before
    the offset is added, and nothing bounds the product. When
    [block_id * num_voxels_in_block + local_label] fits the dtype, that
    is, does not exceed its largest value, the stored value is that
    integer; when it does not the value wraps, and the nonzero labels of
    distinct blocks can collide, as in the unsigned 8-bit strip, where
    the blocks 0 and 3 both store the label 1. With a signed 8-bit dtype
    the label 125 + 3 = 128 of the box is stored as 128 - 256 = -128. *)
Theorem stored_label_wraps array_in array_out nvox b tmp p :
  read_roi b = grow (write_roi b) ones ones ->
  arr_dtype array_out = arr_dtype array_in ->
  0 <= block_id b * nvox < 2 ^ 63 ->
  contains (write_roi b) p = true ->
  value_at array_in p <> 0 ->
  arr_data (fst (find_components_in_block array_in array_out nvox b tmp)) p
  = wrap (arr_dtype array_in) (block_id b * nvox + local_label array_in b p)
  /\ arr_data (fst (find_components_in_block array_in array_out nvox b tmp)) p
       mod 2 ^ dt_bits (arr_dtype array_in)
     = (block_id b * nvox + local_label array_in b p)
       mod 2 ^ dt_bits (arr_dtype array_in)
  /\ (block_id b * nvox + local_label array_in b p <= dtype_max (arr_dtype array_in) ->
      arr_data (fst (find_components_in_block array_in array_out nvox b tmp)) p
      = block_id b * nvox + local_label array_in b p)
  /\ (let a := strip20_array strip20_dots in
      let b0 := make_block 0 (0, 0, 0) (2, 1, 5) in
      let b3 := make_block 3 (0, 0, 15) (2, 1, 5) in
      arr_data (fst (find_components_in_block a (zeros_like a) 84 b0 []))
               (0, 0, 0) = 1
      /\ arr_data (fst (find_components_in_block a (zeros_like a) 84 b3 []))
                  (1, 0, 17) = 1)
  /\ (let b1 := make_block 1 (3, 0, 0) (3, 3, 3) in
      valid_partition box6 (3, 3, 3) box6_blocks = true
      /\ labels_fit int8 (3, 3, 3) box6_blocks = true
      /\ labels_representable int8 (3, 3, 3) box6_blocks = false
      /\ num_voxels (3, 3, 3) = 125
      /\ local_label box6_array b1 (4, 1, 1) = 3
      /\ arr_data (fst (find_components_in_block box6_array
                          (zeros_like box6_array) 125 b1 []))
                  (4, 1, 1) = -128).
Proof.
  intros Hread _ Hoff Hp Hv.
  assert (Hstored :
    arr_data (fst (find_components_in_block array_in array_out nvox b tmp)) p
    = wrap (arr_dtype array_in) (block_id b * nvox + local_label array_in b p)).
  { unfold find_components_in_block, setitem. cbn [fst arr_data].
    rewrite Hp, crop_get.
    assert (Hidx : cadd (csub p (roi_offset (write_roi b))) ones
                   = csub p (roi_offset (read_roi b))).
    { rewrite Hread. destruct (write_roi b) as [[[ox oy] oz] ws], p as [[x y] z].
      unfold grow, ones, csub, cadd. cbn [roi_offset].
      f_equal; [f_equal |]; lia. }
    rewrite Hidx.
    change (nd_get (block_components array_in nvox b)
                   (csub p (roi_offset (read_roi b))))
      with (block_label array_in nvox b p).
    apply block_label_wrap. exact Hv. }
  split; [exact Hstored |]. split; [| split; [| split]].
  - rewrite Hstored. apply wrap_mod.
  - intros Hfit. rewrite Hstored. apply wrap_small.
    assert (Hr : contains (read_roi b) p = true).
    { rewrite Hread. apply contains_grow. exact Hp. }
    assert (Hl : 1 <= local_label array_in b p).
    { unfold local_label.
      apply (label_range (to_ndarray array_in (read_roi b) 0)); [exact Hr |].
      rewrite labels_get. exact Hv. }
    pose proof (dtype_min_le (arr_dtype array_in)). lia.
  - split; vm_compute; reflexivity.
  - repeat split; vm_compute; reflexivity.
Qed.

Lemma stored_label_wraps_witness :
  arr_data (fst (find_components_in_block (strip20_array strip20_dots)
                   (zeros_like (strip20_array strip20_dots)) 84
                   (make_block 3 (0, 0, 15) (2, 1, 5)) [])) (1, 0, 17)
  = wrap (arr_dtype (strip20_array strip20_dots))
      (block_id (make_block 3 (0, 0, 15) (2, 1, 5)) * 84
       + local_label (strip20_array strip20_dots)
           (make_block 3 (0, 0, 15) (2, 1, 5)) (1, 0, 17))
  /\ arr_data (fst (find_components_in_block (strip20_array strip20_dots)
                      (zeros_like (strip20_array strip20_dots)) 84
                      (make_block 3 (0, 0, 15) (2, 1, 5)) [])) (1, 0, 17)
       mod 2 ^ dt_bits (arr_dtype (strip20_array strip20_dots))
     = (block_id (make_block 3 (0, 0, 15) (2, 1, 5)) * 84
        + local_label (strip20_array strip20_dots)
            (make_block 3 (0, 0, 15) (2, 1, 5)) (1, 0, 17))
       mod 2 ^ dt_bits (arr_dtype (strip20_array strip20_dots))
  /\ (block_id (make_block 3 (0, 0, 15) (2, 1, 5)) * 84
      + local_label (strip20_array strip20_dots)
          (make_block 3 (0, 0, 15) (2, 1, 5)) (1, 0, 17)
      <= dtype_max (arr_dtype (strip20_array strip20_dots)) ->
      arr_data (fst (find_components_in_block (strip20_array strip20_dots)
                       (zeros_like (strip20_array strip20_dots)) 84
                       (make_block 3 (0, 0, 15) (2, 1, 5)) [])) (1, 0, 17)
      = block_id (make_block 3 (0, 0, 15) (2, 1, 5)) * 84
        + local_label (strip20_array strip20_dots)
            (make_block 3 (0, 0, 15) (2, 1, 5)) (1, 0, 17))
  /\ (let a := strip20_array strip20_dots in
      let b0 := make_block 0 (0, 0, 0) (2, 1, 5) in
      let b3 := make_block 3 (0, 0, 15) (2, 1, 5) in
      arr_data (fst (find_components_in_block a (zeros_like a) 84 b0 []))
               (0, 0, 0) = 1
      /\ arr_data (fst (find_components_in_block a (zeros_like a) 84 b3 []))
                  (1, 0, 17) = 1)
  /\ (let b1 := make_block 1 (3, 0, 0) (3, 3, 3) in
      valid_partition box6 (3, 3, 3) box6_blocks = true
      /\ labels_fit int8 (3, 3, 3) box6_blocks = true
      /\ labels_representable int8 (3, 3, 3) box6_blocks = false
      /\ num_voxels (3, 3, 3) = 125
      /\ local_label box6_array b1 (4, 1, 1) = 3
      /\ arr_data (fst (find_components_in_block box6_array
                          (zeros_like box6_array) 125 b1 []))
                  (4, 1, 1) = -128).
Proof.
  apply (stored_label_wraps (strip20_array strip20_dots)
           (zeros_like (strip20_array strip20_dots)) 84
           (make_block 3 (0, 0, 15) (2, 1, 5)) [] (1, 0, 17)).
  - reflexivity.
  - reflexivity.
  - vm_compute. split; [discriminate | reflexivity].
  - vm_compute. reflexivity.
  - vm_compute. discriminate.
Defined.

(* ================================================================== *)
(** * Part IV: further properties of the code *)
(* ================================================================== *)

(** Properties of [find_components_in_block], [read_cross_block_merges],
    [relabel_in_block] and of the two calls of the executor in
    [relabel_connected_components] that the specification does not
    state: what the functions touch, what the scratch directory holds,
    how the steps of the workers compose, and how the functions behave
    at the edges of their domain. *)

(** ** Lists *)

Lemma filter_none {A : Type} (f : A -> bool) (l : list A) :
  (forall x, In x l -> f x = false) -> filter f l = [].
Proof.
  induction l as [| x l IH]; simpl; intros H; [reflexivity |].
  rewrite (H x) by (left; reflexivity). apply IH.
  intros y Hy. apply H. right. exact Hy.
Qed.

Lemma concat_all_nil {A : Type} (l : list (list A)) :
  (forall x, In x l -> x = []) -> concat l = [].
Proof.
  induction l as [| x l IH]; simpl; intros H; [reflexivity |].
  rewrite (H x) by (left; reflexivity). simpl. apply IH.
  intros y Hy. apply H. right. exact Hy.
Qed.

Lemma savez_ids t id f i :
  In i (map fst (savez t id f)) <-> i = id \/ In i (map fst t).
Proof.
  induction t as [| [j g] t IH]; simpl.
  - intuition.
  - destruct (Z.eqb_spec j id) as [-> | Hne]; simpl.
    + intuition.
    + rewrite IH. intuition.
Qed.

Lemma savez_NoDup t id f : NoDup (map fst t) -> NoDup (map fst (savez t id f)).
Proof.
  induction t as [| [j g] t IH]; simpl; intros H.
  - constructor; [intros [] | constructor].
  - inversion H as [| x l Hx Hl]; subst.
    destruct (Z.eqb_spec j id) as [-> | Hne]; simpl.
    + constructor; assumption.
    + constructor; [| apply IH; exact Hl].
      rewrite savez_ids. intros [Heq | Hin]; [congruence | contradiction].
Qed.

(** ** The outermost slices of a read region *)

(** A position on an outermost slice of the read region of a block lies
    outside the write region of the block. *)
Lemma face_outside_write b d pos i :
  read_roi b = grow (write_roi b) ones ones ->
  In i (face (roi_shape (read_roi b)) d pos) ->
  contains (write_roi b) (cadd (roi_offset (read_roi b)) i) = false.
Proof.
  intros Hread Hi. rewrite Hread in Hi |- *.
  apply face_in in Hi. destruct Hi as [Hb Hax].
  apply not_true_iff_false. rewrite contains_iff.
  destruct (write_roi b) as [[[ox oy] oz] [[sx sy] sz]], i as [[x y] z].
  unfold grow, ones, csub, cadd in *. cbn [roi_offset roi_shape] in *.
  rewrite in_bounds_iff in Hb.
  destruct d as [| [| d]]; destruct pos; simpl in Hax; lia.
Qed.

Lemma pair_rows_ext a n1 n2 s :
  (forall i, In i s -> nd_get n1 i = nd_get n2 i) ->
  pair_rows a n1 s = pair_rows a n2 s.
Proof.
  intros H. unfold pair_rows. apply map_ext_in. intros i Hi.
  rewrite (H i Hi). reflexivity.
Qed.

(** The edges of a block depend on the re-read array through its
    outermost slices only. *)
Lemma block_edges_ext components n1 n2 :
  (forall d pos i, In i (face (nd_shape components) d pos) ->
                   nd_get n1 i = nd_get n2 i) ->
  block_edges components n1 = block_edges components n2.
Proof.
  intros H. unfold block_edges, boundary_pairs. f_equal.
  apply flat_map_ext. intros d.
  rewrite (pair_rows_ext components n1 n2 (face (nd_shape components) d false))
    by (intros i Hi; eapply H; exact Hi).
  rewrite (pair_rows_ext components n1 n2 (face (nd_shape components) d true))
    by (intros i Hi; eapply H; exact Hi).
  reflexivity.
Qed.

(** What a block reads back at line 113 on its outermost slices is what
    the destination held before the write at line 112. *)
Lemma neighbors_before_write array_in array_out nvox b :
  read_roi b = grow (write_roi b) ones ones ->
  block_edges (block_components array_in nvox b)
    (to_ndarray (commit_block array_in array_out nvox b) (read_roi b) 0)
  = block_edges (block_components array_in nvox b)
      (to_ndarray array_out (read_roi b) 0).
Proof.
  intros Hread. apply block_edges_ext. intros d pos i Hi.
  rewrite block_components_shape in Hi.
  unfold to_ndarray, commit_block, setitem. cbn [nd_get arr_roi arr_data].
  rewrite (face_outside_write b d pos i Hread Hi). reflexivity.
Qed.

(** The file that a call saves, computed from the destination as it was
    before the call. *)
Lemma file_new_edges array_in array_out nvox b tmp :
  read_roi b = grow (write_roi b) ones ones ->
  snd (find_components_in_block array_in array_out nvox b tmp)
  = savez tmp (block_id b)
      (mk_npz
         (unique (endpoints
            (block_edges (block_components array_in nvox b)
                         (to_ndarray array_out (read_roi b) 0))))
         (block_edges (block_components array_in nvox b)
                      (to_ndarray array_out (read_roi b) 0))).
Proof.
  intros Hread. unfold find_components_in_block. cbn [snd].
  change (setitem array_out (write_roi b)
            (crop (block_components array_in nvox b)))
    with (commit_block array_in array_out nvox b).
  rewrite (neighbors_before_write array_in array_out nvox b Hread).
  reflexivity.
Qed.

(** An edge needs a nonzero value in the re-read array. *)
Lemma block_edges_nil components neighbors :
  (forall d pos i, In i (face (nd_shape components) d pos) ->
                   nd_get components i = 0 \/ nd_get neighbors i = 0) ->
  block_edges components neighbors = [].
Proof.
  intros H. unfold block_edges. apply filter_none. intros [u v] Hin.
  apply boundary_pairs_in in Hin.
  destruct Hin as [d [pos [i [_ [Hi [-> ->]]]]]].
  unfold non_zero_filter. cbn [fst snd].
  destruct (H d pos i Hi) as [-> | ->]; simpl; [reflexivity |].
  rewrite orb_true_r. reflexivity.
Qed.

(** ** The file of a block and the block's own write *)

(** The scratch file of a block is computed as if the destination had
    been read before the write at line 112: the outermost slices of the
    read region lie outside the write region, so the block never pairs a
    label with one that it has just written itself. *)
Theorem file_ignores_own_write array_in array_out nvox b tmp :
  read_roi b = grow (write_roi b) ones ones ->
  let components := block_components array_in nvox b in
  let edges := block_edges components (to_ndarray array_out (read_roi b) 0) in
  snd (find_components_in_block array_in array_out nvox b tmp)
  = savez tmp (block_id b) (mk_npz (unique (endpoints edges)) edges).
Proof.
  intros Hread. cbv zeta. unfold find_components_in_block. cbn [snd].
  change (setitem array_out (write_roi b)
            (crop (block_components array_in nvox b)))
    with (commit_block array_in array_out nvox b).
  rewrite (block_edges_ext (block_components array_in nvox b)
             (to_ndarray (commit_block array_in array_out nvox b) (read_roi b) 0)
             (to_ndarray array_out (read_roi b) 0)); [reflexivity |].
  intros d pos i Hi. rewrite block_components_shape in Hi.
  unfold to_ndarray, commit_block, setitem. cbn [nd_get arr_roi arr_data].
  rewrite (face_outside_write b d pos i Hread Hi). reflexivity.
Qed.

Lemma file_ignores_own_write_witness :
  snd (find_components_in_block (row8_array [3; 4])
         (commit_block (row8_array [3; 4]) (zeros_like (row8_array [3; 4])) 54
            (make_block 1 (4, 0, 0) (4, 1, 1)))
         54 (make_block 0 (0, 0, 0) (4, 1, 1)) [])
  = savez [] (block_id (make_block 0 (0, 0, 0) (4, 1, 1)))
      (mk_npz
         (unique (endpoints
            (block_edges
               (block_components (row8_array [3; 4]) 54
                  (make_block 0 (0, 0, 0) (4, 1, 1)))
               (to_ndarray
                  (commit_block (row8_array [3; 4])
                     (zeros_like (row8_array [3; 4])) 54
                     (make_block 1 (4, 0, 0) (4, 1, 1)))
                  (read_roi (make_block 0 (0, 0, 0) (4, 1, 1))) 0))))
         (block_edges
            (block_components (row8_array [3; 4]) 54
               (make_block 0 (0, 0, 0) (4, 1, 1)))
            (to_ndarray
               (commit_block (row8_array [3; 4])
                  (zeros_like (row8_array [3; 4])) 54
                  (make_block 1 (4, 0, 0) (4, 1, 1)))
               (read_roi (make_block 0 (0, 0, 0) (4, 1, 1))) 0))).
Proof.
  apply (file_ignores_own_write (row8_array [3; 4])
           (commit_block (row8_array [3; 4]) (zeros_like (row8_array [3; 4])) 54
              (make_block 1 (4, 0, 0) (4, 1, 1)))
           54 (make_block 0 (0, 0, 0) (4, 1, 1)) []).
  reflexivity.
Defined.

(** A block whose halo is still empty in the destination, as for the
    first block that runs, saves a file without nodes and without edges. *)
Theorem empty_halo_empty_file array_in array_out nvox b tmp :
  read_roi b = grow (write_roi b) ones ones ->
  (forall p, contains (read_roi b) p = true ->
             contains (write_roi b) p = false ->
             contains (arr_roi array_out) p = true ->
             arr_data array_out p = 0) ->
  snd (find_components_in_block array_in array_out nvox b tmp)
  = savez tmp (block_id b) (mk_npz [] []).
Proof.
  intros Hread Hzero. rewrite file_new_edges by exact Hread.
  rewrite block_edges_nil; [reflexivity |].
  intros d pos i Hi. right.
  rewrite block_components_shape in Hi.
  unfold to_ndarray. cbn [nd_get].
  destruct (contains (arr_roi array_out) (cadd (roi_offset (read_roi b)) i))
    eqn:Hin; [| reflexivity].
  apply Hzero.
  - unfold contains. rewrite csub_cadd. apply face_in in Hi. tauto.
  - exact (face_outside_write b d pos i Hread Hi).
  - exact Hin.
Qed.

Lemma empty_halo_empty_file_witness :
  snd (find_components_in_block (row8_array [3; 4])
         (zeros_like (row8_array [3; 4])) 54
         (make_block 0 (0, 0, 0) (4, 1, 1)) [])
  = savez [] (block_id (make_block 0 (0, 0, 0) (4, 1, 1))) (mk_npz [] []).
Proof.
  apply (empty_halo_empty_file (row8_array [3; 4])
           (zeros_like (row8_array [3; 4])) 54
           (make_block 0 (0, 0, 0) (4, 1, 1)) []).
  - reflexivity.
  - intros p _ _ _. reflexivity.
Defined.

(** ** The labels that a block writes *)





(** ** What phase 1 touches *)

Lemma commit_block_frame array_in out nvox b :
  arr_roi (commit_block array_in out nvox b) = arr_roi out
  /\ arr_dtype (commit_block array_in out nvox b) = arr_dtype out
  /\ forall p, contains (write_roi b) p = false ->
       arr_data (commit_block array_in out nvox b) p = arr_data out p.
Proof.
  unfold commit_block, setitem. cbn [arr_roi arr_dtype arr_data].
  repeat split. intros p Hp. rewrite Hp. reflexivity.
Qed.

(** Phase 1 writes into the write regions of the blocks that it runs and
    nowhere else: for every schedule and every destination, the region
    and the dtype of the destination stay as they are, and a voxel that
    lies in the write region of no block that has written keeps its
    value; the halo of a block is only read. *)
Theorem phase1_writes_only_write_regions array_in array_out nvox es :
  let out := fst (run_phase1 array_in array_out nvox es) in
  arr_roi out = arr_roi array_out
  /\ arr_dtype out = arr_dtype array_out
  /\ forall p,
       existsb (fun c => contains (write_roi c) p) (commits es) = false ->
       arr_data out p = arr_data array_out p.
Proof.
  cbv zeta. induction es as [| e es IH] using rev_ind.
  - repeat split.
  - destruct IH as [IHr [IHt IHd]]. rewrite run_phase1_snoc.
    destruct e as [b | b]; cbn [run_event fst snd].
    + destruct (commit_block_frame array_in
                  (fst (run_phase1 array_in array_out nvox es)) nvox b)
        as [Hr [Ht Hd]].
      split; [congruence |]. split; [congruence |].
      intros p Hp. rewrite commits_app, existsb_app in Hp. simpl in Hp.
      rewrite orb_false_r in Hp. apply orb_false_iff in Hp.
      destruct Hp as [Hp1 Hp2]. rewrite Hd by exact Hp2. apply IHd. exact Hp1.
    + split; [exact IHr |]. split; [exact IHt |].
      intros p Hp. rewrite commits_app in Hp. simpl in Hp.
      rewrite app_nil_r in Hp. apply IHd. exact Hp.
Qed.

(** ** The scratch directory *)

(** The files of the scratch directory during phase 1, for every
    schedule and every destination. *)
Lemma phase1_files array_in array_out nvox es :
  NoDup (map fst (snd (run_phase1 array_in array_out nvox es)))
  /\ (forall id, In id (map fst (snd (run_phase1 array_in array_out nvox es)))
                 <-> In id (map block_id (observes es)))
  /\ (forall id f, In (id, f) (snd (run_phase1 array_in array_out nvox es)) ->
        npz_nodes f = unique (endpoints (npz_edges f))
        /\ forall u v, In (u, v) (npz_edges f) -> u <> 0 /\ v <> 0).
Proof.
  induction es as [| e es IH] using rev_ind.
  - split; [constructor |]. split; [reflexivity |]. intros id f [].
  - destruct IH as [IHn [IHi IHf]]. rewrite run_phase1_snoc.
    destruct e as [b | b]; cbn [run_event fst snd].
    + rewrite observes_app. simpl. rewrite app_nil_r. auto.
    + unfold observe_block. split; [apply savez_NoDup; exact IHn |]. split.
      * intros id. rewrite savez_ids, observes_app, map_app, in_app_iff, IHi.
        simpl. intuition.
      * intros id f Hin. apply savez_in in Hin.
        destruct Hin as [[_ ->] | Hin]; [| apply (IHf id f Hin)].
        cbn [npz_nodes npz_edges]. split; [reflexivity |].
        intros u v Huv. apply block_edges_in in Huv. tauto.
Qed.

(** The scratch directory holds one file for every block identifier
    that has reached the save at line 158, and no other file: a block
    that runs again replaces its file, and blocks that share an
    identifier share the file. *)
Theorem one_file_per_saved_block_id array_in array_out nvox es :
  let tmp := snd (run_phase1 array_in array_out nvox es) in
  NoDup (map fst tmp)
  /\ forall id, In id (map fst tmp)
                <-> exists b, In b (observes es) /\ block_id b = id.
Proof.
  cbv zeta. destruct (phase1_files array_in array_out nvox es) as [Hn [Hi _]].
  split; [exact Hn |]. intros id. rewrite Hi, in_map_iff.
  split; intros [b [H1 H2]]; exists b; auto.
Qed.

Lemma observes_nil_files array_in array_out nvox es :
  observes es = [] <-> snd (run_phase1 array_in array_out nvox es) = [].
Proof.
  destruct (phase1_files array_in array_out nvox es) as [_ [Hi _]].
  split; intros H.
  - destruct (snd (run_phase1 array_in array_out nvox es)) as [| [id f] t];
      [reflexivity |].
    exfalso. assert (Hin : In id (map block_id (observes es))).
    { apply Hi. left. reflexivity. }
    rewrite H in Hin. exact Hin.
  - destruct (observes es) as [| b l]; [reflexivity |].
    exfalso. assert (Hin : In (block_id b)
                             (map fst (snd (run_phase1 array_in array_out nvox es)))).
    { apply Hi. left. reflexivity. }
    rewrite H in Hin. exact Hin.
Qed.

(** What phase 2 receives from phase 1, for every schedule and every
    destination: when at least one block has saved its file, the
    collection returns a graph in which no label is 0, both labels of
    every edge are listed among the nodes, and every node is a label of
    some edge; when no block has saved a file, and only then, the
    collection raises [ValueError]. *)
Theorem merge_input_well_formed array_in array_out nvox es :
  match read_cross_block_merges (snd (run_phase1 array_in array_out nvox es)) with
  | Ok (nodes, edges) =>
      observes es <> []
      /\ ~ In 0 nodes
      /\ (forall u v, In (u, v) edges ->
            u <> 0 /\ v <> 0 /\ In u nodes /\ In v nodes)
      /\ (forall x, In x nodes ->
            exists u v, In (u, v) edges /\ (x = u \/ x = v))
  | Raise e => e = ValueError /\ observes es = []
  end.
Proof.
  destruct (phase1_files array_in array_out nvox es) as [_ [_ Hf]].
  pose proof (observes_nil_files array_in array_out nvox es) as Hnil.
  destruct (snd (run_phase1 array_in array_out nvox es)) as [| f0 t] eqn:Htmp.
  - simpl. split; [reflexivity | tauto].
  - rewrite read_cross_block_merges_ok by discriminate.
    assert (Hnode : forall x, In x (all_nodes (f0 :: t)) ->
              exists u v, In (u, v) (all_edges (f0 :: t)) /\ (x = u \/ x = v)).
    { intros x Hx. apply all_nodes_in in Hx. destruct Hx as [id [f [Hin Hx]]].
      destruct (Hf id f Hin) as [Hn _]. rewrite Hn in Hx.
      apply (proj1 (unique_in _ _)) in Hx. apply (proj1 (endpoints_in _ _)) in Hx.
      destruct Hx as [u [v [Huv Hx]]]. exists u, v. split; [| exact Hx].
      apply all_edges_in. exists id, f. auto. }
    assert (Hedge : forall u v, In (u, v) (all_edges (f0 :: t)) ->
              u <> 0 /\ v <> 0 /\ In u (all_nodes (f0 :: t))
              /\ In v (all_nodes (f0 :: t))).
    { intros u v Huv. apply all_edges_in in Huv. destruct Huv as [id [f [Hin Huv]]].
      destruct (Hf id f Hin) as [Hn Hnz].
      destruct (Hnz u v Huv) as [Hu Hv]. split; [exact Hu |]. split; [exact Hv |].
      split; apply all_nodes_in; exists id, f; (split; [exact Hin |]);
        rewrite Hn; apply unique_in; apply endpoints_in; exists u, v; auto. }
    split; [| split; [| split; [exact Hedge | exact Hnode]]].
    + intros Hobs. apply Hnil in Hobs. discriminate.
    + intros H0. destruct (Hnode 0 H0) as [u [v [Huv Hx]]].
      destruct (Hedge _ _ Huv) as [Hu [Hv _]]. destruct Hx; congruence.
Qed.

(** ** A volume without foreground *)

Lemma block_components_background array_in nvox b i :
  (forall p, value_at array_in p = 0) ->
  nd_get (block_components array_in nvox b) i = 0.
Proof.
  intros Hz. unfold block_components, zero_where_zero, to_ndarray.
  cbn [nd_get nd_dtype nd_shape].
  pose proof (Hz (cadd (roi_offset (read_roi b)) i)) as H.
  unfold value_at in H.
  destruct (contains (arr_roi array_in) (cadd (roi_offset (read_roi b)) i));
    [rewrite H |]; reflexivity.
Qed.

Lemma background_files array_in array_out nvox es :
  (forall p, value_at array_in p = 0) ->
  forall id f, In (id, f) (snd (run_phase1 array_in array_out nvox es)) ->
               f = mk_npz [] [].
Proof.
  intros Hz. induction es as [| e es IH] using rev_ind; [intros id f [] |].
  intros id f. rewrite run_phase1_snoc.
  destruct e as [b | b]; cbn [run_event fst snd]; [apply IH |].
  unfold observe_block. intros Hin. apply savez_in in Hin.
  destruct Hin as [[_ ->] | Hin]; [| apply (IH id f Hin)].
  rewrite block_edges_nil; [reflexivity |].
  intros d pos i _. left. apply block_components_background. exact Hz.
Qed.

Lemma background_written array_in array_out nvox es :
  (forall p, value_at array_in p = 0) ->
  forall p, existsb (fun c => contains (write_roi c) p) (commits es) = true ->
            arr_data (fst (run_phase1 array_in array_out nvox es)) p = 0.
Proof.
  intros Hz. induction es as [| e es IH] using rev_ind;
    [intros p Hp; discriminate Hp |].
  intros p. rewrite run_phase1_snoc, commits_app, existsb_app.
  destruct e as [b | b]; cbn [run_event fst snd]; simpl; rewrite orb_false_r.
  - unfold commit_block, setitem. cbn [arr_data].
    destruct (contains (write_roi b) p).
    + intros _. rewrite crop_get. apply block_components_background. exact Hz.
    + rewrite orb_false_r. apply IH.
  - apply IH.
Qed.

(** On an input without foreground, phase 1 writes 0 wherever it writes,
    every scratch file is saved without nodes and without edges, and the
    collection returns two empty arrays instead of raising, provided one
    block at least has saved its file. This holds for every schedule and
    every destination. *)
Theorem background_volume array_in array_out nvox es :
  (forall p, value_at array_in p = 0) ->
  (forall p, existsb (fun c => contains (write_roi c) p) (commits es) = true ->
             arr_data (fst (run_phase1 array_in array_out nvox es)) p = 0)
  /\ (forall id f, In (id, f) (snd (run_phase1 array_in array_out nvox es)) ->
                   f = mk_npz [] [])
  /\ (observes es <> [] ->
      read_cross_block_merges (snd (run_phase1 array_in array_out nvox es))
      = Ok ([], [])).
Proof.
  intros Hz.
  pose proof (background_files array_in array_out nvox es Hz) as Hfiles.
  split; [apply background_written; exact Hz |]. split; [exact Hfiles |].
  intros Hobs.
  rewrite read_cross_block_merges_ok
    by (intros H; apply Hobs; apply (observes_nil_files array_in array_out nvox es);
        exact H).
  unfold all_nodes, all_edges. f_equal. f_equal; apply concat_all_nil;
    intros x Hx; apply in_map_iff in Hx; destruct Hx as [[id f] [<- Hin]];
    rewrite (Hfiles id f Hin); reflexivity.
Qed.

Lemma row8_background p : value_at (row8_array []) p = 0.
Proof.
  unfold value_at. destruct (contains (arr_roi (row8_array [])) p); [| reflexivity].
  destruct p as [[x y] z]. reflexivity.
Qed.

Lemma background_volume_witness :
  (forall p, existsb (fun c => contains (write_roi c) p)
               (commits (sequential row8_blocks)) = true ->
             arr_data (fst (run_phase1 (row8_array []) (zeros_like (row8_array []))
                              54 (sequential row8_blocks))) p = 0)
  /\ (forall id f,
        In (id, f) (snd (run_phase1 (row8_array []) (zeros_like (row8_array []))
                           54 (sequential row8_blocks))) ->
        f = mk_npz [] [])
  /\ (observes (sequential row8_blocks) <> [] ->
      read_cross_block_merges
        (snd (run_phase1 (row8_array []) (zeros_like (row8_array []))
                54 (sequential row8_blocks)))
      = Ok ([], [])).
Proof.
  apply (background_volume (row8_array []) (zeros_like (row8_array [])) 54
           (sequential row8_blocks)).
  exact row8_background.
Defined.

(** ** The destination after phase 1 *)

(** The destination during phase 1, whatever it held before: the
    provisional labels where a block has written, the old values
    elsewhere. *)
Lemma phase1_out_any array_in array_out block_size blocks es :
  valid_partition (arr_roi array_in) block_size blocks = true ->
  (forall e, In e es -> In (event_block e) blocks) ->
  forall p,
    arr_data (fst (run_phase1 array_in array_out (num_voxels block_size) es)) p
    = if existsb (fun c => contains (write_roi c) p) (commits es)
      then provisional array_in (num_voxels block_size) blocks p
      else arr_data array_out p.
Proof.
  intros Hpart. induction es as [| e es IH] using rev_ind; intros Hev p.
  - reflexivity.
  - assert (Hev' : forall e', In e' es -> In (event_block e') blocks).
    { intros e' He'. apply Hev. apply in_or_app. left. exact He'. }
    assert (He : In (event_block e) blocks).
    { apply Hev. apply in_or_app. right. left. reflexivity. }
    rewrite run_phase1_snoc, commits_app, existsb_app.
    destruct e as [b | b]; cbn [run_event fst snd event_block] in *.
    + change (commits [Commit b]) with [b]. cbn [existsb]. rewrite orb_false_r.
      rewrite (commit_block_data array_in block_size blocks Hpart) by exact He.
      destruct (contains (write_roi b) p); [rewrite orb_true_r; reflexivity |].
      rewrite orb_false_r. apply IH. exact Hev'.
    + change (commits [Observe b]) with (@nil Block). cbn [existsb].
      rewrite orb_false_r. apply IH. exact Hev'.
Qed.



(** ** The edges across a border *)

(** Whatever the interleaving of the workers, the border between two
    blocks is recorded from one side at least: for two face-adjacent
    voxels of equal nonzero input value that lie in the write regions of
    two blocks, with provisional labels that are not 0, the scratch
    directory holds the edge between the two provisional labels, in one
    direction or the other (and when one block wrote both voxels the two
    labels are equal). Every block writes at line 112 before it reads at
    line 113, so of two blocks the one that reads last sees the labels
    of the other. *)
Theorem border_edge_recorded array_in block_size blocks es p q :
  valid_partition (arr_roi array_in) block_size blocks = true ->
  valid_schedule blocks es = true ->
  contains (arr_roi array_in) p = true -> contains (arr_roi array_in) q = true ->
  face_adjacent p q ->
  value_at array_in p <> 0 -> value_at array_in q = value_at array_in p ->
  provisional array_in (num_voxels block_size) blocks p <> 0 ->
  provisional array_in (num_voxels block_size) blocks q <> 0 ->
  provisional array_in (num_voxels block_size) blocks p
  = provisional array_in (num_voxels block_size) blocks q
  \/ In (provisional array_in (num_voxels block_size) blocks p,
         provisional array_in (num_voxels block_size) blocks q)
        (all_edges (scratch array_in block_size es))
  \/ In (provisional array_in (num_voxels block_size) blocks q,
         provisional array_in (num_voxels block_size) blocks p)
        (all_edges (scratch array_in block_size es)).
Proof.
  intros Hpart Hsched Hp Hq Hadj Hvp Hvq Hpp Hpq.
  set (nvox := num_voxels block_size) in *.
  set (prov := provisional array_in nvox blocks) in *.
  set (lab := block_label array_in nvox).
  destruct (part_cover _ _ _ Hpart p Hp) as [c1 [Hc1 Hw1]].
  destruct (part_cover _ _ _ Hpart q Hq) as [c2 [Hc2 Hw2]].
  assert (Ep : prov p = lab c1 p) by (apply (provisional_owner _ _ _ Hpart); auto).
  assert (Eq : prov q = lab c2 q) by (apply (provisional_owner _ _ _ Hpart); auto).
  assert (Hr1 := part_write_read _ _ _ Hpart c1 p Hc1 Hw1).
  assert (Hr2 := part_write_read _ _ _ Hpart c2 q Hc2 Hw2).
  assert (Hstep : forall r x y, contains r x = true -> contains r y = true ->
            face_adjacent x y -> value_at array_in x <> 0 ->
            value_at array_in y = value_at array_in x ->
            connected_in array_in r x y).
  { intros r x y Hx Hy Ha Hv He. eapply joined_step; eauto.
    apply joined_refl; [exact Hy | congruence]. }
  destruct (contains (write_roi c2) p) eqn:Hp2.
  - assert (c1 = c2) by (eapply part_unique; eauto). subst c2.
    left. rewrite Ep, Eq. unfold lab. apply block_label_joined.
    apply Hstep; auto.
  - destruct (contains (write_roi c1) q) eqn:Hq1.
    { assert (c2 = c1) by (eapply part_unique; eauto). subst c2. congruence. }
    right.
    destruct Hadj as [d [Hd Hdir]].
    assert (Hadj : face_adjacent p q) by (exists d; auto).
    destruct (halo_face (write_roi c2) p q d Hw2 Hp2 Hd Hdir) as [Hin2 [pos2 Hf2]].
    destruct (halo_face (write_roi c1) q p d Hw1 Hq1 Hd) as [Hin1 [pos1 Hf1]];
      [tauto |].
    rewrite <- (part_read _ _ _ Hpart c2 Hc2) in Hin2, Hf2.
    rewrite <- (part_read _ _ _ Hpart c1 Hc1) in Hin1, Hf1.
    assert (L2 : lab c2 p = prov q).
    { rewrite Eq. unfold lab. apply block_label_joined. apply Hstep; auto. }
    assert (L1 : lab c1 q = prov p).
    { rewrite Ep. unfold lab. symmetry. apply block_label_joined.
      apply Hstep; auto. }
    destruct (phase1_seen array_in block_size blocks Hpart es
                (sched_events blocks es Hsched)
                (sched_order array_in block_size blocks es Hsched) c1 c2
                (sched_observes blocks es Hsched c1 Hc1)
                (sched_observes blocks es Hsched c2 Hc2))
      as [Hs | Hs].
    + destruct (Hs q d pos1 Hd Hw2 Hf1) as [f [Hf Hin]].
      * fold nvox lab. rewrite L1. exact Hpp.
      * exact Hpq.
      * left. apply all_edges_in.
        exists (block_id c1), f. split; [exact Hf |].
        fold nvox lab prov in Hin. rewrite L1 in Hin. exact Hin.
    + destruct (Hs p d pos2 Hd Hw1 Hf2) as [f [Hf Hin]].
      * fold nvox lab. rewrite L2. exact Hpq.
      * exact Hpp.
      * right. apply all_edges_in.
        exists (block_id c2), f. split; [exact Hf |].
        fold nvox lab prov in Hin. rewrite L2 in Hin. exact Hin.
Qed.

Lemma border_edge_recorded_witness :
  provisional (row8_array [3; 4]) (num_voxels (4, 1, 1)) row8_blocks (3, 0, 0)
  = provisional (row8_array [3; 4]) (num_voxels (4, 1, 1)) row8_blocks (4, 0, 0)
  \/ In (provisional (row8_array [3; 4]) (num_voxels (4, 1, 1)) row8_blocks (3, 0, 0),
         provisional (row8_array [3; 4]) (num_voxels (4, 1, 1)) row8_blocks (4, 0, 0))
        (all_edges (scratch (row8_array [3; 4]) (4, 1, 1)
                      [Commit (make_block 1 (4, 0, 0) (4, 1, 1));
                       Commit (make_block 0 (0, 0, 0) (4, 1, 1));
                       Observe (make_block 1 (4, 0, 0) (4, 1, 1));
                       Observe (make_block 0 (0, 0, 0) (4, 1, 1))]))
  \/ In (provisional (row8_array [3; 4]) (num_voxels (4, 1, 1)) row8_blocks (4, 0, 0),
         provisional (row8_array [3; 4]) (num_voxels (4, 1, 1)) row8_blocks (3, 0, 0))
        (all_edges (scratch (row8_array [3; 4]) (4, 1, 1)
                      [Commit (make_block 1 (4, 0, 0) (4, 1, 1));
                       Commit (make_block 0 (0, 0, 0) (4, 1, 1));
                       Observe (make_block 1 (4, 0, 0) (4, 1, 1));
                       Observe (make_block 0 (0, 0, 0) (4, 1, 1))])).
Proof.
  apply (border_edge_recorded (row8_array [3; 4]) (4, 1, 1) row8_blocks
           [Commit (make_block 1 (4, 0, 0) (4, 1, 1));
            Commit (make_block 0 (0, 0, 0) (4, 1, 1));
            Observe (make_block 1 (4, 0, 0) (4, 1, 1));
            Observe (make_block 0 (0, 0, 0) (4, 1, 1))] (3, 0, 0) (4, 0, 0));
    try (vm_compute; reflexivity); try (vm_compute; discriminate).
  exists 0%nat. split; [lia | left; reflexivity].
Defined.

(** No edge joins the labels of two different voxels: the two labels of
    every edge of the scratch directory are the labels that two
    different blocks gave one and the same foreground voxel, the block
    that saved the edge in its halo and the block that wrote the voxel.
    This holds for every schedule from an empty destination, also for
    blocks that have not run to their end. *)
Theorem edge_labels_share_a_voxel array_in block_size blocks es u v :
  valid_partition (arr_roi array_in) block_size blocks = true ->
  (forall e, In e es -> In (event_block e) blocks) ->
  In (u, v) (all_edges (scratch array_in block_size es)) ->
  u <> 0 /\ v <> 0
  /\ exists c c' h,
       In c blocks /\ In c' blocks /\ c <> c'
       /\ contains (read_roi c) h = true /\ contains (write_roi c) h = false
       /\ contains (write_roi c') h = true
       /\ value_at array_in h <> 0
       /\ u = block_label array_in (num_voxels block_size) c h
       /\ v = block_label array_in (num_voxels block_size) c' h.
Proof.
  intros Hpart Hev Hin. apply all_edges_in in Hin. destruct Hin as [id [f [Hf Huv]]].
  destruct (phase1_tmp array_in block_size blocks Hpart es Hev id f Hf) as [_ H].
  destruct (H u v Huv)
    as [Hu [Hv [c [h [Hc [Hh [Eu [Ev [d [pos [Hd Hface]]]]]]]]]]].
  split; [exact Hu |]. split; [exact Hv |].
  destruct (prov_owner array_in block_size blocks h) as [c' [Hc' [Hw' Ep]]];
    [congruence |].
  assert (Hout : contains (write_roi c) h = false).
  { rewrite <- (cadd_csub (roi_offset (read_roi c)) h).
    apply (face_outside_write c d pos); [| exact Hface].
    apply (part_read _ _ _ Hpart). exact Hc. }
  exists c, c', h. repeat split; try assumption.
  - intros ->. congruence.
  - apply (lab_value array_in block_size c). congruence.
  - congruence.
Qed.

Lemma edge_labels_share_a_voxel_witness :
  55 <> 0 /\ 1 <> 0
  /\ exists c c' h,
       In c row8_blocks /\ In c' row8_blocks /\ c <> c'
       /\ contains (read_roi c) h = true /\ contains (write_roi c) h = false
       /\ contains (write_roi c') h = true
       /\ value_at (row8_array [3; 4]) h <> 0
       /\ 55 = block_label (row8_array [3; 4]) (num_voxels (4, 1, 1)) c h
       /\ 1 = block_label (row8_array [3; 4]) (num_voxels (4, 1, 1)) c' h.
Proof.
  apply (edge_labels_share_a_voxel (row8_array [3; 4]) (4, 1, 1) row8_blocks
           (sequential row8_blocks) 55 1).
  - vm_compute. reflexivity.
  - intros e He. vm_compute in He. vm_compute.
    destruct He as [<- | [<- | [<- | [<- | []]]]]; auto.
  - vm_compute. auto.
Defined.

(** ** The order in which the files are listed *)

Lemma all_edges_permutation tmp tmp' :
  Permutation tmp tmp' -> Permutation (all_edges tmp) (all_edges tmp').
Proof.
  intros H. unfold all_edges. rewrite <- !flat_map_concat_map.
  apply Permutation_flat_map. exact H.
Qed.

Lemma all_nodes_permutation tmp tmp' :
  Permutation tmp tmp' -> Permutation (all_nodes tmp) (all_nodes tmp').
Proof.
  intros H. unfold all_nodes. rewrite <- !flat_map_concat_map.
  apply Permutation_flat_map. exact H.
Qed.

(** The order in which [glob] lists the files of the scratch directory
    changes the collected arrays by a permutation only, and not the
    graph: the same nodes, the same edges, and the same pairs of labels
    joined by a chain of edges; and the collection raises for one order
    exactly when it raises for the other. *)
Theorem collection_order_irrelevant tmp tmp' :
  Permutation tmp tmp' ->
  match read_cross_block_merges tmp, read_cross_block_merges tmp' with
  | Ok (nodes, edges), Ok (nodes', edges') =>
      Permutation nodes nodes' /\ Permutation edges edges'
      /\ forall x y, econn edges x y <-> econn edges' x y
  | Raise e, Raise e' => e = e'
  | _, _ => False
  end.
Proof.
  intros H. destruct tmp as [| f t].
  - apply Permutation_nil in H. subst tmp'. reflexivity.
  - destruct tmp' as [| f' t'].
    + apply Permutation_sym, Permutation_nil in H. discriminate.
    + rewrite !read_cross_block_merges_ok by discriminate.
      pose proof (all_edges_permutation _ _ H) as He.
      split; [apply all_nodes_permutation; exact H |]. split; [exact He |].
      intros x y. split; apply econn_incl; intros e Hin.
      * apply (Permutation_in e He Hin).
      * apply (Permutation_in e (Permutation_sym He) Hin).
Qed.

Lemma collection_order_irrelevant_witness :
  match read_cross_block_merges [(0, mk_npz [1; 55] [(1, 55)]); (1, mk_npz [] [])],
        read_cross_block_merges [(1, mk_npz [] []); (0, mk_npz [1; 55] [(1, 55)])] with
  | Ok (nodes, edges), Ok (nodes', edges') =>
      Permutation nodes nodes' /\ Permutation edges edges'
      /\ forall x y, econn edges x y <-> econn edges' x y
  | Raise e, Raise e' => e = e'
  | _, _ => False
  end.
Proof.
  apply (collection_order_irrelevant
           [(0, mk_npz [1; 55] [(1, 55)]); (1, mk_npz [] [])]
           [(1, mk_npz [] []); (0, mk_npz [1; 55] [(1, 55)])]).
  apply perm_swap.
Defined.

(** ** Volumes of fewer than three dimensions *)

Lemma fewer_axes_block_raises array_in array_out nvox b tmp :
  (length (arrn_shape array_in) < 3)%nat ->
  find_components_in_block_nd array_in array_out nvox b tmp = Raise IndexError.
Proof.
  intros Hdim. unfold find_components_in_block_nd, check_indices.
  destruct (Nat.ltb_spec 3 (length (arrn_shape array_in))) as [Hgt | _];
    [lia |].
  destruct (Nat.ltb_spec (length (arrn_shape array_in)) 3) as [_ | Hge];
    [reflexivity | lia].
Qed.

(** On an input of fewer than three dimensions every call of
    [find_components_in_block] raises [IndexError] at line 112, before
    anything is written or saved, whatever the block and the data; the
    executor is left with an empty scratch directory, and the entry
    point raises [ValueError] for every list of blocks. *)
Theorem fewer_than_three_axes_raises array_in array_out block_size order1 order3 :
  (length (arrn_shape array_in) < 3)%nat ->
  (forall out nvox b tmp,
     find_components_in_block_nd array_in out nvox b tmp = Raise IndexError)
  /\ relabel_connected_components_nd array_in array_out block_size order1 order3
     = Raise ValueError.
Proof.
  intros Hdim. split.
  - intros out nvox b tmp. apply fewer_axes_block_raises. exact Hdim.
  - unfold relabel_connected_components_nd.
    assert (Hfold : forall st,
              fold_left (run_block_nd array_in (num_voxels_nd block_size)) order1 st
              = st).
    { induction order1 as [| b l IH]; intros st; simpl; [reflexivity |].
      unfold run_block_nd at 2.
      rewrite fewer_axes_block_raises by exact Hdim. apply IH. }
    rewrite Hfold. reflexivity.
Qed.

Lemma fewer_than_three_axes_raises_witness :
  (forall out nvox b tmp,
     find_components_in_block_nd (line8_array [3; 4]) out nvox b tmp
     = Raise IndexError)
  /\ relabel_connected_components_nd (line8_array [3; 4]) (line8_array [])
       [4] line8_blocks line8_blocks
     = Raise ValueError.
Proof.
  apply (fewer_than_three_axes_raises (line8_array [3; 4]) (line8_array [])
           [4] line8_blocks line8_blocks).
  vm_compute. lia.
Defined.

(** ** What phase 3 touches *)

(** [relabel_in_block] assigns to the write region of its block and to
    nothing else: for every order of the blocks of phase 3, the region
    and the dtype of the array stay as they are, and a voxel outside the
    write regions of the blocks that ran keeps its value. *)
Theorem relabel_writes_only_write_regions array nodes components order :
  let out := run_phase3 array nodes components order in
  arr_roi out = arr_roi array
  /\ arr_dtype out = arr_dtype array
  /\ forall p,
       existsb (fun b => contains (write_roi b) p) order = false ->
       arr_data out p = arr_data array p.
Proof.
  cbv zeta. induction order as [| b order IH] using rev_ind.
  - repeat split.
  - destruct IH as [IHr [IHt IHd]]. rewrite run_phase3_snoc.
    unfold relabel_in_block, setitem. cbn [arr_roi arr_dtype arr_data].
    split; [exact IHr |]. split; [exact IHt |].
    intros p Hp. rewrite existsb_app in Hp. simpl in Hp.
    rewrite orb_false_r in Hp. apply orb_false_iff in Hp. destruct Hp as [H1 H2].
    rewrite H2. apply IHd. exact H1.
Qed.

(** ** One worker *)

Lemma sequential_app l1 l2 : sequential (l1 ++ l2) = sequential l1 ++ sequential l2.
Proof. unfold sequential. apply flat_map_app. Qed.

Lemma commits_sequential l : commits (sequential l) = l.
Proof.
  induction l as [| b l IH]; [reflexivity |].
  change (commits (sequential (b :: l))) with (b :: commits (sequential l)).
  rewrite IH. reflexivity.
Qed.

Lemma observes_sequential l : observes (sequential l) = l.
Proof.
  induction l as [| b l IH]; [reflexivity |].
  change (observes (sequential (b :: l))) with (b :: observes (sequential l)).
  rewrite IH. reflexivity.
Qed.

Lemma sequential_events l e : In e (sequential l) -> In (event_block e) l.
Proof.
  unfold sequential. rewrite in_flat_map. intros [b [Hb He]].
  destruct He as [<- | [<- | []]]; exact Hb.
Qed.

Lemma run_phase1_app array_in array_out nvox es1 es2 :
  run_phase1 array_in array_out nvox (es1 ++ es2)
  = fold_left (run_event array_in nvox) es2 (run_phase1 array_in array_out nvox es1).
Proof. unfold run_phase1. apply fold_left_app. Qed.

(** The steps that follow leave the file of a block alone, unless they
    save a file under its identifier. *)
Lemma files_kept array_in nvox es : forall st id f,
  ~ In id (map block_id (observes es)) ->
  In (id, f) (snd (fold_left (run_event array_in nvox) es st)) ->
  In (id, f) (snd st).
Proof.
  induction es as [| e es IH]; intros st id f Hid Hin; [exact Hin |].
  cbn [fold_left] in Hin. destruct e as [b | b].
  - apply IH in Hin; [exact Hin | exact Hid].
  - apply IH in Hin.
    + cbn [run_event snd fst] in Hin. unfold observe_block in Hin.
      apply savez_in in Hin. destruct Hin as [[Heq _] | Hin]; [| exact Hin].
      exfalso. apply Hid. left. congruence.
    + intros H. apply Hid. right. exact H.
Qed.

Lemma distinct_block_ids vol block_size blocks l b :
  valid_partition vol block_size blocks = true ->
  incl (b :: l) blocks -> ~ In b l ->
  ~ In (block_id b) (map block_id l).
Proof.
  intros Hpart Hincl Hb Hin. apply in_map_iff in Hin.
  destruct Hin as [c [Hid Hc]]. apply Hb.
  assert (c = b); [| subst; exact Hc].
  apply (part_ids _ _ _ Hpart); [| | exact Hid]; apply Hincl;
    [right; exact Hc | left; reflexivity].
Qed.

(** With one worker the blocks run one after the other, and a block
    records edges towards the blocks that ran before it only: the second
    label of every edge in the file of a block is the label that an
    earlier block wrote for a voxel of the halo, and the first label is
    the block's own label of that voxel. The border between two blocks
    is recorded by the later of the two, and the first block saves an
    empty file. *)
Theorem sequential_edges_point_back
    array_in block_size blocks before b after f u v :
  valid_partition (arr_roi array_in) block_size blocks = true ->
  incl (before ++ b :: after) blocks ->
  NoDup (before ++ b :: after) ->
  In (block_id b, f)
     (scratch array_in block_size (sequential (before ++ b :: after))) ->
  In (u, v) (npz_edges f) ->
  exists c h,
    In c before
    /\ contains (write_roi c) h = true /\ contains (read_roi b) h = true
    /\ u = block_label array_in (num_voxels block_size) b h
    /\ v = block_label array_in (num_voxels block_size) c h.
Proof.
  intros Hpart Hincl Hnd Hf Huv.
  assert (Hb : In b blocks).
  { apply Hincl. apply in_or_app. right. left. reflexivity. }
  assert (Hbefore : incl before blocks).
  { intros c Hc. apply Hincl. apply in_or_app. left. exact Hc. }
  apply NoDup_remove in Hnd. destruct Hnd as [_ Hnotin].
  assert (Hnb : ~ In (block_id b) (map block_id before)).
  { apply (distinct_block_ids _ _ _ _ _ Hpart).
    - intros c [<- | Hc]; [exact Hb | apply Hbefore; exact Hc].
    - intros H. apply Hnotin. apply in_or_app. left. exact H. }
  assert (Hna : ~ In (block_id b) (map block_id after)).
  { apply (distinct_block_ids _ _ _ _ _ Hpart).
    - intros c [<- | Hc]; [exact Hb |].
      apply Hincl. apply in_or_app. right. right. exact Hc.
    - intros H. apply Hnotin. apply in_or_app. right. exact H. }
  set (es1 := sequential before ++ [Commit b]).
  assert (Hev1 : forall e, In e es1 -> In (event_block e) blocks).
  { intros e He. apply in_app_or in He. destruct He as [He | [<- | []]].
    - apply Hbefore. apply sequential_events. exact He.
    - exact Hb. }
  assert (Hes : sequential (before ++ b :: after)
                = es1 ++ Observe b :: sequential after).
  { rewrite sequential_app. unfold es1. rewrite <- app_assoc. reflexivity. }
  unfold scratch in Hf. rewrite Hes, run_phase1_app in Hf. cbn [fold_left] in Hf.
  apply files_kept in Hf; [| rewrite observes_sequential; exact Hna].
  cbn [run_event snd fst] in Hf. unfold observe_block in Hf.
  apply savez_in in Hf. destruct Hf as [[_ ->] | Hf].
  - cbn [npz_edges] in Huv. apply block_edges_in in Huv.
    destruct Huv as [Hu [Hv [d [pos [i [Hd [Hi [Eu Ev]]]]]]]].
    rewrite block_components_shape in Hi.
    set (h := cadd (roi_offset (read_roi b)) i).
    assert (Hih : csub h (roi_offset (read_roi b)) = i) by apply csub_cadd.
    rewrite <- Hih in Ev.
    rewrite (neighbors_get array_in block_size blocks Hpart es1 b h Hev1) in Ev.
    destruct (existsb (fun c => contains (write_roi c) h) (commits es1)) eqn:Hw;
      [| congruence].
    apply existsb_exists in Hw. destruct Hw as [c [Hc Hh]].
    unfold es1 in Hc. rewrite commits_app, commits_sequential in Hc.
    apply in_app_or in Hc.
    assert (Hout : contains (write_roi b) h = false).
    { apply (face_outside_write b d pos i); [| exact Hi].
      apply (part_read _ _ _ Hpart). exact Hb. }
    destruct Hc as [Hc | [<- | []]]; [| congruence].
    exists c, h. split; [exact Hc |]. split; [exact Hh |]. split.
    + unfold contains. rewrite Hih. apply face_in in Hi. tauto.
    + split.
      * unfold block_label. rewrite Hih. exact Eu.
      * rewrite Ev. apply (provisional_owner _ _ _ Hpart); [| exact Hh].
        apply Hbefore. exact Hc.
  - exfalso. apply Hnb.
    destruct (phase1_files array_in (zeros_like array_in) (num_voxels block_size) es1)
      as [_ [Hi _]].
    assert (Hin : In (block_id b) (map block_id (observes es1))).
    { apply Hi. apply in_map_iff. exists (block_id b, f). auto. }
    unfold es1 in Hin. rewrite observes_app, observes_sequential in Hin.
    simpl in Hin. rewrite app_nil_r in Hin. exact Hin.
Qed.

Lemma sequential_edges_point_back_witness :
  exists c h,
    In c [make_block 0 (0, 0, 0) (4, 1, 1)]
    /\ contains (write_roi c) h = true
    /\ contains (read_roi (make_block 1 (4, 0, 0) (4, 1, 1))) h = true
    /\ 55 = block_label (row8_array [3; 4]) (num_voxels (4, 1, 1))
              (make_block 1 (4, 0, 0) (4, 1, 1)) h
    /\ 1 = block_label (row8_array [3; 4]) (num_voxels (4, 1, 1)) c h.
Proof.
  apply (sequential_edges_point_back (row8_array [3; 4]) (4, 1, 1) row8_blocks
           [make_block 0 (0, 0, 0) (4, 1, 1)] (make_block 1 (4, 0, 0) (4, 1, 1)) []
           (mk_npz [1; 55] [(55, 1)]) 55 1).
  - vm_compute. reflexivity.
  - intros c Hc. exact Hc.
  - repeat constructor; simpl; intuition discriminate.
  - vm_compute. auto.
  - simpl. auto.
Defined.

(** ** A block that runs again *)

Lemma commits_blocks es b : In b (commits es) -> In (Commit b) es.
Proof.
  unfold commits. rewrite in_flat_map. intros [e [He Hb]].
  destruct e as [c | c]; simpl in Hb; [| contradiction].
  destruct Hb as [<- | []]. exact He.
Qed.

(** Where the edges of a file come from: the block that the file is
    named after, a position on an outermost slice of its read region,
    and a label that was in the destination when the file was saved. *)
Lemma phase1_file_origin array_in block_size blocks es :
  valid_partition (arr_roi array_in) block_size blocks = true ->
  (forall e, In e es -> In (event_block e) blocks) ->
  forall id f, In (id, f) (scratch array_in block_size es) ->
    exists c, In c blocks /\ block_id c = id
      /\ forall u v, In (u, v) (npz_edges f) ->
           u <> 0 /\ v <> 0
           /\ exists d pos i,
                (d < 3)%nat /\ In i (face (roi_shape (read_roi c)) d pos)
                /\ u = nd_get (block_components array_in (num_voxels block_size) c) i
                /\ v = provisional array_in (num_voxels block_size) blocks
                         (cadd (roi_offset (read_roi c)) i)
                /\ existsb (fun c' => contains (write_roi c')
                                        (cadd (roi_offset (read_roi c)) i))
                           (commits es) = true.
Proof.
  intros Hpart. unfold scratch.
  induction es as [| e es IH] using rev_ind; intros Hev id f Hin.
  - contradiction.
  - assert (Hev' : forall e', In e' es -> In (event_block e') blocks).
    { intros e' He'. apply Hev. apply in_or_app. left. exact He'. }
    assert (He : In (event_block e) blocks).
    { apply Hev. apply in_or_app. right. left. reflexivity. }
    rewrite run_phase1_snoc in Hin.
    destruct e as [b | b]; cbn [run_event fst snd event_block] in *.
    + destruct (IH Hev' id f Hin) as [c [Hc [Hid Hedges]]].
      exists c. split; [exact Hc |]. split; [exact Hid |].
      intros u v Huv.
      destruct (Hedges u v Huv) as [Hu [Hv [d [pos [i [Hd [Hi [Eu [Ev Hw]]]]]]]]].
      split; [exact Hu |]. split; [exact Hv |]. exists d, pos, i.
      repeat split; try assumption.
      rewrite commits_app, existsb_app, Hw. reflexivity.
    + unfold observe_block in Hin. apply savez_in in Hin.
      destruct Hin as [[-> ->] | Hin].
      * exists b. split; [exact He |]. split; [reflexivity |].
        cbn [npz_edges]. intros u v Huv. apply block_edges_in in Huv.
        destruct Huv as [Hu [Hv [d [pos [i [Hd [Hi [Eu Ev]]]]]]]].
        rewrite block_components_shape in Hi.
        split; [exact Hu |]. split; [exact Hv |]. exists d, pos, i.
        split; [exact Hd |]. split; [exact Hi |]. split; [exact Eu |].
        rewrite <- (csub_cadd (roi_offset (read_roi b)) i) in Ev.
        rewrite (neighbors_get array_in block_size blocks Hpart es b _ Hev') in Ev.
        rewrite commits_app, existsb_app. cbn [commits flat_map app existsb].
        rewrite orb_false_r.
        destruct (existsb (fun c' => contains (write_roi c')
                                       (cadd (roi_offset (read_roi b)) i))
                          (commits es)); [auto | congruence].
      * destruct (IH Hev' id f Hin) as [c [Hc [Hid Hedges]]].
        exists c. split; [exact Hc |]. split; [exact Hid |].
        intros u v Huv.
        destruct (Hedges u v Huv) as [Hu [Hv [d [pos [i [Hd [Hi [Eu [Ev Hw]]]]]]]]].
        split; [exact Hu |]. split; [exact Hv |]. exists d, pos, i.
        repeat split; try assumption.
        rewrite commits_app, existsb_app, Hw. reflexivity.
Qed.

(** Calling [find_components_in_block] again for a block that has
    already written its labels, as the executor does when it retries a
    block, loses nothing: no voxel of the destination changes, the files
    of the other blocks stay as they are, and the new file of the block
    holds every edge of the directory that the old file held, so that
    the directory as a whole keeps all its edges. (The new file can hold
    more edges than the old one, those towards blocks that have written
    in the meantime.) *)
Theorem rerun_keeps_labels_and_edges array_in block_size blocks es b :
  valid_partition (arr_roi array_in) block_size blocks = true ->
  (forall e, In e es -> In (event_block e) blocks) ->
  In b (commits es) ->
  let st := run_phase1 array_in (zeros_like array_in) (num_voxels block_size) es in
  let st' := find_components_in_block array_in (fst st) (num_voxels block_size)
               b (snd st) in
  (forall p, arr_data (fst st') p = arr_data (fst st) p)
  /\ (forall id f, id <> block_id b ->
        (In (id, f) (snd st') <-> In (id, f) (snd st)))
  /\ (forall u v, In (u, v) (all_edges (snd st)) -> In (u, v) (all_edges (snd st'))).
Proof.
  intros Hpart Hev Hcom. cbv zeta.
  assert (Hb : In b blocks).
  { apply (Hev (Commit b)). apply commits_blocks. exact Hcom. }
  assert (Hread := part_read _ _ _ Hpart b Hb).
  split; [| split].
  - intros p. unfold find_components_in_block. cbn [fst].
    change (setitem
              (fst (run_phase1 array_in (zeros_like array_in)
                      (num_voxels block_size) es))
              (write_roi b)
              (crop (block_components array_in (num_voxels block_size) b)))
      with (commit_block array_in
              (fst (run_phase1 array_in (zeros_like array_in)
                      (num_voxels block_size) es))
              (num_voxels block_size) b).
    rewrite (commit_block_data array_in block_size blocks Hpart) by exact Hb.
    destruct (contains (write_roi b) p) eqn:Hp; [| reflexivity].
    rewrite (phase1_out_any array_in _ block_size blocks es Hpart Hev).
    assert (Hw : existsb (fun c => contains (write_roi c) p) (commits es) = true).
    { apply existsb_exists. exists b. auto. }
    rewrite Hw. reflexivity.
  - intros id f Hne. unfold find_components_in_block. cbn [snd]. split.
    + intros Hin. apply savez_in in Hin. destruct Hin as [[Heq _] | Hin];
        [contradiction | exact Hin].
    + apply savez_keep. exact Hne.
  - intros u v Huv. apply all_edges_in in Huv. destruct Huv as [id [f [Hf Huv]]].
    apply all_edges_in.
    destruct (Z.eq_dec id (block_id b)) as [Heq | Hne].
    + destruct (phase1_file_origin array_in block_size blocks es Hpart Hev id f Hf)
        as [c [Hc [Hid Hedges]]].
      assert (c = b) by (apply (part_ids _ _ _ Hpart); congruence). subst c.
      destruct (Hedges u v Huv) as [Hu [Hv [d [pos [i [Hd [Hi [Eu [Ev Hw]]]]]]]]].
      rewrite file_new_edges by exact Hread.
      eexists _, _. split; [apply savez_new |]. cbn [npz_edges].
      apply block_edges_in. split; [exact Hu |]. split; [exact Hv |].
      exists d, pos, i. split; [exact Hd |].
      rewrite block_components_shape. split; [exact Hi |]. split; [exact Eu |].
      rewrite <- (csub_cadd (roi_offset (read_roi b)) i) at 1.
      rewrite (neighbors_get array_in block_size blocks Hpart es b _ Hev), Hw.
      exact Ev.
    + exists id, f. split; [| exact Huv].
      unfold find_components_in_block. cbn [snd]. apply savez_keep; assumption.
Qed.

Lemma rerun_keeps_labels_and_edges_witness :
  let a := row8_array [3; 4] in
  let b0 := make_block 0 (0, 0, 0) (4, 1, 1) in
  let st := run_phase1 a (zeros_like a) (num_voxels (4, 1, 1))
              (sequential row8_blocks) in
  let st' := find_components_in_block a (fst st) (num_voxels (4, 1, 1)) b0 (snd st) in
  (forall p, arr_data (fst st') p = arr_data (fst st) p)
  /\ (forall id f, id <> block_id b0 ->
        (In (id, f) (snd st') <-> In (id, f) (snd st)))
  /\ (forall u v, In (u, v) (all_edges (snd st)) -> In (u, v) (all_edges (snd st'))).
Proof.
  cbv zeta.
  apply (rerun_keeps_labels_and_edges (row8_array [3; 4]) (4, 1, 1) row8_blocks
           (sequential row8_blocks) (make_block 0 (0, 0, 0) (4, 1, 1))).
  - vm_compute. reflexivity.
  - intros e He. apply sequential_events in He. exact He.
  - rewrite commits_sequential. left. reflexivity.
Defined.

(** ** The capacity of a block *)

(** The capacity [num_voxels_in_block], computed once from [block_size]
    at line 42, is large enough for every block of the partition, also
    for the blocks that the executor shrinks at the border of the
    volume: the block-local label of a voxel of the read region lies
    between 0 and the capacity, and it is 0 exactly for the background
    (a voxel of value 0, or a voxel of the halo outside the volume). *)
Theorem local_labels_within_capacity array_in block_size blocks b p :
  valid_partition (arr_roi array_in) block_size blocks = true ->
  In b blocks -> contains (read_roi b) p = true ->
  0 <= local_label array_in b p <= num_voxels block_size
  /\ (local_label array_in b p = 0 <-> value_at array_in p = 0).
Proof.
  intros Hpart Hb Hp. unfold local_label.
  pose proof (part_size _ _ _ Hpart b Hb) as Hsize.
  pose proof (labels_get array_in b p) as Hget. cbv zeta in Hget.
  destruct (Z.eq_dec (value_at array_in p) 0) as [Hv | Hv].
  - rewrite label_background by (rewrite Hget; exact Hv).
    split; [lia | tauto].
  - assert (Hr : 1 <= nd_get (label (to_ndarray array_in (read_roi b) 0))
                        (csub p (roi_offset (read_roi b)))
                 <= Z.of_nat (length (indices (nd_shape
                                (to_ndarray array_in (read_roi b) 0))))).
    { apply label_range; [exact Hp | rewrite Hget; exact Hv]. }
    change (nd_shape (to_ndarray array_in (read_roi b) 0))
      with (roi_shape (read_roi b)) in Hr.
    split; [lia |]. split; [lia | contradiction].
Qed.

Lemma local_labels_within_capacity_witness :
  0 <= local_label (strip20_array strip20_dots)
         (make_block 3 (0, 0, 15) (2, 1, 5)) (1, 0, 17)
    <= num_voxels (2, 1, 5)
  /\ (local_label (strip20_array strip20_dots)
        (make_block 3 (0, 0, 15) (2, 1, 5)) (1, 0, 17) = 0
      <-> value_at (strip20_array strip20_dots) (1, 0, 17) = 0).
Proof.
  apply (local_labels_within_capacity (strip20_array strip20_dots) (2, 1, 5)
           strip20_blocks (make_block 3 (0, 0, 15) (2, 1, 5)) (1, 0, 17)).
  - vm_compute. reflexivity.
  - vm_compute. auto 10.
  - vm_compute. reflexivity.
Defined.

(** ** The layout of a file *)






Lemma row_eqb_refl p : row_eqb p p = true.
Proof. unfold row_eqb. rewrite !Z.eqb_refl. reflexivity. Qed.




(** ** A destination that is not empty *)

(** Why the destination has to be empty: a nonzero value that the
    destination holds in the halo of a block, at a voxel of an outermost
    slice of the read region to which the block gives a nonzero label,
    is taken for the label of a neighbour. The block saves the edge
    between its own label of the voxel and that value. *)
Theorem stale_value_becomes_edge array_in array_out nvox b tmp h d pos :
  read_roi b = grow (write_roi b) ones ones ->
  (d < 3)%nat ->
  In (csub h (roi_offset (read_roi b))) (face (roi_shape (read_roi b)) d pos) ->
  contains (arr_roi array_out) h = true ->
  arr_data array_out h <> 0 ->
  block_label array_in nvox b h <> 0 ->
  exists f,
    In (block_id b, f) (snd (find_components_in_block array_in array_out nvox b tmp))
    /\ In (block_label array_in nvox b h, arr_data array_out h) (npz_edges f).
Proof.
  intros Hread Hd Hface Hin Hs Hu.
  rewrite file_new_edges by exact Hread.
  eexists. split; [apply savez_new |]. cbn [npz_edges].
  apply block_edges_in. split; [exact Hu |]. split; [exact Hs |].
  exists d, pos, (csub h (roi_offset (read_roi b))).
  split; [exact Hd |]. rewrite block_components_shape. split; [exact Hface |].
  split; [reflexivity |].
  unfold to_ndarray. cbn [nd_get]. rewrite cadd_csub, Hin. reflexivity.
Qed.

Lemma stale_value_becomes_edge_witness :
  exists f,
    In (block_id (make_block 0 (0, 0, 0) (4, 1, 1)), f)
       (snd (find_components_in_block (row8_array [3; 4]) (row8_array [4]) 54
               (make_block 0 (0, 0, 0) (4, 1, 1)) []))
    /\ In (block_label (row8_array [3; 4]) 54 (make_block 0 (0, 0, 0) (4, 1, 1))
             (4, 0, 0),
           arr_data (row8_array [4]) (4, 0, 0))
          (npz_edges f).
Proof.
  apply (stale_value_becomes_edge (row8_array [3; 4]) (row8_array [4]) 54
           (make_block 0 (0, 0, 0) (4, 1, 1)) [] (4, 0, 0) 0%nat true).
  - reflexivity.
  - lia.
  - vm_compute. auto 20.
  - vm_compute. reflexivity.
  - vm_compute. discriminate.
  - vm_compute. discriminate.
Defined.

(** ** The graph that phase 1 hands to phase 2 *)

(** What phase 1 leaves for the merge, stated on the destination and on
    the collected edges alone: for a valid partition, an empty
    destination and any valid schedule, provided the labels of all
    blocks fit the dtype of the input, the collection returns, every
    foreground voxel of the volume carries a nonzero provisional label,
    and the provisional labels of two foreground voxels are joined by a
    chain of collected edges exactly when the two voxels are connected
    in the input. The classes of the graph are the blobs of the volume,
    whatever resolves them afterwards. *)
Theorem merge_graph_classes_are_blobs array_in block_size blocks es p q :
  valid_partition (arr_roi array_in) block_size blocks = true ->
  valid_schedule blocks es = true ->
  labels_fit (arr_dtype array_in) block_size blocks = true ->
  contains (arr_roi array_in) p = true -> value_at array_in p <> 0 ->
  contains (arr_roi array_in) q = true -> value_at array_in q <> 0 ->
  let st := run_phase1 array_in (zeros_like array_in) (num_voxels block_size) es in
  exists nodes edges,
    read_cross_block_merges (snd st) = Ok (nodes, edges)
    /\ arr_data (fst st) p <> 0 /\ arr_data (fst st) q <> 0
    /\ (econn edges (arr_data (fst st) p) (arr_data (fst st) q)
        <-> connected array_in p q).
Proof.
  intros Hpart Hs Hfit Hp Hvp Hq Hvq. cbv zeta.
  destruct (phase1_final array_in block_size blocks es Hpart Hs) as [_ Hd].
  rewrite !Hd.
  exists (all_nodes (scratch array_in block_size es)),
         (all_edges (scratch array_in block_size es)).
  split; [| split; [| split]].
  - apply read_cross_block_merges_ok.
    apply (phase1_nonempty array_in block_size es).
    destruct (part_cover _ _ _ Hpart p Hp) as [b [Hb _]].
    intros Hnil. pose proof (sched_observes blocks es Hs b Hb) as H.
    rewrite Hnil in H. contradiction.
  - apply (prov_nonzero array_in block_size blocks Hpart Hfit); assumption.
  - apply (prov_nonzero array_in block_size blocks Hpart Hfit); assumption.
  - rewrite <- (canonical_same array_in block_size blocks es Hpart Hs).
    apply (canonical_connected array_in block_size blocks es Hpart Hs Hfit);
      assumption.
Qed.

Lemma merge_graph_classes_are_blobs_witness :
  let st := run_phase1 (row8_array [3; 4]) (zeros_like (row8_array [3; 4]))
              (num_voxels (4, 1, 1))
              [Commit (make_block 1 (4, 0, 0) (4, 1, 1));
               Commit (make_block 0 (0, 0, 0) (4, 1, 1));
               Observe (make_block 1 (4, 0, 0) (4, 1, 1));
               Observe (make_block 0 (0, 0, 0) (4, 1, 1))] in
  exists nodes edges,
    read_cross_block_merges (snd st) = Ok (nodes, edges)
    /\ arr_data (fst st) (3, 0, 0) <> 0 /\ arr_data (fst st) (4, 0, 0) <> 0
    /\ (econn edges (arr_data (fst st) (3, 0, 0)) (arr_data (fst st) (4, 0, 0))
        <-> connected (row8_array [3; 4]) (3, 0, 0) (4, 0, 0)).
Proof.
  cbv zeta.
  apply (merge_graph_classes_are_blobs (row8_array [3; 4]) (4, 1, 1) row8_blocks
           [Commit (make_block 1 (4, 0, 0) (4, 1, 1));
            Commit (make_block 0 (0, 0, 0) (4, 1, 1));
            Observe (make_block 1 (4, 0, 0) (4, 1, 1));
            Observe (make_block 0 (0, 0, 0) (4, 1, 1))] (3, 0, 0) (4, 0, 0));
    try (vm_compute; reflexivity); vm_compute; discriminate.
Defined.
